(** * Particle life: force kernel, group sweep, simulation step, group registry

    A shallow embedding of the simulation core of [ParticleGroup.ts]:
    [interactParticle], [constraint], [interactGroup], [ParticleGroup.step],
    [ParticleGroup.addGroup], [ParticleGroup.removeGroup],
    [ParticleGroup.updateParticleCount] and [ParticleGroup.computationsPerFrame].

    - A JavaScript [number] is a binary64 float: Rocq's primitive [float],
      whose operations are the IEEE 754 ones with round-to-nearest-even.
    - A [Group] is a mutable object that the registry, the callers and the
      tables of the other groups reach by reference: groups live in a store
      indexed by object identity ([ref]), and [this.groups] is a list of
      references.  The same object may therefore occur twice in the registry,
      and the candidate of [addGroup] may already be registered.
    - A [Particle] is owned by the slot of the [items] array that holds it
      (particles are created by [updateParticleCount] and never shared), so
      [items] is a list of particle values updated by index.
    - The fields [hsl] and [colorStr] of [Group], the [images] array, [draw]
      and [updateImages] only concern rendering and are left out.

    The second part of the development covers the rest of the registry
    ([pause], [clear], [random]) and the operations of the application
    component [app.component.ts] that edit a group ([addParticles],
    [increaseRadius], [increaseRange], [increaseAttitude],
    [addDefaultGroup]). *)

From Stdlib Require Import Floats ZArith List Bool Arith Lia.
From Stdlib Require Uint63.
Import ListNotations.

Local Open Scope float_scope.

(** ** Numbers *)

(** [Number.EPSILON], 2^-52. *)
Definition EPSILON : float := 0x1p-52.

(** [v ** 2] and [v ** .5].  ECMAScript leaves the precision of [**] to the
    implementation; they are taken here as the correctly rounded square and
    square root (which is what [Math.pow] computes for a non-negative base and
    the exponent [.5] in the fdlibm-derived engines). *)
Definition pow2 (v : float) : float := v * v.
Definition pow_half (v : float) : float := PrimFloat.sqrt v.

(** [arr[i]] for an array of numbers.  Reading past the end yields
    [undefined]; every use of such a read in the modelled code is numeric
    ([<], [=== 0], [/], or a [push] into another array of numbers), where
    [undefined] behaves as [NaN]. *)
Definition num_at (arr : list float) (i : nat) : float := nth i arr nan.

(** The number that is the length of an array (lengths are below 2^32). *)
Definition of_len (n : nat) : float := PrimFloat.of_uint63 (Uint63.of_Z (Z.of_nat n)).

(** The integer a number denotes, when it denotes one. *)
Definition integer_value (v : float) : option Z :=
  match Prim2SF v with
  | S754_zero _ => Some 0%Z
  | S754_finite s m e =>
      if (0 <=? e)%Z then Some (cond_Zopp s (Z.pos m * 2 ^ e))
      else if (Z.pos m mod 2 ^ (- e) =? 0)%Z
           then Some (cond_Zopp s (Z.pos m / 2 ^ (- e)))
           else None
  | _ => None
  end.

(** Largest length of an array, 2^32 - 1. *)
Definition MAX_ARRAY_LENGTH : Z := 4294967295.

(** [arr.length = v] succeeds when [v] is an integer in [0, 2^32 - 1]. *)
Definition to_array_length (v : float) : option nat :=
  match integer_value v with
  | Some z => if ((0 <=? z) && (z <=? MAX_ARRAY_LENGTH))%Z
              then Some (Z.to_nat z) else None
  | None => None
  end.

(** Number of iterations of [for (let i = 0; i < d; i++)] for [0 < d]:
    the least integer not below [d]; [None] when [d] is infinite.  (The
    counter [i] is exact up to 2^53, far beyond the largest length of an
    array, where the loop of [updateParticleCount] ends at the latest.) *)
Definition loop_bound (d : float) : option Z :=
  match Prim2SF d with
  | S754_finite false m e =>
      if (0 <=? e)%Z then Some (Z.pos m * 2 ^ e)%Z
      else Some ((Z.pos m + 2 ^ (- e) - 1) / 2 ^ (- e))%Z
  | _ => None
  end.

(** A comparison read from the other side. *)
Definition opp_cmp (c : option comparison) : option comparison :=
  match c with
  | Some c => Some (CompOpp c)
  | None => None
  end.

(** The results of rounding with a given sign. *)
Definition signed_as (s : bool) (v : spec_float) : Prop :=
  match v with
  | S754_zero s' => s' = s
  | S754_infinity s' => s' = s
  | S754_finite s' _ _ => s' = s
  | S754_nan => True
  end.

(** A positive number or [+infinity]. *)
Definition is_positive (v : spec_float) : Prop :=
  match v with
  | S754_infinity false => True
  | S754_finite false _ _ => True
  | _ => False
  end.

(** A result that is not negative: a zero of either sign, a positive
    number, [+infinity], or no number. *)
Definition not_negative (v : spec_float) : Prop :=
  match v with
  | S754_zero _ => True
  | S754_infinity s => s = false
  | S754_finite s _ _ => s = false
  | S754_nan => True
  end.

(** ** Particles and the force kernel *)

Record Particle : Type := mkParticle {
  x : float;
  y : float;
  vx : float;
  vy : float;
  ax : float;
  ay : float
}.

Definition set_acc (a : Particle) (ax' ay' : float) : Particle :=
  mkParticle (x a) (y a) (vx a) (vy a) ax' ay'.

Definition set_vel (a : Particle) (vx' vy' : float) : Particle :=
  mkParticle (x a) (y a) vx' vy' (ax a) (ay a).

Definition set_pos (a : Particle) (x' y' : float) : Particle :=
  mkParticle x' y' (vx a) (vy a) (ax a) (ay a).

(** [dx], [dy] and [distance] as [interactParticle] computes them. *)
Definition delta_x (a b : Particle) : float := x a - x b.
Definition delta_y (a b : Particle) : float := y a - y b.

Definition distance (a b : Particle) : float :=
  let dSq := (pow2 (delta_x a b) + pow2 (delta_y a b)) + EPSILON in
  pow_half dSq + EPSILON.

(** [interactParticle(a, b, f, maxDistance, particleRadius)]: the particle
    [a] after the call.  All reads of [b] (its [x] and [y]) come before the
    writes to [a], so the result is the same when [a] and [b] are one
    object. *)
Definition interactParticle (a b : Particle) (f maxDistance particleRadius : float)
  : Particle :=
  let dx := delta_x a b in
  let dy := delta_y a b in
  let distance := distance a b in
  if distance <? particleRadius then
    let F := (-6) / distance in
    set_acc a (ax a - F * dx) (ay a - F * dy)
  else if distance <? maxDistance then
    let F := f / distance in
    set_acc a (ax a - F * dx) (ay a - F * dy)
  else a.

(** [constraint(particle, r, width, height)], one axis after the other. *)
Definition constraint_x (p : Particle) (r width : float) : Particle :=
  if x p <? r then mkParticle r (y p) (vx p * (-1)) (vy p) (ax p) (ay p)
  else if width - r <? x p
       then mkParticle (width - r) (y p) (vx p * (-1)) (vy p) (ax p) (ay p)
       else p.

Definition constraint_y (p : Particle) (r height : float) : Particle :=
  if y p <? r then mkParticle (x p) r (vx p) (vy p * (-1)) (ax p) (ay p)
  else if height - r <? y p
       then mkParticle (x p) (height - r) (vx p) (vy p * (-1)) (ax p) (ay p)
       else p.

Definition constraint (particle : Particle) (r width height : float) : Particle :=
  constraint_y (constraint_x particle r width) r height.

(** The body of the loop of [interactGroup] after the kernel calls:
    velocity from acceleration, dampening, position from velocity. *)
Definition integrate (a : Particle) (dt dampening : float) : Particle :=
  let a1 := set_vel a (vx a + dt * ax a) (vy a + dt * ay a) in
  let a2 := set_vel a1 (vx a1 * dampening) (vy a1 * dampening) in
  set_pos a2 (x a2 + vx a2) (y a2 + vy a2).

(** ** Groups, the object store and the registry *)

Record Group : Type := mkGroup {
  items : list Particle;
  count : float;
  forces : list float;
  ranges : list float;
  particleRadius : float;
  isRunning : bool
}.

(** The identity of a [Group] object. *)
Definition ref : Type := nat.

(** The store: the current contents of every [Group] object (what it holds
    at an identity that no object has is of no consequence). *)
Definition heap : Type := ref -> Group.

Definition upd (h : heap) (g : ref) (v : Group) : heap :=
  fun g' => if Nat.eqb g' g then v else h g'.

Definition set_items (h : heap) (g : ref) (its : list Particle) : heap :=
  upd h g (mkGroup its (count (h g)) (forces (h g)) (ranges (h g))
                   (particleRadius (h g)) (isRunning (h g))).

Definition set_tables (h : heap) (g : ref) (fs rs : list float) : heap :=
  upd h g (mkGroup (items (h g)) (count (h g)) fs rs
                   (particleRadius (h g)) (isRunning (h g))).

(** The part of a [ParticleGroup] instance that the registry operations
    read and write: the store and [this.groups]. *)
Record World : Type := mkWorld {
  objs : heap;
  groups : list ref
}.

(** What the modelled code reads from its surroundings: the canvas size
    ([this.ctx.canvas.width], [.height]), the window size ([innerWidth],
    [innerHeight]), [this.dampening], and the values that the successive
    calls of [Math.random()] return. *)
Record Env : Type := mkEnv {
  canvas_width : float;
  canvas_height : float;
  innerWidth : float;
  innerHeight : float;
  dampening : float;
  random : nat -> float
}.

(** The exceptions the modelled code raises: the [Error] of [addGroup]
    (`Particle too big, <range> < <radius>`) and the [RangeError] of an
    invalid array length. *)
Inductive error : Type :=
  | ParticleTooBig (range radius : float)
  | InvalidArrayLength.

(** A call either returns or throws; both leave a world behind. *)
Inductive outcome (A : Type) : Type :=
  | Return (v : A) (w : World)
  | Throw (e : error) (w : World).
Arguments Return {A} v w.
Arguments Throw {A} e w.

Definition world_of {A : Type} (o : outcome A) : World :=
  match o with
  | Return _ w => w
  | Throw _ w => w
  end.

(** The call ended with the validation error of [addGroup]. *)
Definition validation_error {A : Type} (o : outcome A) : bool :=
  match o with
  | Throw (ParticleTooBig _ _) _ => true
  | _ => false
  end.

(** *** updateParticleCount *)

(** The particles pushed by the loop of [updateParticleCount]: the [i]-th
    one takes the random numbers [2 i] and [2 i + 1]. *)
Fixpoint new_particles (env : Env) (i k : nat) : list Particle :=
  match k with
  | O => []
  | S k' =>
      mkParticle (random env (2 * i) * canvas_width env)
                 (random env (2 * i + 1) * canvas_height env) 0 0 0 0
      :: new_particles env (S i) k'
  end.

(** [updateParticleCount(group)].  With [d = count - items.length]: for
    [d < 0] the length of [items] is set to [items.length + d], which throws
    a [RangeError] unless that is an integer in the range of array lengths;
    for [d > 0] one particle is pushed per iteration of the loop, and the
    [push] that would take the array past its largest length throws a
    [RangeError]; otherwise ([d] is [0] or not a number) nothing happens. *)
Definition updateParticleCount (env : Env) (group : ref) (w : World) : outcome unit :=
  let its := items (objs w group) in
  let d := count (objs w group) - of_len (length its) in
  if d =? 0 then Return tt w
  else if d <? 0 then
    match to_array_length (of_len (length its) + d) with
    | Some n => Return tt (mkWorld (set_items (objs w) group (firstn n its)) (groups w))
    | None => Throw InvalidArrayLength w
    end
  else if 0 <? d then
    let room := (MAX_ARRAY_LENGTH - Z.of_nat (length its))%Z in
    match loop_bound d with
    | Some k =>
        if (k <=? room)%Z
        then Return tt (mkWorld (set_items (objs w) group
                                   (its ++ new_particles env 0 (Z.to_nat k)))
                                (groups w))
        else Throw InvalidArrayLength
               (mkWorld (set_items (objs w) group
                           (its ++ new_particles env 0 (Z.to_nat room)))
                        (groups w))
    | None =>
        Throw InvalidArrayLength
          (mkWorld (set_items (objs w) group
                      (its ++ new_particles env 0 (Z.to_nat room)))
                   (groups w))
    end
  else Return tt w.

(** *** addGroup *)

(** [g.forces.push(f); g.ranges.push(r)]. *)
Definition push_entry (h : heap) (g : ref) (f r : float) : heap :=
  set_tables h g (forces (h g) ++ [f]) (ranges (h g) ++ [r]).

(** The loop of [addGroup], at index [i], with [todo] the groups of the
    registry from index [i] on.  The candidate is read from the store at
    every iteration, as the code reads [group.ranges[i]] and
    [group.forces[i]] from the object. *)
Fixpoint addGroup_loop (group : ref) (todo : list ref) (i : nat) (w : World)
  : outcome unit :=
  match todo with
  | [] => Return tt w
  | g :: rest =>
      let cand := objs w group in
      if num_at (ranges cand) i <? particleRadius cand
      then Throw (ParticleTooBig (num_at (ranges cand) i) (particleRadius cand)) w
      else addGroup_loop group rest (S i)
             (mkWorld (push_entry (objs w) g (num_at (forces cand) i)
                                  (num_at (ranges cand) i))
                      (groups w))
  end.

Definition addGroup (env : Env) (group : ref) (w : World) : outcome ref :=
  match addGroup_loop group (groups w) 0 w with
  | Throw e w' => Throw e w'
  | Return _ w1 =>
      let w2 := mkWorld (objs w1) (groups w1 ++ [group]) in
      match updateParticleCount env group w2 with
      | Throw e w' => Throw e w'
      | Return _ w3 => Return group w3
      end
  end.

(** *** removeGroup *)

(** [arr.findIndex(g => g === group)]; [None] stands for [-1]. *)
Fixpoint findIndex (group : ref) (arr : list ref) : option nat :=
  match arr with
  | [] => None
  | g :: rest =>
      if Nat.eqb g group then Some O
      else match findIndex group rest with
           | Some i => Some (S i)
           | None => None
           end
  end.

(** [arr.splice(i, 1)] for [i] a result of [findIndex]: a start of [-1]
    counts from the end and removes the last element; a start past the end
    removes nothing. *)
Definition splice1 {A : Type} (i : option nat) (arr : list A) : list A :=
  match i with
  | Some i => firstn i arr ++ skipn (S i) arr
  | None => removelast arr
  end.

Definition splice_tables (i : option nat) (h : heap) (g : ref) : heap :=
  set_tables h g (splice1 i (forces (h g))) (splice1 i (ranges (h g))).

Definition removeGroup (group : ref) (w : World) : World :=
  let h1 := set_items (objs w) group [] in
  let i := findIndex group (groups w) in
  let gs := splice1 i (groups w) in
  mkWorld (fold_left (splice_tables i) gs h1) gs.

(** *** computationsPerFrame *)

(** The getter [computationsPerFrame].  The counter [k] is a [number]: the
    two lengths are multiplied and the product is added to [k] in binary64,
    so that a product or a sum above 2^53 is rounded. *)
Definition computationsPerFrame (w : World) : float :=
  let groups := groups w in
  let len := length groups in
  fold_left (fun k i =>
    fold_left (fun k j =>
      let gi := objs w (nth i groups O) in
      let gj := objs w (nth j groups O) in
      if negb (isRunning gi) || (num_at (forces gi) j =? 0) then k
      else k + of_len (length (items gi)) * of_len (length (items gj)))
      (seq 0 len) k)
    (seq 0 len) 0.

(** ** The group sweep and the simulation step *)

(** What a sweep does to the particle at index [k] of the group object [g]:
    [a.ax = 0; a.ay = 0] and the integration of its velocity and position.
    The log of these events is kept next to the store so that one can count
    them; it has no influence on the store. *)
Inductive event : Type :=
  | AccelReset (g : ref) (k : nat)
  | Integrated (g : ref) (k : nat).

Definition sim : Type := (heap * list event)%type.

Definition set_item (h : heap) (g : ref) (k : nat) (a : Particle) : heap :=
  set_items h g (firstn k (items (h g)) ++ a :: skipn (S k) (items (h g))).

(** One iteration of the outer loop of [interactGroup], for the particle at
    index [i] of [group1]. *)
Definition sweep_particle (group1 group2 : ref) (f maxDistance dt width height
                           dampening : float) (st : sim) (i : nat) : sim :=
  let (h, log) := st in
  match nth_error (items (h group1)) i with
  | None => st
  | Some a =>
      let h1 := set_item h group1 i (set_acc a 0 0) in
      let a1 := fold_left
                  (fun a b => interactParticle a b f maxDistance
                                (particleRadius (h1 group1)))
                  (items (h1 group2)) (set_acc a 0 0) in
      let a2 := integrate a1 dt dampening in
      let a3 := constraint a2 (particleRadius (h1 group1)) width height in
      (set_item h1 group1 i a3, log ++ [AccelReset group1 i; Integrated group1 i])
  end.

Definition interactGroup (group1 group2 : ref) (f maxDistance dt width height
                          dampening : float) (st : sim) : sim :=
  let len1 := length (items (fst st group1)) in
  fold_left (sweep_particle group1 group2 f maxDistance dt width height dampening)
            (seq 0 len1) st.

(** The inner loop of [step] for the target at index [i]. *)
Definition step_row (env : Env) (groups : list ref) (dt : float) (i : nat)
  (st : sim) : sim :=
  fold_left (fun st j =>
    let gi := nth i groups O in
    if num_at (forces (fst st gi)) j =? 0 then st
    else interactGroup gi (nth j groups O)
           (num_at (forces (fst st gi)) j) (num_at (ranges (fst st gi)) j)
           dt (innerWidth env) (innerHeight env) (dampening env) st)
    (seq 0 (length groups)) st.

Definition step_sim (env : Env) (groups : list ref) (dt : float) (st : sim) : sim :=
  fold_left (fun st i =>
    if negb (isRunning (fst st (nth i groups O))) then st
    else step_row env groups dt i st)
    (seq 0 (length groups)) st.

(** [step(groups, dt)]: the store after the call, and what it did. *)
Definition step (env : Env) (groups : list ref) (dt : float) (h : heap) : heap :=
  fst (step_sim env groups dt (h, [])).


(** *** The variant of the specification that does not skip

    The variant of [step] that the specification compares it with: a pair
    whose force entry is [0] is not skipped, the group interaction is invoked
    for it with [f = 0]. *)
Definition step_row_noskip (env : Env) (groups : list ref) (dt : float) (i : nat)
  (st : sim) : sim :=
  fold_left (fun st j =>
    let gi := nth i groups O in
    interactGroup gi (nth j groups O)
      (if num_at (forces (fst st gi)) j =? 0 then 0
       else num_at (forces (fst st gi)) j)
      (num_at (ranges (fst st gi)) j)
      dt (innerWidth env) (innerHeight env) (dampening env) st)
    (seq 0 (length groups)) st.

Definition step_noskip (env : Env) (groups : list ref) (dt : float) (h : heap)
  : heap :=
  fst (fold_left (fun st i =>
         if negb (isRunning (fst st (nth i groups O))) then st
         else step_row_noskip env groups dt i st)
         (seq 0 (length groups)) (h, [])).

(** The pairs of indices for which [step] invokes the group interaction, in
    the order of its loops, read off a store. *)
Definition interacts (h : heap) (groups : list ref) (i j : nat) : bool :=
  isRunning (h (nth i groups O)) &&
  negb (num_at (forces (h (nth i groups O))) j =? 0).

Definition interacting_pairs (h : heap) (groups : list ref) : list (nat * nat) :=
  filter (fun p => interacts h groups (fst p) (snd p))
         (list_prod (seq 0 (length groups)) (seq 0 (length groups))).

(** The sum, over the ordered pairs [(i, j)] of indices of the registry such
    that group [i] is running and its force entry for [j] is not [0], of the
    product of the numbers of particles of the two groups: an integer. *)
Definition sum_of_pair_products (w : World) : nat :=
  list_sum
    (map (fun p => (length (items (objs w (nth (fst p) (groups w) O))) *
                    length (items (objs w (nth (snd p) (groups w) O))))%nat)
         (interacting_pairs (objs w) (groups w))).

(** The group interaction for the pair [(i, j)], with the force and the
    range of the pair read off the store at the time of the call. *)
Definition interact_pair (env : Env) (groups : list ref) (dt : float)
  (st : sim) (p : nat * nat) : sim :=
  let gi := nth (fst p) groups O in
  interactGroup gi (nth (snd p) groups O)
    (num_at (forces (fst st gi)) (snd p)) (num_at (ranges (fst st gi)) (snd p))
    dt (innerWidth env) (innerHeight env) (dampening env) st.

(** ** Properties of the registry and of a step *)

(** Every registered group has one force entry and one range entry per
    registered group. *)
Definition aligned (w : World) : Prop :=
  forall g, In g (groups w) ->
    length (forces (objs w g)) = length (groups w) /\
    length (ranges (objs w g)) = length (groups w).

(** The registry is a square table with one row per group object: no object
    is registered twice, and the rows are aligned. *)
Definition registry_ok (w : World) : Prop :=
  NoDup (groups w) /\ aligned w.

(** Two stores agree on everything but the contents of the particles. *)
Definition same_shape (h h' : heap) : Prop :=
  forall g, forces (h' g) = forces (h g) /\
            ranges (h' g) = ranges (h g) /\
            isRunning (h' g) = isRunning (h g) /\
            particleRadius (h' g) = particleRadius (h g) /\
            length (items (h' g)) = length (items (h g)).

Definition shape_rel (st st' : sim) : Prop := same_shape (fst st) (fst st').



(** The events of one sweep over a target with [len] particles. *)
Definition sweep_events (g : ref) (len : nat) : list event :=
  flat_map (fun k => [AccelReset g k; Integrated g k]) (seq 0 len).






(** *** The statements of the specification that the code does not meet *)


(** "The skip path produces the particle state of the variant that runs
    the interaction with [f = 0]". *)
Definition skip_matches_noskip (env : Env) (gs : list ref) (dt : float) (h : heap)
  : Prop :=
  forall g, items (step env gs dt h g) = items (step_noskip env gs dt h g).

(** "At least the radius and below the cutoff: the force [f / distance];
    at least the cutoff: nothing". *)
Definition kernel_branches_as_specified (a b : Particle)
  (f maxDistance particleRadius : float) : Prop :=
  ((particleRadius <=? distance a b) = true ->
   (distance a b <? maxDistance) = true ->
   interactParticle a b f maxDistance particleRadius =
     set_acc a (ax a - (f / distance a b) * delta_x a b)
               (ay a - (f / distance a b) * delta_y a b)) /\
  ((maxDistance <=? distance a b) = true ->
   interactParticle a b f maxDistance particleRadius = a).

(** The number [u] is not of the sign opposite to [v]: it is zero, of the
    sign of [v], or no number. *)
Definition not_opposite (u v : float) : Prop :=
  ((0 <=? v) = true -> (u <? 0) = false) /\
  ((v <=? 0) = true -> (0 <? u) = false).

(** "Positive [f] pulls [a] toward [b], negative [f] pushes away": the
    coefficient [f / distance] of the vector [(dx, dy)] that is taken from
    the acceleration of [a] is positive for a positive [f] and negative for
    a negative one. *)
Definition kernel_pull_as_specified (a b : Particle) (f : float) : Prop :=
  ((0 <? f) = true -> (0 <? f / distance a b) = true) /\
  ((f <? 0) = true -> (f / distance a b <? 0) = true).

(** The length of the vector by which the kernel has changed the
    acceleration of [a] into that of [q]. *)
Definition added_magnitude (a q : Particle) : float :=
  pow_half (pow2 (ax q - ax a) + pow2 (ay q - ay a)).

(** "Below the radius the kernel adds a vector of magnitude
    [6 / distance]". *)
Definition hard_core_magnitude_as_specified (a b : Particle)
  (f maxDistance particleRadius : float) : Prop :=
  (distance a b <? particleRadius) = true ->
  added_magnitude a (interactParticle a b f maxDistance particleRadius)
  = 6 / distance a b.

(** "The alignment is preserved by [addGroup], when the tables of the added
    group have the length of the new registry, and by [removeGroup]". *)
Definition addGroup_keeps_alignment (env : Env) (group : ref) (w : World) : Prop :=
  aligned w ->
  length (forces (objs w group)) = S (length (groups w)) ->
  length (ranges (objs w group)) = S (length (groups w)) ->
  aligned (world_of (addGroup env group w)).

Definition removeGroup_keeps_alignment (group : ref) (w : World) : Prop :=
  aligned w -> aligned (removeGroup group w).

(** "[computationsPerFrame] equals the sum of the products": the number
    that the getter returns is that integer. *)
Definition computationsPerFrame_as_specified (w : World) : Prop :=
  integer_value (computationsPerFrame w) = Some (Z.of_nat (sum_of_pair_products w)).

(** "At [x = r] nothing happens, below [r] the particle is put on [r],
    above [width - r] on [width - r], each time with the velocity negated;
    the same for [y]; the speed never changes". *)
Definition boundary_as_specified (p : Particle) (r width height : float) : Prop :=
  let q := constraint p r width height in
  (x p = r -> (0 <=? vx p) = true -> x q = x p /\ vx q = vx p) /\
  ((x p <? r) = true -> x q = r /\ vx q = - vx p) /\
  ((width - r <? x p) = true -> x q = width - r /\ vx q = - vx p) /\
  (y p = r -> (0 <=? vy p) = true -> y q = y p /\ vy q = vy p) /\
  ((y p <? r) = true -> y q = r /\ vy q = - vy p) /\
  ((height - r <? y p) = true -> y q = height - r /\ vy q = - vy p) /\
  abs (vx q) = abs (vx p) /\ abs (vy q) = abs (vy p).

(** ** Example data *)

Definition plain_group (fs rs : list float) (radius : float) : Group :=
  mkGroup [] 0 fs rs radius true.

Definition no_group : Group := mkGroup [] 0 [] [] 0 false.

(** A canvas and a window of 800 by 600, no dampening. *)
Definition env0 : Env := mkEnv 800 600 800 600 1 (fun _ => 0.5%float).

(** A world of 100 by 100, no dampening. *)
Definition env_box : Env := mkEnv 100 100 100 100 1 (fun _ => 0.5%float).

(** Two registered groups (objects 0 and 1) and two candidates: object 2,
    whose range for group 1 is below its radius, and object 3, whose only
    range below its radius is the one for itself. *)
Definition two_groups_store : heap :=
  fun g => match g with
           | 0%nat => plain_group [1; 1] [50; 50] 5
           | 1%nat => plain_group [1; 1] [50; 50] 5
           | 2%nat => plain_group [1; 1; 1] [50; 1; 50] 5
           | 3%nat => plain_group [0.5; 0.5; 0.5] [50; 50; 2] 5
           | _ => no_group
           end.

Definition two_groups : World := mkWorld two_groups_store [0; 1]%nat.

Definition three_groups_store : heap :=
  fun g => match g with
           | 0%nat => plain_group [1; 2; 3] [10; 20; 30] 5
           | 1%nat => plain_group [4; 5; 6] [40; 50; 60] 5
           | 2%nat => plain_group [7; 8; 9] [70; 80; 90] 5
           | _ => no_group
           end.

Definition three_groups : World := mkWorld three_groups_store [0; 1; 2]%nat.

(** One group that does not interact with itself, one moving particle. *)
Definition drifting_store : heap :=
  fun g => match g with
           | O => mkGroup [mkParticle 10 10 1 0 0 0] 1 [0] [50] 5 true
           | _ => no_group
           end.

(** Two groups of one particle, every force entry [1]. *)
Definition pair_store : heap :=
  fun g => match g with
           | O => mkGroup [mkParticle 10 10 0 0 0 0] 1 [1; 1] [50; 50] 5 true
           | S O => mkGroup [mkParticle 20 10 0 0 0 0] 1 [1; 1] [50; 50] 5 true
           | _ => no_group
           end.

Definition kernel_a : Particle := mkParticle 0 0 0 0 1 2.
Definition kernel_b : Particle := mkParticle 3 4 0 0 0 0.
Definition kernel_far : Particle := mkParticle 15 0 0 0 0 0.
Definition kernel_mid : Particle := mkParticle 30 40 0 0 0 0.

(** A particle at rest at the origin, and the smallest positive number. *)
Definition kernel_o : Particle := mkParticle 0 0 0 0 0 0.
Definition tiny_force : float := 0x1p-1074.

(** A particle between the two walls of a world narrower than two radii. *)
Definition narrow_p : Particle := mkParticle 4 50 1 0 0 0.

(** Three registered groups and a candidate (object 3) with tables of
    length 5; and the registry after the group 1 has been added a second
    time: the groups are [0; 1; 2; 1], and every table has length 4. *)
Definition four_store : heap :=
  fun g => match g with
           | 0%nat => plain_group [1; 2; 3] [10; 20; 30] 5
           | 1%nat => plain_group [4; 5; 6] [40; 50; 60] 5
           | 2%nat => plain_group [7; 8; 9] [70; 80; 90] 5
           | 3%nat => plain_group [1; 1; 1; 1; 1] [50; 50; 50; 50; 50] 5
           | _ => no_group
           end.

Definition repeated_groups : World :=
  world_of (addGroup env0 1%nat (mkWorld four_store [0; 1; 2]%nat)).

(** One running group of [n] particles that interacts with itself. *)
Definition crowd (n : nat) : World :=
  mkWorld (fun _ => mkGroup (repeat kernel_o n) (of_len n) [1] [50] 5 true) [O].

(** One group object with the given [count] and particles. *)
Definition counted (c : float) (its : list Particle) : World :=
  mkWorld (fun _ => mkGroup its c [] [] 5 true) [O].

(** The number of particles of that group after [updateParticleCount], or
    the exception. *)
Definition reconciled (c : float) (its : list Particle) : nat + error :=
  match updateParticleCount env0 O (counted c its) with
  | Return _ w => inl (length (items (objs w O)))
  | Throw e _ => inr e
  end.

(** A particle on the left margin [x = 5]. *)
Definition wall_p : Particle := mkParticle 5 50 1 0 0 0.

(** * More of the program

    The remaining methods of [ParticleGroup] that act on the registry
    ([pause], [clear], [random]) and the operations of the application
    component that edit a group ([addParticles], [increaseRadius],
    [increaseRange], [increaseAttitude], [addDefaultGroup]).  The calls of
    [updateImages] and [saveState] that end these operations draw the images
    and write the state to the history of the browser; they read the groups
    and change none of them, and are left out. *)

(** ** pause, clear and the default group *)

Definition set_running (h : heap) (g : ref) (b : bool) : heap :=
  upd h g (mkGroup (items (h g)) (count (h g)) (forces (h g)) (ranges (h g))
                   (particleRadius (h g)) b).

(** [pause()].  The flag [this.isRunning] of the instance is passed in and
    returned next to the world. *)
Definition pause (running : bool) (w : World) : bool * World :=
  let running' := negb running in
  (running',
   mkWorld (fold_left (fun h g => set_running h g running') (groups w) (objs w))
           (groups w)).

(** [clear()]. *)
Definition clear (w : World) : World :=
  mkWorld (fold_left (fun h g => set_items h g []) (groups w) (objs w)) [].

(** [addDefaultGroup()] of the application.  [fresh] is the identity of the
    object that the object literal creates, [running] the flag
    [this.particleGroup.isRunning]. *)
Definition addDefaultGroup (env : Env) (running : bool) (fresh : ref) (w : World)
  : outcome ref :=
  let n := length (groups w) in
  let attitudes := repeat 0 n ++ [-1] in
  let defaultRadius := 25 in
  let defaultSize := 25 in
  let ranges := repeat defaultRadius n ++ [defaultRadius] in
  let group := mkGroup [] (canvas_width env * canvas_height env / defaultSize / 400)
                       attitudes ranges defaultSize running in
  addGroup env fresh (mkWorld (upd (objs w) fresh group) (groups w)).

(** ** The tuning operations of the application *)

(** A number that counts as true in a condition: any number but the two
    zeros and [NaN]. *)
Definition truthy (v : float) : bool := negb (is_zero v || is_nan v).

Definition set_radius (h : heap) (g : ref) (r : float) : heap :=
  upd h g (mkGroup (items (h g)) (count (h g)) (forces (h g)) (ranges (h g))
                   r (isRunning (h g))).

(** [arr[i] = v] for an array of numbers.  Past the end the array grows, and
    the slots between the old end and [i] are holes: a hole reads as
    [undefined], which every use of these arrays in the modelled code treats
    as [NaN]. *)
Definition store_at (arr : list float) (i : nat) (v : float) : list float :=
  if (i <? length arr)%nat then firstn i arr ++ v :: skipn (S i) arr
  else arr ++ repeat nan (i - length arr) ++ [v].

(** [increaseRadius(group, step)] of the application.  [find] yields the
    first range that is not above the new radius, and the condition tests
    that number for truth. *)
Definition increaseRadius (group : ref) (step : float) (h : heap) : heap :=
  let newRadius := particleRadius (h group) - step in
  if (newRadius <? 1) ||
     match find (fun range => range <=? newRadius) (ranges (h group)) with
     | Some range => truthy range
     | None => false
     end
  then h
  else set_radius h group newRadius.

(** [increaseRange(group, i, step)] of the application. *)
Definition increaseRange (group : ref) (i : nat) (step : float) (h : heap) : heap :=
  let newValue := num_at (ranges (h group)) i - step in
  if newValue <? particleRadius (h group) then h
  else set_tables h group (forces (h group)) (store_at (ranges (h group)) i newValue).

(** [increaseAttitude(group, i, step)] of the application. *)
Definition increaseAttitude (group : ref) (i : nat) (step : float) (h : heap) : heap :=
  set_tables h group (store_at (forces (h group)) i (num_at (forces (h group)) i - step))
             (ranges (h group)).

(** ** addParticles *)

(** The number that is the integer [z] (for [z] of at most 53 binary
    digits). *)
Definition of_int (z : Z) : float :=
  if (z <? 0)%Z then - of_len (Z.to_nat (- z)) else of_len (Z.to_nat z).

(** [Math.round(v)]: the integer closest to [v], the larger one in a tie;
    [-0] for [-0.5 <= v < 0]; [v] itself when it is an integer already, a
    zero, an infinity or [NaN]. *)
Definition Math_round (v : float) : float :=
  match Prim2SF v with
  | S754_finite s m e =>
      if (0 <=? e)%Z then v
      else
        let z := ((cond_Zopp s (Z.pos m) * 2 + 2 ^ (- e)) / 2 ^ (1 - e))%Z in
        if (z =? 0)%Z then (if s then neg_zero else 0) else of_int z
  | _ => v
  end.

Definition set_count (h : heap) (g : ref) (c : float) : heap :=
  upd h g (mkGroup (items (h g)) c (forces (h g)) (ranges (h g))
                   (particleRadius (h g)) (isRunning (h g))).

(** [addParticles(group, step)] of the application. *)
Definition addParticles (env : Env) (group : ref) (step : float) (w : World)
  : outcome unit :=
  let c := count (objs w group) - Math_round step in
  updateParticleCount env group (mkWorld (set_count (objs w) group c) (groups w)).

(** ** random *)

(** [RandomSettings].  The callbacks are closures over a generator of
    random numbers and over the instance: each one reads the world, takes
    the state [Rng] of the generator and returns the new one.  (The callbacks
    of the application read [this.particleGroup.groups] and write nothing but
    the generator.) *)
Record RandomSettings (Rng : Type) : Type := mkRandomSettings {
  particlesCount : float;
  getGroupsCount : World -> Rng -> float * Rng;
  groupParticlesCount : float -> World -> Rng -> float * Rng;
  getSize : World -> Rng -> float * Rng;
  getRanges : float -> World -> Rng -> list float * Rng;
  getForces : World -> Rng -> list float * Rng
}.
Arguments particlesCount {Rng} _.
Arguments getGroupsCount {Rng} _ _ _.
Arguments groupParticlesCount {Rng} _ _ _ _.
Arguments getSize {Rng} _ _ _.
Arguments getRanges {Rng} _ _ _ _.
Arguments getForces {Rng} _ _ _.

(** Number of iterations of [for (let i = 0; i < groupCount; i++)], one
    [addGroup] each; [None] when the loop does not end before [this.groups]
    has reached the largest length of an array. *)
Definition loop_count (groupCount : float) : option nat :=
  if 0 <? groupCount then
    match loop_bound groupCount with
    | Some k => if (k <=? MAX_ARRAY_LENGTH)%Z then Some (Z.to_nat k) else None
    | None => None
    end
  else Some O.

(** The loop of [random], with [k] iterations to go at index [i].  The
    iteration calls [getSize] first, then the callbacks of the properties of
    the object literal in their order: [count], [forces], [ranges].
    [fresh i] is the identity of the object that the iteration [i] creates
    and [env_at i] what its call of [addGroup] finds around it. *)
Fixpoint random_loop {Rng : Type} (params : RandomSettings Rng) (env_at : nat -> Env)
  (running : bool) (fresh : nat -> ref) (maxParticlesCount : float)
  (k i : nat) (s : Rng) (w : World) : outcome Rng :=
  match k with
  | O => Return s w
  | S k' =>
      let '(size, s1) := getSize params w s in
      let '(cnt, s2) := groupParticlesCount params maxParticlesCount w s1 in
      let '(fs, s3) := getForces params w s2 in
      let '(rs, s4) := getRanges params size w s3 in
      let group := mkGroup [] cnt fs rs size running in
      match addGroup (env_at i) (fresh i)
                     (mkWorld (upd (objs w) (fresh i) group) (groups w)) with
      | Throw e w' => Throw e w'
      | Return _ w' =>
          random_loop params env_at running fresh maxParticlesCount k' (S i) s4 w'
      end
  end.

(** [random(params)].  (The name [random] is taken by the numbers of
    [Math.random] in [Env].) *)
Definition random_groups {Rng : Type} (params : RandomSettings Rng) (env_at : nat -> Env)
  (running : bool) (fresh : nat -> ref) (s : Rng) (w : World) : option (outcome Rng) :=
  let w0 := clear w in
  let '(n, s1) := getGroupsCount params w0 s in
  let groupCount := Math_round n in
  let maxParticlesCount := Math_round (particlesCount params / groupCount) in
  match loop_count groupCount with
  | Some k => Some (random_loop params env_at running fresh maxParticlesCount k 0 s1 w0)
  | None => None
  end.

(** ** Counting the calls of the force kernel

    The loops of [interactGroup] and of [step] once more, with a counter of
    the calls of [interactParticle] next to the state: the counter goes up
    by one in the inner loop of [interactGroup], where the kernel is
    called. *)
Definition sweep_particle_counted (group1 group2 : ref) (f maxDistance dt width height
                                   dampening : float) (sc : sim * nat) (i : nat)
  : sim * nat :=
  let (h, log) := fst sc in
  match nth_error (items (h group1)) i with
  | None => sc
  | Some a =>
      let h1 := set_item h group1 i (set_acc a 0 0) in
      let ac := fold_left
                  (fun ac b => (interactParticle (fst ac) b f maxDistance
                                  (particleRadius (h1 group1)),
                                S (snd ac)))
                  (items (h1 group2)) (set_acc a 0 0, snd sc) in
      let a2 := integrate (fst ac) dt dampening in
      let a3 := constraint a2 (particleRadius (h1 group1)) width height in
      ((set_item h1 group1 i a3, log ++ [AccelReset group1 i; Integrated group1 i]),
       snd ac)
  end.

Definition interactGroup_counted (group1 group2 : ref) (f maxDistance dt width height
                                  dampening : float) (sc : sim * nat) : sim * nat :=
  let len1 := length (items (fst (fst sc) group1)) in
  fold_left (sweep_particle_counted group1 group2 f maxDistance dt width height dampening)
            (seq 0 len1) sc.

Definition step_row_counted (env : Env) (groups : list ref) (dt : float) (i : nat)
  (sc : sim * nat) : sim * nat :=
  fold_left (fun sc j =>
    let gi := nth i groups O in
    if num_at (forces (fst (fst sc) gi)) j =? 0 then sc
    else interactGroup_counted gi (nth j groups O)
           (num_at (forces (fst (fst sc) gi)) j) (num_at (ranges (fst (fst sc) gi)) j)
           dt (innerWidth env) (innerHeight env) (dampening env) sc)
    (seq 0 (length groups)) sc.

Definition step_counted (env : Env) (groups : list ref) (dt : float)
  (sc : sim * nat) : sim * nat :=
  fold_left (fun sc i =>
    if negb (isRunning (fst (fst sc) (nth i groups O))) then sc
    else step_row_counted env groups dt i sc)
    (seq 0 (length groups)) sc.

(** The number of calls of [interactParticle] in one [step(groups, dt)]. *)
Definition step_kernel_calls (env : Env) (groups : list ref) (dt : float) (h : heap)
  : nat :=
  snd (step_counted env groups dt ((h, []), O)).

(** ** More properties *)

(** Two numbers that denote the same value: the same number, or two
    numbers that compare equal (the two zeros). *)
Definition same_number (u v : float) : Prop := u = v \/ (u =? v) = true.

(** The particle is beyond none of the four walls of [constraint]. *)
Definition in_box (p : Particle) (r width height : float) : Prop :=
  (x p <? r) = false /\ (width - r <? x p) = false /\
  (y p <? r) = false /\ (height - r <? y p) = false.

(** A number or [+infinity] above zero, or no number. *)
Definition positive_or_nan (v : spec_float) : Prop :=
  match v with
  | S754_nan => True
  | S754_infinity false => True
  | S754_finite false _ _ => True
  | _ => False
  end.

(** Every particle of the group object [g] is within the walls that
    [interactGroup] passes to [constraint] for it. *)
Definition group_in_box (env : Env) (h : heap) (g : ref) : Prop :=
  Forall (fun p => in_box p (particleRadius (h g)) (innerWidth env) (innerHeight env))
         (items (h g)).

(** The group object [g] is the target of some group interaction of a step:
    it is registered and running and one of its force entries, at an index
    of the registry, is not [0]. *)
Definition swept (h : heap) (gs : list ref) (g : ref) : Prop :=
  In g gs /\ isRunning (h g) = true /\
  exists j, j < length gs /\ (num_at (forces (h g)) j =? 0) = false.

(** No range of the group is below its radius: the test of [addGroup], on
    every entry. *)
Definition ranges_valid (v : Group) : Prop :=
  Forall (fun r => (r <? particleRadius v) = false) (ranges v).

(** The number [v] is the integer [z], held exactly: integers of at most
    53 binary digits have one representation in binary64, with a mantissa
    of 53 digits. *)
Definition int_float (v : spec_float) (z : Z) : Prop :=
  match z with
  | Z0 => v = S754_zero false
  | Z.pos q =>
      exists m, v = S754_finite false m (Z.pos (digits2_pos q) - 53) /\
                Z.pos m = (Z.pos q * 2 ^ (53 - Z.pos (digits2_pos q)))%Z /\
                (Z.pos (digits2_pos q) <= 53)%Z
  | Z.neg q =>
      exists m, v = S754_finite true m (Z.pos (digits2_pos q) - 53) /\
                Z.pos m = (Z.pos q * 2 ^ (53 - Z.pos (digits2_pos q)))%Z /\
                (Z.pos (digits2_pos q) <= 53)%Z
  end.

(** ** More example data *)

(** A group on which [increaseRadius] meets the zero range first. *)
Definition zero_range_group : Group := mkGroup [] 0 [1; 1] [0; 30] 0 true.

(** Settings without randomness: three groups of radius 5, every range
    equal to the radius asked for. *)
Definition fixed_settings : RandomSettings unit :=
  mkRandomSettings unit 600
    (fun _ s => (3, s))
    (fun max _ s => (max, s))
    (fun _ s => (5, s))
    (fun min w s => (repeat min (S (length (groups w))), s))
    (fun w s => (repeat 0.5 (S (length (groups w))), s)).

(** * The model on concrete inputs *)

Example of_len_3 : of_len 3 = 3.
Proof. reflexivity. Qed.

Example loop_bound_fraction : loop_bound 2.5 = Some 3%Z.
Proof. reflexivity. Qed.

(** A count above the length appends particles (a fractional count one
    more than its integer part), a count below it truncates, and a count
    that is not a valid length (negative or fractional) below the length
    throws. *)
Example updateParticleCount_grows :
  reconciled 3 [] = inl 3%nat /\ reconciled 2.5 [] = inl 3%nat.
Proof. split; reflexivity. Qed.

Example updateParticleCount_truncates :
  reconciled 1 [kernel_a; kernel_b; kernel_far] = inl 1%nat.
Proof. reflexivity. Qed.

Example updateParticleCount_throws :
  reconciled (-1) [] = inr InvalidArrayLength /\
  reconciled 1.5 [kernel_a; kernel_b; kernel_far] = inr InvalidArrayLength.
Proof. split; reflexivity. Qed.

(** * Facts about binary64 arithmetic

    Proved from the specification of the primitive operations
    ([FloatAxioms]) by case analysis on the decoded number. *)

Lemma xorb_negb_l (a b : bool) : xorb (negb a) b = negb (xorb a b).
Proof. now destruct a, b. Qed.

Lemma binary_round_aux_opp (s : bool) (m e : Z) (l : location) :
  binary_round_aux prec emax (negb s) m e l
  = SFopp (binary_round_aux prec emax s m e l).
Proof.
  unfold binary_round_aux.
  destruct (shr_fexp prec emax m e l) as [mrs' e'].
  destruct (shr_fexp prec emax _ e' loc_Exact) as [mrs'' e''].
  destruct (shr_m mrs''); cbn; try reflexivity.
  destruct (Z.leb e'' _); reflexivity.
Qed.

Lemma SFsub_opp_r (u v : spec_float) : SF64sub u (SFopp v) = SF64add u v.
Proof.
  destruct u as [su|su| |su mu eu], v as [sv|sv| |sv mv ev]; cbn; try reflexivity;
    try (destruct su, sv; reflexivity); try (now rewrite negb_involutive).
Qed.

Lemma SFmul_opp_l (u v : spec_float) : SF64mul (SFopp u) v = SFopp (SF64mul u v).
Proof.
  destruct u as [su|su| |su mu eu], v as [sv|sv| |sv mv ev]; cbn -[binary_round_aux];
    try reflexivity; try (now rewrite xorb_negb_l).
  rewrite xorb_negb_l. apply binary_round_aux_opp.
Qed.

Lemma SFdiv_opp_l (u v : spec_float) : SF64div (SFopp u) v = SFopp (SF64div u v).
Proof.
  destruct u as [su|su| |su mu eu], v as [sv|sv| |sv mv ev];
    cbn -[binary_round_aux SFdiv_core_binary];
    try reflexivity; try (now rewrite xorb_negb_l).
  destruct (SFdiv_core_binary _ _ _ _ _ _) as [[mz ez] lz].
  rewrite xorb_negb_l. apply binary_round_aux_opp.
Qed.

Lemma sub_opp_r (u v : float) : u - (- v) = u + v.
Proof.
  apply Prim2SF_inj. rewrite sub_spec, add_spec, opp_spec. apply SFsub_opp_r.
Qed.

Lemma mul_opp_l (u v : float) : (- u) * v = - (u * v).
Proof.
  apply Prim2SF_inj. rewrite mul_spec, !opp_spec, mul_spec. apply SFmul_opp_l.
Qed.

Lemma div_opp_l (u v : float) : (- u) / v = - (u / v).
Proof.
  apply Prim2SF_inj. rewrite div_spec, !opp_spec, div_spec. apply SFdiv_opp_l.
Qed.

Lemma abs_opp (v : float) : abs (- v) = abs v.
Proof.
  apply Prim2SF_inj. rewrite !abs_spec, opp_spec. now destruct (Prim2SF v).
Qed.

(** Multiplying a finite number by [-1 = - 2^52 * 2^-52] shifts the
    mantissa by 52 bits and back: nothing is rounded. *)
Lemma SFmul_neg1 (s : bool) (m : positive) (e : Z) :
  bounded prec emax m e = true ->
  SF64mul (S754_finite s m e) (S754_finite true 4503599627370496 (-52))
  = S754_finite (negb s) m e.
Proof.
  intros Hb. unfold bounded in Hb. apply andb_prop in Hb. destruct Hb as [Hc He].
  unfold canonical_mantissa in Hc. apply Z.eqb_eq in Hc.
  unfold SF64mul, SFmul.
  rewrite Pos.mul_comm.
  change (4503599627370496 * m)%positive with (Pos.iter xO m 52).
  assert (Hd : Zdigits2 (Z.pos (Pos.iter xO m 52)) = (Z.pos (digits2_pos m) + 52)%Z).
  { cbn. lia. }
  assert (H1 : shr_fexp prec emax (Z.pos (Pos.iter xO m 52)) (e + -52) loc_Exact
               = ({| shr_m := Z.pos m; shr_r := false; shr_s := false |}, e)).
  { unfold shr_fexp. rewrite Hd.
    replace (Z.pos (digits2_pos m) + 52 + (e + -52))%Z
      with (Z.pos (digits2_pos m) + e)%Z by lia.
    rewrite Hc. replace (e - (e + -52))%Z with 52%Z by lia.
    unfold shr. replace (e + -52 + 52)%Z with e by lia. reflexivity. }
  assert (H2 : shr_fexp prec emax (Z.pos m) e loc_Exact
               = ({| shr_m := Z.pos m; shr_r := false; shr_s := false |}, e)).
  { unfold shr_fexp. cbn [Zdigits2]. rewrite Hc, Z.sub_diag. reflexivity. }
  unfold binary_round_aux. rewrite H1.
  cbn [shr_m loc_of_shr_record round_nearest_even].
  rewrite H2. cbn [shr_m]. rewrite He. now rewrite xorb_true_r.
Qed.

Lemma mul_neg1 (v : float) : v * (-1) = - v.
Proof.
  apply Prim2SF_inj. rewrite mul_spec, opp_spec.
  change (Prim2SF (-1)) with (S754_finite true 4503599627370496 (-52)).
  pose proof (Prim2SF_valid v) as Hv.
  destruct (Prim2SF v) as [s|s| |s m e]; try (now destruct s); try reflexivity.
  now apply SFmul_neg1.
Qed.

Lemma nan_ltb (v : float) : (nan <? v) = false.
Proof. rewrite ltb_spec. reflexivity. Qed.

(** The order of the comparisons. *)

Lemma SFcompare_refl (u : spec_float) :
  SFcompare u u = None \/ SFcompare u u = Some Eq.
Proof.
  destruct u as [s|s| |s m e]; cbn; auto.
  - right. destruct s; reflexivity.
  - right. rewrite Z.compare_refl, Pos.compare_cont_refl. now destruct s.
Qed.

Lemma SFcompare_antisym (u v : spec_float) :
  SFcompare v u = opp_cmp (SFcompare u v).
Proof.
  destruct u as [s|s| |s m e], v as [s'|s'| |s' m' e']; cbn; try reflexivity;
    try (now destruct s); try (now destruct s'); try (now destruct s, s').
  f_equal. rewrite (Z.compare_antisym e e').
  pose proof (Pos.compare_cont_antisym m m' Eq) as Hm. cbn in Hm.
  destruct s, s'; cbn; try reflexivity;
    destruct (e ?= e')%Z; cbn; try reflexivity;
    rewrite <- Hm, ?CompOpp_involutive; reflexivity.
Qed.

Ltac by_order :=
  first [ lia | congruence
        | split; [discriminate | intros; discriminate]
        | split; [discriminate | auto]
        | split; [congruence | intros; congruence] ].

Lemma SFcompare_chain (u v w : spec_float) (c1 c2 : comparison) :
  SFcompare u v = Some c1 -> SFcompare v w = Some c2 ->
  c1 <> Gt -> c2 <> Gt ->
  exists c3, SFcompare u w = Some c3 /\ c3 <> Gt /\ (c3 = Eq -> c1 = Eq /\ c2 = Eq).
Proof.
  destruct u as [s1|s1| |s1 m1 e1], v as [s2|s2| |s2 m2 e2], w as [s3|s3| |s3 m3 e3];
    cbn; intros H1 H2 N1 N2; try discriminate;
    try (destruct s1); try (destruct s2); try (destruct s3);
    injection H1 as <-; injection H2 as <-; try congruence;
    try (eexists; split; [reflexivity|by_order]).
  all: change (Pos.compare_cont Eq) with Pos.compare in *.
  all: eexists; split; [reflexivity|].
  all: destruct (Z.compare_spec e1 e2), (Z.compare_spec e2 e3), (Z.compare_spec e1 e3);
    cbn in *; try by_order.
  all: subst.
  all: destruct (Pos.compare_spec m1 m2), (Pos.compare_spec m2 m3),
         (Pos.compare_spec m1 m3); cbn in *; by_order.
Qed.

Lemma ltb_irrefl (v : float) : (v <? v) = false.
Proof.
  rewrite ltb_spec. unfold SFltb.
  now destruct (SFcompare_refl (Prim2SF v)) as [-> | ->].
Qed.

Lemma leb_not_ltb (u v : float) : (u <=? v) = true -> (v <? u) = false.
Proof.
  rewrite leb_spec, ltb_spec. unfold SFleb, SFltb.
  rewrite (SFcompare_antisym (Prim2SF u) (Prim2SF v)).
  destruct (SFcompare (Prim2SF u) (Prim2SF v)) as [[]|]; cbn; congruence.
Qed.

Lemma ltb_leb (u v : float) : (u <? v) = true -> (u <=? v) = true.
Proof.
  rewrite leb_spec, ltb_spec. unfold SFleb, SFltb.
  destruct (SFcompare (Prim2SF u) (Prim2SF v)) as [[]|]; congruence.
Qed.

Lemma leb_leb_not_ltb (u v w : float) :
  (u <=? v) = true -> (v <=? w) = true -> (w <? u) = false.
Proof.
  rewrite !leb_spec, ltb_spec. unfold SFleb, SFltb. intros H1 H2.
  destruct (SFcompare (Prim2SF u) (Prim2SF v)) as [c1|] eqn:E1; [|discriminate].
  destruct (SFcompare (Prim2SF v) (Prim2SF w)) as [c2|] eqn:E2; [|discriminate].
  destruct (SFcompare_chain _ _ _ c1 c2 E1 E2) as (c3 & E3 & N3 & _).
  - now destruct c1.
  - now destruct c2.
  - rewrite (SFcompare_antisym (Prim2SF u) (Prim2SF w)), E3.
    now destruct c3.
Qed.

(** ** Rounding keeps the sign, and does not round a division by a number
    of the format down to zero *)

Section Rounding.

Local Open Scope Z_scope.

Lemma binary_round_aux_signed (s : bool) (m e : Z) (l : location) :
  signed_as s (binary_round_aux prec emax s m e l).
Proof.
  unfold binary_round_aux.
  destruct (shr_fexp prec emax m e l) as [mrs' e'].
  destruct (shr_fexp prec emax _ e' loc_Exact) as [mrs'' e''].
  destruct (shr_m mrs''); cbn; auto.
  destruct (Z.leb e'' _); reflexivity.
Qed.

Lemma digits2_pos_bounds (m : positive) :
  2 ^ (Z.pos (digits2_pos m) - 1) <= Z.pos m < 2 ^ Z.pos (digits2_pos m).
Proof.
  induction m as [m IH|m IH|]; cbn [digits2_pos]; [| |cbn; lia];
    rewrite Pos2Z.inj_succ, Z.pow_succ_r by lia;
    replace (Z.succ (Z.pos (digits2_pos m)) - 1)
      with (Z.succ (Z.pos (digits2_pos m) - 1)) by lia;
    rewrite Z.pow_succ_r by lia; lia.
Qed.

Lemma shr_1_m (r : shr_record) :
  0 <= shr_m r -> shr_m (shr_1 r) = shr_m r / 2.
Proof.
  destruct r as [m rb sb]. cbn [shr_m]. intros Hm. unfold shr_1.
  destruct m as [|[p|p|]|p]; cbn [shr_m]; try reflexivity; try lia.
  - apply (Z.div_unique (Z.pos p~1) 2 (Z.pos p) 1); lia.
  - apply (Z.div_unique (Z.pos p~0) 2 (Z.pos p) 0); lia.
Qed.

Lemma pow2_xO (n : positive) : 2 ^ Z.pos n~0 = 2 ^ Z.pos n * 2 ^ Z.pos n.
Proof. rewrite <- Z.pow_add_r by lia. f_equal. lia. Qed.

Lemma pow2_xI (n : positive) : 2 ^ Z.pos n~1 = 2 * (2 ^ Z.pos n * 2 ^ Z.pos n).
Proof.
  rewrite <- Z.pow_add_r by lia. rewrite <- Z.pow_succ_r by lia. f_equal. lia.
Qed.

Lemma iter_shr_1_m (n : positive) :
  forall r : shr_record,
    0 <= shr_m r ->
    shr_m (SpecFloat.iter_pos shr_1 n r) = shr_m r / 2 ^ Z.pos n.
Proof.
  assert (Hp : forall k : positive, 0 < 2 ^ Z.pos k) by (intros; apply Z.pow_pos_nonneg; lia).
  induction n as [n IH|n IH|]; intros r Hr; cbn [SpecFloat.iter_pos].
  - assert (H1 : 0 <= shr_m (shr_1 r)) by (rewrite shr_1_m by assumption; apply Z.div_pos; lia).
    assert (H2 : 0 <= shr_m (SpecFloat.iter_pos shr_1 n (shr_1 r)))
      by (rewrite IH by assumption; apply Z.div_pos; [assumption|apply Hp]).
    rewrite IH by assumption. rewrite IH by assumption. rewrite shr_1_m by assumption.
    pose proof (Hp n).
    rewrite !Z.div_div by lia. now rewrite pow2_xI.
  - assert (H2 : 0 <= shr_m (SpecFloat.iter_pos shr_1 n r))
      by (rewrite IH by assumption; apply Z.div_pos; [assumption|apply Hp]).
    rewrite IH by assumption. rewrite IH by assumption.
    pose proof (Hp n).
    rewrite !Z.div_div by lia. now rewrite pow2_xO.
  - rewrite shr_1_m by assumption. reflexivity.
Qed.

Lemma shr_record_of_loc_m (m : Z) (l : location) : shr_m (shr_record_of_loc m l) = m.
Proof. destruct l as [|[]]; reflexivity. Qed.

Lemma shr_fexp_pos (m e : Z) (l : location) :
  1 <= m -> -1074 <= e ->
  1 <= shr_m (fst (shr_fexp prec emax m e l)) /\
  -1074 <= snd (shr_fexp prec emax m e l).
Proof.
  intros Hm He. unfold shr_fexp, shr.
  destruct m as [|p|p]; try lia. cbn [Zdigits2].
  pose proof (digits2_pos_bounds p) as [Hlo _].
  unfold fexp, SpecFloat.emin, prec, emax.
  destruct (Z.max (Z.pos (digits2_pos p) + e - 53) (3 - 1024 - 53) - e) as [|k|k] eqn:En;
    cbn [fst snd]; rewrite ?shr_record_of_loc_m; try lia.
  split; [|lia].
  rewrite iter_shr_1_m by (rewrite shr_record_of_loc_m; lia).
  rewrite shr_record_of_loc_m.
  apply Z.div_le_lower_bound; [apply Z.pow_pos_nonneg; lia|].
  rewrite Z.mul_1_r. etransitivity; [|exact Hlo].
  apply Z.pow_le_mono_r; lia.
Qed.

Lemma round_nearest_even_ge (m : Z) (l : location) :
  0 <= m -> m <= round_nearest_even m l.
Proof.
  intros Hm. unfold round_nearest_even.
  destruct l as [|[]]; try lia. destruct (Z.even m); lia.
Qed.

Lemma binary_round_aux_positive (m e : Z) (l : location) :
  1 <= m -> -1074 <= e ->
  is_positive (binary_round_aux prec emax false m e l).
Proof.
  intros Hm He. unfold binary_round_aux.
  destruct (shr_fexp_pos m e l Hm He) as [H1 H2].
  destruct (shr_fexp prec emax m e l) as [mrs' e']. cbn [fst snd] in H1, H2.
  pose proof (round_nearest_even_ge (shr_m mrs') (loc_of_shr_record mrs')) as Hr.
  destruct (shr_fexp_pos (round_nearest_even (shr_m mrs') (loc_of_shr_record mrs'))
              e' loc_Exact) as [H3 _]; [lia|lia|].
  destruct (shr_fexp prec emax _ e' loc_Exact) as [mrs'' e'']. cbn [fst] in H3.
  destruct (shr_m mrs''); try lia.
  destruct (Z.leb e'' _); exact I.
Qed.

Lemma div_core_positive (m1 m2 : positive) (e1 e2 : Z) :
  -1074 <= e1 - e2 ->
  Z.pos (digits2_pos m2) + e2 <= e1 + 1074 ->
  1 <= fst (fst (SFdiv_core_binary prec emax (Z.pos m1) e1 (Z.pos m2) e2)) /\
  -1074 <= snd (fst (SFdiv_core_binary prec emax (Z.pos m1) e1 (Z.pos m2) e2)).
Proof.
  intros He Hd. unfold SFdiv_core_binary. cbn [Zdigits2].
  pose proof (digits2_pos_bounds m1) as [Hlo1 _].
  pose proof (digits2_pos_bounds m2) as [_ Hhi2].
  set (d1 := Z.pos (digits2_pos m1)) in *. set (d2 := Z.pos (digits2_pos m2)) in *.
  assert (Hd1 : 1 <= d1) by (unfold d1; lia).
  unfold fexp, SpecFloat.emin, prec, emax.
  set (e' := Z.min (Z.max (d1 + e1 - (d2 + e2) - 53) (3 - 1024 - 53)) (e1 - e2)).
  assert (He' : -1074 <= e') by (unfold e'; lia).
  assert (Hs : d2 <= d1 - 1 + (e1 - e2 - e') /\ 0 <= e1 - e2 - e') by (unfold e'; lia).
  set (s := e1 - e2 - e') in *.
  assert (Hm' : match s with
                | Z.pos _ => Z.shiftl (Z.pos m1) s
                | 0 => Z.pos m1
                | Z.neg _ => 0
                end = Z.pos m1 * 2 ^ s).
  { destruct s as [|k|k] eqn:Es.
    - rewrite Z.pow_0_r. lia.
    - apply Z.shiftl_mul_pow2. lia.
    - lia. }
  rewrite Hm'.
  assert (Hge : Z.pos m2 <= Z.pos m1 * 2 ^ s).
  { assert (2 ^ d2 <= 2 ^ (d1 - 1) * 2 ^ s).
    { rewrite <- Z.pow_add_r by lia. apply Z.pow_le_mono_r; lia. }
    assert (0 < 2 ^ s) by (apply Z.pow_pos_nonneg; lia).
    nia. }
  pose proof (Z.div_str_pos (Z.pos m1 * 2 ^ s) (Z.pos m2)) as Hq.
  unfold Z.div in Hq.
  destruct (Z.div_eucl (Z.pos m1 * 2 ^ s) (Z.pos m2)) as [q r]. cbn [fst snd] in *.
  split; lia.
Qed.

Lemma SFsqrt_signed (v : spec_float) : not_negative (SF64sqrt v).
Proof.
  destruct v as [s|[]| |[] m e]; cbn; auto.
  destruct (SFsqrt_core_binary prec emax (Z.pos m) e) as [[mz ez] lz].
  pose proof (binary_round_aux_signed false mz ez lz) as H.
  destruct (binary_round_aux prec emax false mz ez lz); cbn in *; auto.
Qed.

Lemma binary_normalize_pos_signed (p : positive) (e : Z) :
  signed_as false (binary_normalize prec emax (Z.pos p) e false).
Proof.
  unfold binary_normalize, binary_round.
  destruct (shl_align p e _) as [mz ez]. apply binary_round_aux_signed.
Qed.

Lemma SFadd_positive_signed (u : spec_float) (m : positive) (e : Z) :
  not_negative u ->
  signed_as false (SF64add u (S754_finite false m e)).
Proof.
  destruct u as [s|s| |s mu eu]; intros Hu; cbn in Hu; subst;
    try reflexivity; try exact I.
  unfold SF64add, SFadd. cbn [cond_Zopp].
  apply (binary_normalize_pos_signed
           (fst (shl_align mu eu (Z.min eu e)) + fst (shl_align m e (Z.min eu e)))).
Qed.

Lemma shr_fexp_nonneg (m e : Z) (l : location) :
  0 <= m -> 0 <= shr_m (fst (shr_fexp prec emax m e l)).
Proof.
  intros Hm. unfold shr_fexp, shr.
  destruct (fexp prec emax (Zdigits2 m + e) - e) as [|k|k];
    cbn [fst]; rewrite ?shr_record_of_loc_m; try assumption.
  rewrite iter_shr_1_m by (rewrite shr_record_of_loc_m; assumption).
  rewrite shr_record_of_loc_m. apply Z.div_pos; [assumption|].
  apply Z.pow_pos_nonneg; lia.
Qed.

(** Rounding a mantissa that is not negative yields a zero, a number or an
    infinity of the given sign. *)
Lemma binary_round_aux_cases (s : bool) (m e : Z) (l : location) :
  0 <= m ->
  match binary_round_aux prec emax s m e l with
  | S754_zero s' => s' = s
  | S754_infinity s' => s' = s
  | S754_finite s' _ _ => s' = s
  | S754_nan => False
  end.
Proof.
  intros Hm. unfold binary_round_aux.
  pose proof (shr_fexp_nonneg m e l Hm) as H1.
  destruct (shr_fexp prec emax m e l) as [mrs' e']. cbn [fst] in H1.
  pose proof (round_nearest_even_ge (shr_m mrs') (loc_of_shr_record mrs') H1) as Hr.
  pose proof (shr_fexp_nonneg (round_nearest_even (shr_m mrs') (loc_of_shr_record mrs'))
                e' loc_Exact) as H2.
  destruct (shr_fexp prec emax _ e' loc_Exact) as [mrs'' e'']. cbn [fst] in H2.
  destruct (shr_m mrs''); try reflexivity.
  - destruct (Z.leb e'' _); reflexivity.
  - lia.
Qed.

Lemma div_core_nonneg (m1 m2 : positive) (e1 e2 : Z) :
  0 <= fst (fst (SFdiv_core_binary prec emax (Z.pos m1) e1 (Z.pos m2) e2)).
Proof.
  unfold SFdiv_core_binary.
  set (e' := Z.min _ _). set (s := e1 - e2 - e').
  assert (Hm : 0 <= match s with
                    | Z.pos _ => Z.shiftl (Z.pos m1) s
                    | 0 => Z.pos m1
                    | Z.neg _ => 0
                    end).
  { destruct s as [|k|k]; try lia. rewrite Z.shiftl_mul_pow2 by lia.
    apply Z.mul_nonneg_nonneg; [lia|]. apply Z.pow_nonneg. lia. }
  revert Hm. generalize (match s with
                         | Z.pos _ => Z.shiftl (Z.pos m1) s
                         | 0 => Z.pos m1
                         | Z.neg _ => 0
                         end). intros M HM.
  pose proof (Z_div_mod M (Z.pos m2) ltac:(lia)) as Hdm.
  destruct (Z.div_eucl M (Z.pos m2)) as [q r]. cbn [fst].
  destruct Hdm as [Hq Hr]. nia.
Qed.

(** The quotient of a number by a positive number or a zero of positive
    sign has the sign of the dividend, when it is a number at all. *)
Lemma SFdiv_cases (s : bool) (m : positive) (e : Z) (v : spec_float) :
  match v with
  | S754_zero false | S754_finite false _ _ => True
  | _ => False
  end ->
  match SF64div (S754_finite s m e) v with
  | S754_zero s' => s' = s
  | S754_infinity s' => s' = s
  | S754_finite s' _ _ => s' = s
  | S754_nan => False
  end.
Proof.
  destruct v as [[]|sv| |[] mv ev]; intros Hv; try contradiction.
  - cbn. now rewrite xorb_false_r.
  - unfold SF64div, SFdiv.
    pose proof (div_core_nonneg m mv e ev) as Hq.
    destruct (SFdiv_core_binary prec emax (Z.pos m) e (Z.pos mv) ev) as [[mz ez] lz].
    cbn [fst] in Hq. rewrite xorb_false_r. now apply binary_round_aux_cases.
Qed.

Lemma round_nearest_even_le (m : Z) (l : location) :
  round_nearest_even m l <= m + 1.
Proof.
  unfold round_nearest_even.
  destruct l as [|[]]; try lia. destruct (Z.even m); lia.
Qed.

Lemma Zdigits2_le_64 (m : Z) : 0 <= m <= 2 ^ 63 -> Zdigits2 m <= 64.
Proof.
  intros [Hlo Hhi]. destruct m as [|p|p]; cbn [Zdigits2]; try lia.
  pose proof (digits2_pos_bounds p) as [Dlo _].
  destruct (Z.le_gt_cases (Z.pos (digits2_pos p)) 64) as [H|H]; [exact H|].
  assert (2 ^ 64 <= 2 ^ (Z.pos (digits2_pos p) - 1)) by (apply Z.pow_le_mono_r; lia).
  assert (2 ^ 63 < 2 ^ 64) by reflexivity. lia.
Qed.

Lemma shr_fexp_small (m e : Z) (l : location) :
  0 <= m <= 2 ^ 63 -> -1074 <= e ->
  shr_m (fst (shr_fexp prec emax m e l)) <= m /\
  snd (shr_fexp prec emax m e l) <= e + 11.
Proof.
  intros Hm He. pose proof (Zdigits2_le_64 m Hm) as Hd.
  unfold shr_fexp, shr. unfold fexp, SpecFloat.emin, prec, emax.
  destruct (Z.max (Zdigits2 m + e - 53) (3 - 1024 - 53) - e) as [|k|k] eqn:En;
    cbn [fst snd]; rewrite ?shr_record_of_loc_m; try lia.
  split; [|lia].
  rewrite iter_shr_1_m by (rewrite shr_record_of_loc_m; lia).
  rewrite shr_record_of_loc_m.
  assert (0 < 2 ^ Z.pos k) by (apply Z.pow_pos_nonneg; lia).
  apply Z.div_le_upper_bound; [assumption|]. nia.
Qed.

(** Rounding a number below 2^63 yields a number. *)
Lemma binary_round_aux_finite (s : bool) (m e : Z) (l : location) :
  1 <= m < 2 ^ 63 -> -1074 <= e <= 0 ->
  exists m' e', binary_round_aux prec emax s m e l = S754_finite s m' e'.
Proof.
  intros Hm He. unfold binary_round_aux.
  destruct (shr_fexp_pos m e l) as [H1 H2]; [lia|lia|].
  destruct (shr_fexp_small m e l) as [H3 H4]; [lia|lia|].
  destruct (shr_fexp prec emax m e l) as [mrs' e']. cbn [fst snd] in *.
  pose proof (round_nearest_even_ge (shr_m mrs') (loc_of_shr_record mrs')) as Hr.
  pose proof (round_nearest_even_le (shr_m mrs') (loc_of_shr_record mrs')) as Hr'.
  set (m2 := round_nearest_even (shr_m mrs') (loc_of_shr_record mrs')) in *.
  destruct (shr_fexp_pos m2 e' loc_Exact) as [H5 _]; [lia|lia|].
  destruct (shr_fexp_small m2 e' loc_Exact) as [_ H6]; [lia|lia|].
  destruct (shr_fexp prec emax m2 e' loc_Exact) as [mrs'' e'']. cbn [fst snd] in *.
  destruct (shr_m mrs'') as [|p|p]; try lia.
  unfold prec, emax.
  replace (e'' <=? 1024 - 53) with true by (symmetry; apply Z.leb_le; lia).
  now exists p, e''.
Qed.

End Rounding.

Lemma distance_signed (a b : Particle) : signed_as false (Prim2SF (distance a b)).
Proof.
  unfold distance, pow_half. rewrite add_spec, sqrt_spec.
  change (Prim2SF EPSILON) with (S754_finite false 4503599627370496 (-104)).
  apply SFadd_positive_signed. apply SFsqrt_signed.
Qed.

Lemma SFltb_zero_positive (v : spec_float) :
  is_positive v -> SFltb (S754_zero false) v = true.
Proof. destruct v as [s|[]| |[] m e]; cbn; intros H; try contradiction; reflexivity. Qed.

(** Below any radius, the coefficient [6 / distance] of the hard-core
    repulsion is positive (possibly infinite). *)
Lemma repulsion_coefficient_positive (a b : Particle) (r : float) :
  (distance a b <? r) = true -> (0 <? 6 / distance a b) = true.
Proof.
  intros Hlt. rewrite ltb_spec in Hlt. rewrite ltb_spec, div_spec.
  change (Prim2SF 0) with (S754_zero false).
  change (Prim2SF 6) with (S754_finite false 6755399441055744 (-50)).
  pose proof (distance_signed a b) as Hs.
  pose proof (Prim2SF_valid (distance a b)) as Hv.
  apply SFltb_zero_positive.
  destruct (Prim2SF (distance a b)) as [s|s| |s m e]; cbn in Hs; subst.
  - exact I.
  - exfalso. unfold SFltb in Hlt. destruct (Prim2SF r) as [|[]| |]; discriminate.
  - discriminate.
  - cbn in Hv. unfold bounded, canonical_mantissa in Hv.
    apply andb_prop in Hv. destruct Hv as [Hc He].
    apply Z.eqb_eq in Hc. apply Z.leb_le in He.
    unfold fexp, SpecFloat.emin, prec, emax in Hc, He.
    unfold SF64div, SFdiv.
    destruct (div_core_positive 6755399441055744 m (-50) e) as [Hq He']; [lia|lia|].
    destruct (SFdiv_core_binary prec emax (Z.pos 6755399441055744) (-50) (Z.pos m) e)
      as [[mz ez] lz].
    cbn [fst snd xorb] in *. now apply binary_round_aux_positive.
Qed.

(** Below a cutoff, the distance is a number that is not negative. *)
Lemma distance_below (a b : Particle) (c : float) :
  (distance a b <? c) = true ->
  match Prim2SF (distance a b) with
  | S754_zero false | S754_finite false _ _ => True
  | _ => False
  end.
Proof.
  intros Hlt. rewrite ltb_spec in Hlt.
  pose proof (distance_signed a b) as Hs.
  destruct (Prim2SF (distance a b)) as [s|s| |s m e]; cbn in Hs; subst; try exact I.
  - unfold SFltb in Hlt. destruct (Prim2SF c) as [|[]| |]; discriminate.
  - discriminate.
Qed.

(** The coefficient [f / distance] of the force branch is never of the
    sign opposite to [f]: it is zero or positive for a positive [f], zero or
    negative for a negative one. *)
Lemma force_coefficient_sign (a b : Particle) (f c : float) :
  (distance a b <? c) = true ->
  ((0 <? f) = true -> (0 <=? f / distance a b) = true) /\
  ((f <? 0) = true -> (f / distance a b <=? 0) = true).
Proof.
  intros Hlt. pose proof (distance_below a b c Hlt) as Hd.
  rewrite !ltb_spec, !leb_spec, div_spec.
  change (Prim2SF 0) with (S754_zero false).
  destruct (Prim2SF f) as [sf|sf| |sf mf ef].
  - split; intros H; destruct sf; discriminate H.
  - destruct (Prim2SF (distance a b)) as [[]|sd| |[] md ed]; try contradiction;
      split; intros H; destruct sf; try discriminate H; reflexivity.
  - split; intros H; discriminate H.
  - pose proof (SFdiv_cases sf mf ef (Prim2SF (distance a b)) Hd) as Hq.
    destruct (SF64div (S754_finite sf mf ef) (Prim2SF (distance a b)))
      as [s'|s'| |s' m' e']; try contradiction; subst s';
      split; intros H; destruct sf; try discriminate H; reflexivity.
Qed.

(** A product is not of the sign opposite to the one its factors give. *)
Lemma SFmul_signed (u v : spec_float) (su sv : bool) :
  signed_as su u -> signed_as sv v -> signed_as (xorb su sv) (SF64mul u v).
Proof.
  destruct u as [s|s| |s m e], v as [s'|s'| |s' m' e']; cbn -[binary_round_aux];
    intros Hu Hv; subst; try reflexivity; try exact I.
  apply binary_round_aux_signed.
Qed.

Lemma signed_compare_zero (s : bool) (v : spec_float) :
  signed_as s v ->
  (s = false -> SFltb v (S754_zero false) = false) /\
  (s = true -> SFltb (S754_zero false) v = false).
Proof.
  destruct v as [s'|s'| |s' m e]; cbn; intros H; subst; split; intros ->; reflexivity.
Qed.

Lemma SFmul_not_opposite (u v : spec_float) :
  let Z := S754_zero false in
  (SFleb Z u = true ->
     (SFleb Z v = true -> SFltb (SF64mul u v) Z = false) /\
     (SFleb v Z = true -> SFltb Z (SF64mul u v) = false)) /\
  (SFleb u Z = true ->
     (SFleb v Z = true -> SFltb (SF64mul u v) Z = false) /\
     (SFleb Z v = true -> SFltb Z (SF64mul u v) = false)).
Proof.
  cbv zeta.
  destruct u as [[]|[]| |[] mu eu], v as [[]|[]| |[] mv ev].
  all: split; intros H; split; intros H'; cbn in H, H';
    try discriminate H; try discriminate H'; try reflexivity.
  all: match goal with
       | |- SFltb (SF64mul (S754_finite ?su ?mu ?eu) (S754_finite ?sv ?mv ?ev)) _ = false =>
           apply (signed_compare_zero (xorb su sv)); [|reflexivity];
           apply SFmul_signed; reflexivity
       | |- SFltb _ (SF64mul (S754_finite ?su ?mu ?eu) (S754_finite ?sv ?mv ?ev)) = false =>
           apply (signed_compare_zero (xorb su sv)); [|reflexivity];
           apply SFmul_signed; reflexivity
       end.
Qed.

Lemma mul_not_opposite (u v : float) :
  ((0 <=? u) = true -> not_opposite (u * v) v) /\
  ((u <=? 0) = true -> not_opposite (u * v) (- v)).
Proof.
  unfold not_opposite. rewrite !ltb_spec, !leb_spec, !mul_spec, opp_spec.
  change (Prim2SF 0) with (S754_zero false).
  destruct (SFmul_not_opposite (Prim2SF u) (Prim2SF v)) as [Hp Hn]. cbv zeta in Hp, Hn.
  assert (Hle : SFleb (S754_zero false) (SFopp (Prim2SF v))
                = SFleb (Prim2SF v) (S754_zero false)).
  { destruct (Prim2SF v) as [s|[]| |[] m e]; reflexivity. }
  assert (Hge : SFleb (SFopp (Prim2SF v)) (S754_zero false)
                = SFleb (S754_zero false) (Prim2SF v)).
  { destruct (Prim2SF v) as [s|[]| |[] m e]; reflexivity. }
  rewrite Hle, Hge. split; intros Hu.
  - exact (Hp Hu).
  - exact (Hn Hu).
Qed.

(** * The force kernel and the boundary constraint *)


(** The claim C6 as it is worded fails: the vector that the kernel adds is
    [(6 / distance) * (dx, dy)], whose length is [6 / distance] times the
    length of [(dx, dy)].  For a particle at rest at the origin and a
    particle at [(3, 4)], at distance 5, the added vector is longer than 5,
    while [6 / distance] is below 2; and for two particles at one position
    nothing is added at all. *)
Lemma hard_core_magnitude_counterexample :
  ~ hard_core_magnitude_as_specified kernel_o kernel_b 1 50 10 /\
  (distance kernel_o kernel_b <? 10) = true /\
  (5 <? added_magnitude kernel_o (interactParticle kernel_o kernel_b 1 50 10)) = true /\
  (6 / distance kernel_o kernel_b <? 2) = true /\
  (distance kernel_o kernel_o <? 10) = true /\
  interactParticle kernel_o kernel_o 1 50 10 = kernel_o.
Proof.
  split; [|repeat split; vm_compute; reflexivity].
  intros H. specialize (H eq_refl).
  apply (f_equal (fun v => v <? 2)) in H. vm_compute in H. discriminate H.
Qed.

(** C6, amended.  Hard-core repulsion: when the computed distance is below
    the particle radius, the kernel adds [(6 / distance) * (dx, dy)] to the
    acceleration of [a] and writes nothing else, where [(dx, dy) = a - b]
    points from [b] to [a]; the coefficient [6 / distance] is positive, so
    that no component of the added vector is of the sign opposite to that of
    [(dx, dy)]; the force coefficient [f] and the cutoff play no role. *)
Theorem hard_core_repulsion (a b : Particle) (f maxDistance particleRadius : float) :
  (distance a b <? particleRadius) = true ->
  let q := interactParticle a b f maxDistance particleRadius in
  ax q = ax a + (6 / distance a b) * delta_x a b /\
  ay q = ay a + (6 / distance a b) * delta_y a b /\
  x q = x a /\ y q = y a /\ vx q = vx a /\ vy q = vy a /\
  (0 <? 6 / distance a b) = true /\
  not_opposite ((6 / distance a b) * delta_x a b) (delta_x a b) /\
  not_opposite ((6 / distance a b) * delta_y a b) (delta_y a b) /\
  (forall f' maxDistance',
     interactParticle a b f' maxDistance' particleRadius = q).
Proof.
  intros Hd. cbv zeta. unfold interactParticle. rewrite Hd.
  cbn [set_acc ax ay x y vx vy].
  change (-6) with (PrimFloat.opp 6).
  rewrite div_opp_l, !mul_opp_l, !sub_opp_r.
  pose proof (repulsion_coefficient_positive a b particleRadius Hd) as Hpos.
  do 6 (split; [reflexivity|]). split; [exact Hpos|].
  split; [|split; [|reflexivity]];
    apply mul_not_opposite; now apply ltb_leb.
Qed.

Lemma hard_core_repulsion_witness :
  let q := interactParticle kernel_a kernel_b (-1) 50 10 in
  ax q = ax kernel_a + (6 / distance kernel_a kernel_b) * delta_x kernel_a kernel_b /\
  ay q = ay kernel_a + (6 / distance kernel_a kernel_b) * delta_y kernel_a kernel_b /\
  x q = x kernel_a /\ y q = y kernel_a /\ vx q = vx kernel_a /\ vy q = vy kernel_a /\
  (0 <? 6 / distance kernel_a kernel_b) = true /\
  not_opposite ((6 / distance kernel_a kernel_b) * delta_x kernel_a kernel_b)
               (delta_x kernel_a kernel_b) /\
  not_opposite ((6 / distance kernel_a kernel_b) * delta_y kernel_a kernel_b)
               (delta_y kernel_a kernel_b) /\
  (forall f' maxDistance', interactParticle kernel_a kernel_b f' maxDistance' 10 = q).
Proof.
  apply (hard_core_repulsion kernel_a kernel_b (-1) 50 10). reflexivity.
Defined.

(** The claim C7 as it is worded fails in two places.  When the cutoff is
    below the radius: at distance 15, with cutoff 10 and radius 25, the
    hard-core branch fires.  And a positive force need not pull: with the
    smallest positive number as [f], at distance 5, the coefficient
    [f / distance] is rounded to zero and the particle is left as it is. *)
Lemma kernel_branches_counterexample :
  ~ kernel_branches_as_specified kernel_a kernel_far 1 10 25 /\
  ~ kernel_pull_as_specified kernel_a kernel_b tiny_force /\
  (2 <=? distance kernel_a kernel_b) = true /\
  (distance kernel_a kernel_b <? 50) = true /\
  (0 <? tiny_force) = true /\
  interactParticle kernel_a kernel_b tiny_force 50 2 = kernel_a.
Proof.
  split; [|split; [|repeat split; vm_compute; reflexivity]].
  - intros [_ H]. specialize (H eq_refl).
    apply (f_equal (fun p => ax p <? 0)) in H. vm_compute in H. discriminate H.
  - intros [H _]. specialize (H eq_refl). vm_compute in H. discriminate H.
Qed.

(** C7, amended.  At a distance that is at least the radius and below the
    cutoff, the kernel subtracts [(f / distance) * (dx, dy)] from the
    acceleration of [a] and writes nothing else, where [(dx, dy) = a - b].
    The coefficient [f / distance] is zero or of the sign of [f].  For a
    positive [f] no component of the vector that is subtracted is of the
    sign opposite to that of [(dx, dy)]: [a] is pulled toward [b], if at
    all.  For a negative [f] no component of the vector that is subtracted
    is of the sign of [(dx, dy)]: [a] is pushed away from [b], if at all.
    At a distance that is at least the cutoff, [a] is left as it is provided
    the distance is not below the radius, which is the case whenever the
    cutoff is at least the radius. *)
Theorem kernel_force_branch (a b : Particle) (f maxDistance particleRadius : float) :
  let q := interactParticle a b f maxDistance particleRadius in
  let F := f / distance a b in
  ((particleRadius <=? distance a b) = true ->
   (distance a b <? maxDistance) = true ->
   ax q = ax a - F * delta_x a b /\
   ay q = ay a - F * delta_y a b /\
   x q = x a /\ y q = y a /\ vx q = vx a /\ vy q = vy a /\
   ((0 <? f) = true ->
      (0 <=? F) = true /\
      not_opposite (F * delta_x a b) (delta_x a b) /\
      not_opposite (F * delta_y a b) (delta_y a b)) /\
   ((f <? 0) = true ->
      (F <=? 0) = true /\
      not_opposite (F * delta_x a b) (- delta_x a b) /\
      not_opposite (F * delta_y a b) (- delta_y a b))) /\
  ((maxDistance <=? distance a b) = true ->
   (distance a b <? particleRadius) = false ->
   q = a) /\
  ((maxDistance <=? distance a b) = true ->
   (particleRadius <=? maxDistance) = true ->
   q = a).
Proof.
  cbv zeta. unfold interactParticle. split; [|split].
  - intros Hr Hm. rewrite (leb_not_ltb _ _ Hr), Hm.
    cbn [set_acc ax ay x y vx vy].
    destruct (force_coefficient_sign a b f maxDistance Hm) as [Hpos Hneg].
    do 6 (split; [reflexivity|]). split; intros Hf.
    + specialize (Hpos Hf). split; [exact Hpos|].
      split; apply mul_not_opposite; exact Hpos.
    + specialize (Hneg Hf). split; [exact Hneg|].
      split; apply mul_not_opposite; exact Hneg.
  - intros Hm Hr. now rewrite Hr, (leb_not_ltb _ _ Hm).
  - intros Hm Hr. now rewrite (leb_leb_not_ltb _ _ _ Hr Hm), (leb_not_ltb _ _ Hm).
Qed.

Lemma kernel_force_branch_witness :
  (ax (interactParticle kernel_a kernel_b 1 50 2)
   = ax kernel_a - (1 / distance kernel_a kernel_b) * delta_x kernel_a kernel_b /\
   (0 <=? 1 / distance kernel_a kernel_b) = true) /\
  interactParticle kernel_a kernel_mid 1 25 10 = kernel_a.
Proof.
  pose proof (kernel_force_branch kernel_a kernel_b 1 50 2) as H1.
  pose proof (kernel_force_branch kernel_a kernel_mid 1 25 10) as H2.
  cbv zeta in H1, H2. split.
  - destruct H1 as [H1 _].
    destruct (H1 eq_refl eq_refl) as (Hax & _ & _ & _ & _ & _ & Hpos & _).
    split; [exact Hax|]. apply Hpos. reflexivity.
  - destruct H2 as (_ & _ & H2). apply H2; reflexivity.
Defined.

Lemma constraint_x_frame (p : Particle) (r width : float) :
  let q := constraint_x p r width in
  y q = y p /\ vy q = vy p /\ ax q = ax p /\ ay q = ay p /\
  abs (vx q) = abs (vx p).
Proof.
  cbv zeta. unfold constraint_x.
  destruct (x p <? r); [|destruct (width - r <? x p)]; cbn;
    rewrite ?mul_neg1, ?abs_opp; auto.
Qed.

Lemma constraint_y_frame (p : Particle) (r height : float) :
  let q := constraint_y p r height in
  x q = x p /\ vx q = vx p /\ ax q = ax p /\ ay q = ay p /\
  abs (vy q) = abs (vy p).
Proof.
  cbv zeta. unfold constraint_y.
  destruct (y p <? r); [|destruct (height - r <? y p)]; cbn;
    rewrite ?mul_neg1, ?abs_opp; auto.
Qed.

Ltac by_cases_of_constraint :=
  repeat split; intros;
    repeat match goal with
           | H : (_ <? _) = _ |- _ => rewrite H; clear H
           end; cbn; rewrite ?mul_neg1; reflexivity.

(** The three cases of one axis, in the order of the code. *)
Lemma constraint_x_cases (p : Particle) (r width : float) :
  let q := constraint_x p r width in
  ((x p <? r) = true -> x q = r /\ vx q = - vx p) /\
  ((x p <? r) = false -> (width - r <? x p) = true ->
     x q = width - r /\ vx q = - vx p) /\
  ((x p <? r) = false -> (width - r <? x p) = false ->
     x q = x p /\ vx q = vx p).
Proof. cbv zeta. unfold constraint_x. by_cases_of_constraint. Qed.

Lemma constraint_y_cases (p : Particle) (r height : float) :
  let q := constraint_y p r height in
  ((y p <? r) = true -> y q = r /\ vy q = - vy p) /\
  ((y p <? r) = false -> (height - r <? y p) = true ->
     y q = height - r /\ vy q = - vy p) /\
  ((y p <? r) = false -> (height - r <? y p) = false ->
     y q = y p /\ vy q = vy p).
Proof. cbv zeta. unfold constraint_y. by_cases_of_constraint. Qed.

(** The claim C8 as it is worded fails in a world narrower than two
    radii, where the far wall [width - r] is before the near wall [r]: with
    [r = 5] and [width = 8], the particle at [x = 5] is moved to [x = 3], and
    the particle at [x = 4], which is beyond [width - r = 3], is put on
    [x = 5] and not on [x = 3]. *)
Lemma boundary_counterexample :
  ~ boundary_as_specified wall_p 5 8 100 /\
  ~ boundary_as_specified narrow_p 5 8 100 /\
  (x wall_p = 5 /\ (0 <=? vx wall_p) = true /\ x (constraint wall_p 5 8 100) = 3) /\
  ((8 - 5 <? x narrow_p) = true /\ 8 - 5 = 3 /\ x (constraint narrow_p 5 8 100) = 5).
Proof.
  split; [|split; [|repeat split; vm_compute; reflexivity]].
  - intros [H _]. specialize (H eq_refl eq_refl). destruct H as [H _].
    apply (f_equal (fun v => v <? 4)) in H. vm_compute in H. discriminate H.
  - intros (_ & _ & H & _). specialize (H eq_refl). destruct H as [H _].
    apply (f_equal (fun v => v <? 4)) in H. vm_compute in H. discriminate H.
Qed.

(** C8, amended.  A particle with [x < r] is put on [x = r] with [vx]
    negated.  A particle with [x > width - r] that is not below [r] is put on
    [x = width - r] with [vx] negated.  A particle at [x = r] keeps [x] and
    [vx] unless [width - r] is smaller than [r].  In a world at least two
    radii wide ([r <= width - r]) neither exception arises: [width - r] is not
    smaller than [r], and a particle beyond [width - r] is not below [r].  The
    same holds for [y] against [r] and [height - r].  The magnitudes of [vx]
    and [vy] never change and the acceleration is not touched. *)
Theorem constraint_walls (p : Particle) (r width height : float) :
  let q := constraint p r width height in
  ((x p <? r) = true -> x q = r /\ vx q = - vx p) /\
  ((x p <? r) = false -> (width - r <? x p) = true ->
     x q = width - r /\ vx q = - vx p) /\
  ((width - r <? r) = false -> x p = r -> x q = x p /\ vx q = vx p) /\
  ((r <=? width - r) = true ->
     (width - r <? r) = false /\
     ((width - r <? x p) = true -> (x p <? r) = false)) /\
  ((y p <? r) = true -> y q = r /\ vy q = - vy p) /\
  ((y p <? r) = false -> (height - r <? y p) = true ->
     y q = height - r /\ vy q = - vy p) /\
  ((height - r <? r) = false -> y p = r -> y q = y p /\ vy q = vy p) /\
  ((r <=? height - r) = true ->
     (height - r <? r) = false /\
     ((height - r <? y p) = true -> (y p <? r) = false)) /\
  abs (vx q) = abs (vx p) /\ abs (vy q) = abs (vy p) /\
  ax q = ax p /\ ay q = ay p.
Proof.
  cbv zeta. unfold constraint.
  destruct (constraint_x_frame p r width) as (Fy & Fvy & Fax & Fay & Fabs).
  destruct (constraint_y_frame (constraint_x p r width) r height)
    as (Gx & Gvx & Gax & Gay & Gabs).
  destruct (constraint_x_cases p r width) as (X1 & X2 & X3).
  destruct (constraint_y_cases (constraint_x p r width) r height) as (Y1 & Y2 & Y3).
  rewrite Fy, Fvy in Y1, Y2, Y3.
  rewrite Gx, Gvx, Gax, Gay, Gabs, Fabs, Fax, Fay, Fvy.
  split; [exact X1|]. split; [exact X2|]. split.
  { intros Hw Hx. apply X3; rewrite Hx; [apply ltb_irrefl | exact Hw]. }
  split.
  { intros Hw. split; [now apply leb_not_ltb|].
    intros Hx. exact (leb_leb_not_ltb _ _ _ Hw (ltb_leb _ _ Hx)). }
  split; [exact Y1|]. split; [exact Y2|]. split.
  { intros Hh Hy. apply Y3; rewrite Hy; [apply ltb_irrefl | exact Hh]. }
  split.
  { intros Hh. split; [now apply leb_not_ltb|].
    intros Hy. exact (leb_leb_not_ltb _ _ _ Hh (ltb_leb _ _ Hy)). }
  repeat split.
Qed.

Lemma constraint_walls_witness :
  x (constraint wall_p 5 100 100) = x wall_p /\
  vx (constraint wall_p 5 100 100) = vx wall_p /\
  x (constraint narrow_p 5 100 100) = 5 /\
  vx (constraint narrow_p 5 100 100) = - vx narrow_p.
Proof.
  pose proof (constraint_walls wall_p 5 100 100) as H1.
  pose proof (constraint_walls narrow_p 5 100 100) as H2.
  cbv zeta in H1, H2.
  destruct H1 as (_ & _ & H1 & _). destruct H2 as (H2 & _).
  destruct (H1 eq_refl eq_refl) as [Hx Hv]. destruct (H2 eq_refl) as [Hx' Hv'].
  repeat split; assumption.
Defined.

(** * The store *)

Lemma upd_same (h : heap) (g : ref) (v : Group) : upd h g v g = v.
Proof. unfold upd. now rewrite Nat.eqb_refl. Qed.

Lemma upd_other (h : heap) (g g' : ref) (v : Group) : g' <> g -> upd h g v g' = h g'.
Proof. intros H. unfold upd. apply Nat.eqb_neq in H. now rewrite H. Qed.

Lemma push_entry_same (h : heap) (g : ref) (f r : float) :
  push_entry h g f r g =
    mkGroup (items (h g)) (count (h g)) (forces (h g) ++ [f]) (ranges (h g) ++ [r])
            (particleRadius (h g)) (isRunning (h g)).
Proof. unfold push_entry, set_tables. apply upd_same. Qed.

Lemma push_entry_other (h : heap) (g g' : ref) (f r : float) :
  g' <> g -> push_entry h g f r g' = h g'.
Proof. intros H. unfold push_entry, set_tables. now apply upd_other. Qed.

Lemma push_entry_radius (h : heap) (g g' : ref) (f r : float) :
  particleRadius (push_entry h g f r g') = particleRadius (h g').
Proof.
  destruct (Nat.eq_dec g' g) as [->|Hne].
  - now rewrite push_entry_same.
  - now rewrite push_entry_other.
Qed.

Lemma push_entry_ranges (h : heap) (g g' : ref) (f r : float) :
  ranges (push_entry h g f r g') =
    if Nat.eqb g' g then ranges (h g') ++ [r] else ranges (h g').
Proof.
  destruct (Nat.eq_dec g' g) as [->|Hne].
  - now rewrite push_entry_same, Nat.eqb_refl.
  - rewrite push_entry_other by assumption. apply Nat.eqb_neq in Hne. now rewrite Hne.
Qed.

(** * The registry: addGroup

    The loop of [addGroup] never touches [this.groups], and it throws
    nothing but the validation error. *)
Lemma addGroup_loop_groups (group : ref) (todo : list ref) :
  forall (i : nat) (w : World),
    groups (world_of (addGroup_loop group todo i w)) = groups w.
Proof.
  induction todo as [|g rest IH]; intros i w; cbn; [reflexivity|].
  destruct (_ <? _); cbn; [reflexivity|]. now rewrite IH.
Qed.

Lemma addGroup_loop_throws (group : ref) (todo : list ref) :
  forall (i : nat) (w : World) (e : error) (w' : World),
    addGroup_loop group todo i w = Throw e w' ->
    validation_error (addGroup_loop group todo i w) = true.
Proof.
  induction todo as [|g rest IH]; intros i w e w'; cbn; [discriminate|].
  destruct (_ <? _); cbn; [reflexivity|]. apply IH.
Qed.

Lemma updateParticleCount_groups (env : Env) (g : ref) (w : World) :
  groups (world_of (updateParticleCount env g w)) = groups w.
Proof.
  unfold updateParticleCount.
  destruct (_ =? 0); [reflexivity|].
  destruct (_ <? 0).
  - destruct (to_array_length _); reflexivity.
  - destruct (0 <? _); [|reflexivity].
    destruct (loop_bound _) as [k|]; [|reflexivity].
    destruct (k <=? _)%Z; reflexivity.
Qed.

Lemma updateParticleCount_not_validation (env : Env) (g : ref) (w : World) :
  validation_error (updateParticleCount env g w) = false.
Proof.
  unfold updateParticleCount.
  destruct (_ =? 0); [reflexivity|].
  destruct (_ <? 0).
  - destruct (to_array_length _); reflexivity.
  - destruct (0 <? _); [|reflexivity].
    destruct (loop_bound _) as [k|]; [|reflexivity].
    destruct (k <=? _)%Z; reflexivity.
Qed.

(** [updateParticleCount] only writes the [items] of its group. *)
Lemma set_items_tables (h : heap) (g g' : ref) (its : list Particle) :
  forces (set_items h g its g') = forces (h g') /\
  ranges (set_items h g its g') = ranges (h g') /\
  particleRadius (set_items h g its g') = particleRadius (h g') /\
  isRunning (set_items h g its g') = isRunning (h g') /\
  count (set_items h g its g') = count (h g').
Proof.
  unfold set_items. destruct (Nat.eq_dec g' g) as [->|Hne].
  - rewrite upd_same. cbn. auto.
  - rewrite upd_other by assumption. auto.
Qed.

Lemma updateParticleCount_tables (env : Env) (g g' : ref) (w : World) :
  forces (objs (world_of (updateParticleCount env g w)) g') = forces (objs w g') /\
  ranges (objs (world_of (updateParticleCount env g w)) g') = ranges (objs w g').
Proof.
  unfold updateParticleCount.
  destruct (_ =? 0); [auto|].
  destruct (_ <? 0).
  - destruct (to_array_length _); cbn [world_of objs]; auto. split; apply set_items_tables.
  - destruct (0 <? _); [|auto].
    destruct (loop_bound _) as [k|]; [destruct (k <=? _)%Z|];
      cbn [world_of objs]; split; apply set_items_tables.
Qed.

Lemma addGroup_validation_loop (env : Env) (group : ref) (w : World) :
  validation_error (addGroup env group w)
  = validation_error (addGroup_loop group (groups w) 0 w).
Proof.
  unfold addGroup.
  destruct (addGroup_loop group (groups w) 0 w) as [u w1|e w1] eqn:E.
  - pose proof (updateParticleCount_not_validation env group
                  (mkWorld (objs w1) (groups w1 ++ [group]))) as H.
    destruct (updateParticleCount _ _ _); cbn in *; auto.
  - reflexivity.
Qed.

(** The validation of the loop, also when the candidate is one of the
    registered objects: the entries that the loop itself appends to the
    ranges of the candidate are copies of entries that passed the test. *)
Lemma addGroup_loop_validation (group : ref) (R0 : list float) (rad : float)
  (todo : list ref) :
  forall (i : nat) (w : World) (extra : list float),
    ranges (objs w group) = R0 ++ extra ->
    Forall (fun v => (v <? rad) = false) extra ->
    particleRadius (objs w group) = rad ->
    (validation_error (addGroup_loop group todo i w) = true <->
     exists k r, k < length todo /\ nth_error R0 (i + k) = Some r /\ (r <? rad) = true).
Proof.
  induction todo as [|g rest IH]; intros i w extra HR Hex Hrad.
  - cbn. split; [discriminate|]. intros (k & r & Hk & _). lia.
  - cbn [addGroup_loop]. rewrite Hrad, HR.
    assert (Hread : (num_at (R0 ++ extra) i <? rad) = true <->
                    exists r, nth_error R0 i = Some r /\ (r <? rad) = true).
    { unfold num_at. destruct (Nat.lt_ge_cases i (length R0)) as [Hlt|Hge].
      - rewrite app_nth1 by assumption.
        destruct (nth_error R0 i) as [r|] eqn:E.
        + rewrite (nth_error_nth _ _ _ E). split; [eauto|]. now intros (r' & [= <-] & H).
        + apply nth_error_None in E. lia.
      - rewrite app_nth2 by assumption.
        assert (Hno : nth_error R0 i = None) by now apply nth_error_None.
        rewrite Hno. split; [|now intros (r & [=] & _)].
        intros H. exfalso.
        destruct (Nat.lt_ge_cases (i - length R0) (length extra)) as [Hlt|Hge2].
        + rewrite Forall_forall in Hex.
          rewrite (Hex (nth (i - length R0) extra nan)) in H; [discriminate|].
          now apply nth_In.
        + rewrite nth_overflow in H by assumption. now rewrite nan_ltb in H. }
    destruct (num_at (R0 ++ extra) i <? rad) eqn:Hlt.
    + cbn. split; [intros _|reflexivity].
      destruct Hread as [Hread _]. destruct (Hread eq_refl) as (r & Hr & Hc).
      exists O, r. rewrite Nat.add_0_r. repeat split; auto. cbn. lia.
    + set (w1 := mkWorld _ _).
      assert (HR1 : exists extra', ranges (objs w1 group) = R0 ++ extra' /\
                                  Forall (fun v => (v <? rad) = false) extra').
      { unfold w1. cbn. rewrite push_entry_ranges.
        destruct (Nat.eqb group g).
        - exists (extra ++ [num_at (R0 ++ extra) i]). rewrite HR, app_assoc. split; [reflexivity|].
          apply Forall_app. split; [assumption|]. now constructor.
        - exists extra. now split. }
      destruct HR1 as (extra' & HR1 & Hex1).
      assert (Hrad1 : particleRadius (objs w1 group) = rad).
      { unfold w1. cbn. now rewrite push_entry_radius. }
      rewrite (IH (S i) w1 extra' HR1 Hex1 Hrad1).
      split.
      * intros (k & r & Hk & Hn & Hc). exists (S k), r.
        rewrite Nat.add_succ_r. repeat split; auto. cbn. lia.
      * intros (k & r & Hk & Hn & Hc). destruct k as [|k].
        -- rewrite Nat.add_0_r in Hn.
           assert (true = false) by (rewrite <- (proj2 Hread); eauto). discriminate.
        -- exists k, r. rewrite Nat.add_succ_r in Hn. repeat split; auto. cbn in Hk. lia.
Qed.

Lemma addGroup_unfold (env : Env) (group : ref) (w : World) :
  validation_error (addGroup env group w) = false ->
  exists w1, addGroup_loop group (groups w) 0 w = Return tt w1 /\
             world_of (addGroup env group w) =
             world_of (updateParticleCount env group
                         (mkWorld (objs w1) (groups w ++ [group]))).
Proof.
  intros Hv. rewrite addGroup_validation_loop in Hv.
  pose proof (addGroup_loop_groups group (groups w) 0 w) as Hg.
  unfold addGroup.
  destruct (addGroup_loop group (groups w) 0 w) as [[] w1|e w1] eqn:E.
  - exists w1. split; [reflexivity|]. cbn in Hg. rewrite Hg.
    now destruct (updateParticleCount _ _ _).
  - rewrite <- E in Hv. erewrite addGroup_loop_throws in Hv by exact E. discriminate.
Qed.

Lemma addGroup_accepted_groups (env : Env) (group : ref) (w : World) :
  validation_error (addGroup env group w) = false ->
  groups (world_of (addGroup env group w)) = groups w ++ [group].
Proof.
  intros Hv. destruct (addGroup_unfold env group w Hv) as (w1 & _ & ->).
  now rewrite updateParticleCount_groups.
Qed.

(** C4.  [addGroup] raises its validation error exactly when some entry
    of the candidate's ranges, at an index below the number of groups
    registered before the call, is smaller than the candidate's radius.  The
    entry at the index of the candidate itself is not looked at: when the
    entries below it pass and it is smaller than the radius, no validation
    error is raised and the candidate is appended to the registry. *)
Theorem addGroup_validation (env : Env) (group : ref) (w : World) :
  let cand := objs w group in
  (validation_error (addGroup env group w) = true <->
   exists i r, i < length (groups w) /\ nth_error (ranges cand) i = Some r /\
               (r <? particleRadius cand) = true) /\
  (forall r,
     (forall i v, i < length (groups w) -> nth_error (ranges cand) i = Some v ->
                  (v <? particleRadius cand) = false) ->
     nth_error (ranges cand) (length (groups w)) = Some r ->
     (r <? particleRadius cand) = true ->
     validation_error (addGroup env group w) = false /\
     groups (world_of (addGroup env group w)) = groups w ++ [group]).
Proof.
  cbv zeta.
  assert (Hiff : validation_error (addGroup env group w) = true <->
    exists i r, i < length (groups w) /\ nth_error (ranges (objs w group)) i = Some r /\
                (r <? particleRadius (objs w group)) = true).
  { rewrite addGroup_validation_loop.
    apply (addGroup_loop_validation group (ranges (objs w group))
             (particleRadius (objs w group)) (groups w) 0 w []);
      [now rewrite app_nil_r | constructor | reflexivity]. }
  split; [exact Hiff|].
  intros r Hall _ _.
  assert (Hv : validation_error (addGroup env group w) = false).
  { destruct (validation_error (addGroup env group w)); [|reflexivity].
    destruct (proj1 Hiff eq_refl) as (i & v & Hi & Hn & Hc).
    rewrite (Hall i v Hi Hn) in Hc. discriminate. }
  split; [exact Hv|]. now apply addGroup_accepted_groups.
Qed.

Lemma addGroup_validation_witness :
  validation_error (addGroup env0 3%nat two_groups) = false /\
  groups (world_of (addGroup env0 3%nat two_groups)) = groups two_groups ++ [3%nat].
Proof.
  apply (proj2 (addGroup_validation env0 3%nat two_groups) 2).
  - intros [|[|i]] v Hi Hv; cbn in Hi, Hv; try lia; injection Hv as <-; reflexivity.
  - reflexivity.
  - reflexivity.
Defined.

(** The candidate 3 of [two_groups]: its ranges for the two registered
    groups are 50, its range for itself is 2, below its radius 5; it is
    registered and the call returns. *)
Lemma addGroup_small_self_range :
  nth_error (ranges (objs two_groups 3%nat)) 2 = Some 2 /\
  (2 <? particleRadius (objs two_groups 3%nat)) = true /\
  addGroup env0 3%nat two_groups
    = Return 3%nat (world_of (addGroup env0 3%nat two_groups)) /\
  groups (world_of (addGroup env0 3%nat two_groups)) = [0; 1; 3]%nat.
Proof. repeat split. Qed.

(** The tables after the loop, when the candidate is not registered and no
    object is registered twice: the row at index [k] has received the
    entries [k] of the candidate, the other objects are as before. *)
Lemma addGroup_loop_tables (group : ref) (todo : list ref) :
  forall (i : nat) (w : World),
    ~ In group todo -> NoDup todo ->
    validation_error (addGroup_loop group todo i w) = false ->
    let w' := world_of (addGroup_loop group todo i w) in
    (forall g, ~ In g todo -> objs w' g = objs w g) /\
    (forall k g, nth_error todo k = Some g ->
       forces (objs w' g) = forces (objs w g) ++ [num_at (forces (objs w group)) (i + k)] /\
       ranges (objs w' g) = ranges (objs w g) ++ [num_at (ranges (objs w group)) (i + k)]).
Proof.
  induction todo as [|g0 rest IH]; intros i w Hnin Hnd Hv; cbv zeta.
  - cbn. split; [reflexivity|]. intros [|k] g; discriminate.
  - cbn [addGroup_loop] in *.
    destruct (_ <? _) eqn:Hlt; [discriminate|].
    set (w1 := mkWorld _ _) in *.
    assert (Hne : group <> g0) by (intros ->; apply Hnin; now left).
    assert (Hc : objs w1 group = objs w group).
    { unfold w1. cbn. now apply push_entry_other. }
    inversion Hnd as [|? ? Hg0 Hnd']; subst.
    destruct (IH (S i) w1 (fun H => Hnin (or_intror H)) Hnd' Hv) as [IH1 IH2].
    split.
    + intros g Hg. rewrite IH1 by (intros H; apply Hg; now right).
      unfold w1. cbn. apply push_entry_other. intros ->. apply Hg. now left.
    + intros [|k] g Hk; cbn in Hk.
      * injection Hk as <-. rewrite (IH1 g0 Hg0). unfold w1. cbn.
        rewrite push_entry_same, Nat.add_0_r. cbn. auto.
      * destruct (IH2 k g Hk) as [Hf Hr]. rewrite Hf, Hr, Hc.
        assert (Hgg : g <> g0).
        { intros ->. apply Hg0. eapply nth_error_In; eauto. }
        unfold w1. cbn. rewrite (push_entry_other _ _ _ _ _ Hgg).
        now rewrite Nat.add_succ_r.
Qed.

(** * The registry: removeGroup *)

Lemma splice_tables_same (i : option nat) (h : heap) (g : ref) :
  splice_tables i h g g =
    mkGroup (items (h g)) (count (h g)) (splice1 i (forces (h g)))
            (splice1 i (ranges (h g))) (particleRadius (h g)) (isRunning (h g)).
Proof. unfold splice_tables, set_tables. apply upd_same. Qed.

Lemma splice_tables_other (i : option nat) (h : heap) (g g' : ref) :
  g' <> g -> splice_tables i h g g' = h g'.
Proof. intros H. unfold splice_tables, set_tables. now apply upd_other. Qed.

Lemma fold_splice_tables (i : option nat) (l : list ref) :
  forall h : heap, NoDup l ->
    (forall g, ~ In g l -> fold_left (splice_tables i) l h g = h g) /\
    (forall g, In g l -> fold_left (splice_tables i) l h g = splice_tables i h g g).
Proof.
  induction l as [|g0 rest IH]; intros h Hnd.
  - cbn. split; [reflexivity|contradiction].
  - inversion Hnd as [|? ? Hg0 Hnd']; subst. cbn [fold_left].
    destruct (IH (splice_tables i h g0) Hnd') as [IH1 IH2]. split.
    + intros g Hg. rewrite IH1 by (intros H; apply Hg; now right).
      apply splice_tables_other. intros ->. apply Hg. now left.
    + intros g [<-|Hg].
      * now rewrite IH1.
      * rewrite (IH2 g Hg). assert (g <> g0) by (intros ->; contradiction).
        rewrite !splice_tables_same, !splice_tables_other by assumption. reflexivity.
Qed.

Lemma findIndex_Some (group : ref) (l : list ref) :
  forall i, findIndex group l = Some i -> nth_error l i = Some group /\ i < length l.
Proof.
  induction l as [|g rest IH]; intros i; cbn; [discriminate|].
  destruct (Nat.eqb g group) eqn:E.
  - intros [= <-]. apply Nat.eqb_eq in E. subst. cbn. split; [reflexivity|lia].
  - destruct (findIndex group rest) as [k|]; [|discriminate].
    intros [= <-]. destruct (IH k eq_refl). cbn. split; [assumption|lia].
Qed.

Lemma splice1_length {A : Type} (i : option nat) (l : list A) :
  (forall k, i = Some k -> k < length l) ->
  length (splice1 i l) = (length l - 1)%nat.
Proof.
  destruct i as [k|]; unfold splice1; intros H.
  - specialize (H k eq_refl). rewrite length_app, length_firstn, length_skipn. lia.
  - destruct l as [|a l]; [reflexivity|].
    rewrite (app_removelast_last a (l:=a :: l)) at 2 by discriminate.
    rewrite length_app. cbn [length]. lia.
Qed.

Lemma splice1_Some_cases {A : Type} (k : nat) (l : list A) :
  (exists a, l = firstn k l ++ a :: skipn (S k) l) \/ splice1 (Some k) l = l.
Proof.
  destruct (nth_error l k) as [a|] eqn:E.
  - left. exists a. symmetry. now apply firstn_skipn_middle.
  - right. apply nth_error_None in E. unfold splice1.
    rewrite firstn_all2, skipn_all2 by lia. apply app_nil_r.
Qed.

Lemma splice1_incl {A : Type} (i : option nat) (l : list A) (a : A) :
  In a (splice1 i l) -> In a l.
Proof.
  destruct i as [k|].
  - destruct (splice1_Some_cases k l) as [[b Hl]| ->]; [|auto].
    unfold splice1. intros H. rewrite Hl. apply in_app_iff in H.
    apply in_app_iff. destruct H; [now left|right; now right].
  - unfold splice1. destruct l as [|b l]; [contradiction|].
    intros H. rewrite (app_removelast_last b (l:=b :: l)) by discriminate.
    apply in_or_app. now left.
Qed.

Lemma splice1_NoDup {A : Type} (i : option nat) (l : list A) :
  NoDup l -> NoDup (splice1 i l).
Proof.
  intros Hnd. destruct i as [k|].
  - destruct (splice1_Some_cases k l) as [[b Hl]| ->]; [|assumption].
    unfold splice1. rewrite Hl in Hnd. eapply NoDup_remove_1; eauto.
  - unfold splice1. destruct l as [|b l]; [constructor|].
    rewrite (app_removelast_last b (l:=b :: l)) in Hnd by discriminate.
    apply NoDup_app_remove_r in Hnd. exact Hnd.
Qed.

(** * The registry: the claims *)

(** C1.  [addGroup] is not all-or-nothing.  With two registered groups and
    a candidate of radius 5 whose ranges are [50; 1; 50], the call throws
    `Particle too big, 1 < 5` at index 1, after it has appended the entries
    of index 0 to the tables of the first group: the registry still has two
    groups, the first one now has three force entries and three range
    entries, and the alignment that held before the call is lost. *)
Theorem addGroup_partial_update :
  let o := addGroup env0 2%nat two_groups in
  o = Throw (ParticleTooBig 1 5) (world_of o) /\
  groups (world_of o) = groups two_groups /\
  forces (objs two_groups 0%nat) = [1; 1] /\
  forces (objs (world_of o) 0%nat) = [1; 1; 1] /\
  ranges (objs two_groups 0%nat) = [50; 50] /\
  ranges (objs (world_of o) 0%nat) = [50; 50; 50] /\
  aligned two_groups /\
  ~ aligned (world_of o).
Proof.
  cbv zeta. do 6 (split; [reflexivity|]). split.
  - intros g [<-|[<-|[]]]; split; reflexivity.
  - intros H. destruct (H 0%nat) as [H1 _]; [now left|]. discriminate H1.
Qed.

Lemma set_items_other_fields (h : heap) (g g' : ref) (its : list Particle) :
  forces (set_items h g its g') = forces (h g') /\
  ranges (set_items h g its g') = ranges (h g').
Proof. split; apply set_items_tables. Qed.

Lemma removeGroup_tables (group : ref) (w : World) :
  NoDup (groups w) ->
  let i := findIndex group (groups w) in
  let w' := removeGroup group w in
  groups w' = splice1 i (groups w) /\
  forall g, In g (groups w') ->
    forces (objs w' g) = splice1 i (forces (objs w g)) /\
    ranges (objs w' g) = splice1 i (ranges (objs w g)).
Proof.
  intros Hnd. cbv zeta. unfold removeGroup. cbn [groups objs].
  split; [reflexivity|]. intros g Hg.
  destruct (fold_splice_tables (findIndex group (groups w))
              (splice1 (findIndex group (groups w)) (groups w))
              (set_items (objs w) group [])
              (splice1_NoDup _ _ Hnd)) as [_ H].
  rewrite (H g Hg), splice_tables_same. cbn [forces ranges].
  destruct (set_items_other_fields (objs w) group g []) as [-> ->]. auto.
Qed.

(** Splicing the index [i] out of an array: the entries before [i] stay,
    the entries after it move down by one. *)
Lemma nth_error_splice1 {A : Type} (i : nat) (l : list A) (k : nat) :
  i < length l ->
  nth_error (splice1 (Some i) l) k = nth_error l (if (k <? i)%nat then k else S k).
Proof.
  intros Hi. unfold splice1.
  destruct (Nat.ltb_spec k i) as [Hlt|Hge].
  - rewrite nth_error_app1 by (rewrite length_firstn; lia).
    rewrite nth_error_firstn. destruct (Nat.ltb_spec k i); [reflexivity|lia].
  - rewrite nth_error_app2 by (rewrite length_firstn; lia).
    rewrite length_firstn, nth_error_skipn. f_equal. lia.
Qed.

Lemma findIndex_In (group : ref) (l : list ref) :
  In group l -> exists i, findIndex group l = Some i.
Proof.
  induction l as [|g rest IH]; intros Hin; [contradiction|]. cbn.
  destruct (Nat.eqb_spec g group) as [->|Hne]; [now exists O|].
  destruct Hin as [->|Hin]; [contradiction|].
  destruct (IH Hin) as [i ->]. now exists (S i).
Qed.

Lemma findIndex_NoDup (group : ref) (l : list ref) (i : nat) :
  NoDup l -> nth_error l i = Some group -> findIndex group l = Some i.
Proof.
  intros Hnd Hi.
  destruct (findIndex_In group l (nth_error_In _ _ Hi)) as [j Hj].
  destruct (findIndex_Some group l j Hj) as [Hn Hlt].
  rewrite Hj. f_equal.
  apply (proj1 (NoDup_nth_error l) Hnd); [assumption|congruence].
Qed.

(** The claim C5 as it is worded fails in three places.  An [addGroup] that
    raises the validation error has already appended to the tables of the
    groups before the offending index: the registry of two aligned groups is
    not aligned after the rejected call, although the tables of the
    candidate have length 3.  And in a registry in which a group object
    occurs twice (as after [addGroup] of a registered group: the registry
    [0; 1; 2; 1], aligned), [removeGroup] splices the tables of that object
    twice, and [addGroup] of a candidate with tables of length 5, which
    raises no error, appends to them twice. *)
Lemma alignment_preserved_counterexample :
  ~ addGroup_keeps_alignment env0 2%nat two_groups /\
  (groups repeated_groups = [0; 1; 2; 1]%nat /\ aligned repeated_groups) /\
  ~ removeGroup_keeps_alignment 0%nat repeated_groups /\
  (validation_error (addGroup env0 3%nat repeated_groups) = false /\
   ~ addGroup_keeps_alignment env0 3%nat repeated_groups).
Proof.
  assert (Hal : aligned repeated_groups).
  { intros g [<-|[<-|[<-|[<-|[]]]]]; split; reflexivity. }
  split; [|split; [split; [reflexivity|exact Hal]|split; [|split; [reflexivity|]]]].
  - intros H. destruct (H ltac:(intros g [<-|[<-|[]]]; split; reflexivity)
                          eq_refl eq_refl 0%nat) as [H1 _]; [now left|].
    discriminate H1.
  - intros H. destruct (H Hal 1%nat) as [H1 _]; [now left|]. discriminate H1.
  - intros H. destruct (H Hal eq_refl eq_refl 1%nat) as [H1 _]; [right; now left|].
    discriminate H1.
Qed.

(** C5, amended.  In a registry in which no group object occurs twice and
    whose tables are aligned:

    - [addGroup] of a group whose tables have one entry per group of the new
      registry, when it raises no validation error, leaves such a registry;
      the group is appended, the tables of the group at index [k] receive
      the entries [k] of the added group at their end, and the tables of the
      added group are not changed;
    - [removeGroup] leaves such a registry; when the group is registered at
      index [i], the registry and the force and range tables of every
      remaining group lose the entry at index [i]: the entries before [i]
      stay where they are and the entries after [i] move down by one. *)
Theorem alignment_preserved (env : Env) (group : ref) (w : World) :
  registry_ok w ->
  (length (forces (objs w group)) = S (length (groups w)) ->
   length (ranges (objs w group)) = S (length (groups w)) ->
   validation_error (addGroup env group w) = false ->
   let w' := world_of (addGroup env group w) in
   registry_ok w' /\
   groups w' = groups w ++ [group] /\
   (forall k g, nth_error (groups w) k = Some g ->
      forces (objs w' g) = forces (objs w g) ++ [num_at (forces (objs w group)) k] /\
      ranges (objs w' g) = ranges (objs w g) ++ [num_at (ranges (objs w group)) k]) /\
   forces (objs w' group) = forces (objs w group) /\
   ranges (objs w' group) = ranges (objs w group)) /\
  (let w' := removeGroup group w in
   registry_ok w' /\
   forall i, nth_error (groups w) i = Some group ->
     length (groups w) = S (length (groups w')) /\
     (forall k, nth_error (groups w') k
                = nth_error (groups w) (if (k <? i)%nat then k else S k)) /\
     forall g, In g (groups w') ->
       (forall k, nth_error (forces (objs w' g)) k
                  = nth_error (forces (objs w g)) (if (k <? i)%nat then k else S k)) /\
       (forall k, nth_error (ranges (objs w' g)) k
                  = nth_error (ranges (objs w g)) (if (k <? i)%nat then k else S k))).
Proof.
  intros [Hnd Hal]. split.
  - intros Hf Hr Hv. cbv zeta.
    assert (Hnin : ~ In group (groups w)).
    { intros Hin. destruct (Hal group Hin) as [H _]. lia. }
    destruct (addGroup_unfold env group w Hv) as (w1 & Hloop & Hw).
    pose proof (addGroup_loop_tables group (groups w) 0 w Hnin Hnd) as Ht.
    rewrite <- (addGroup_validation_loop env) in Ht. specialize (Ht Hv).
    rewrite Hloop in Ht. cbn [world_of] in Ht. destruct Ht as [Ht1 Ht2].
    assert (Hrows : forall g,
              forces (objs (world_of (addGroup env group w)) g) = forces (objs w1 g) /\
              ranges (objs (world_of (addGroup env group w)) g) = ranges (objs w1 g)).
    { intros g. rewrite Hw.
      apply (updateParticleCount_tables env group g
               (mkWorld (objs w1) (groups w ++ [group]))). }
    assert (Hgs : groups (world_of (addGroup env group w)) = groups w ++ [group])
      by now apply addGroup_accepted_groups.
    split; [split|split; [exact Hgs|split]].
    + rewrite Hgs.
      apply NoDup_app; [assumption|repeat constructor; intros []|].
      intros a Ha [<-|[]]. contradiction.
    + intros g Hg. rewrite Hgs in *. destruct (Hrows g) as [-> ->].
      rewrite length_app. cbn [length].
      apply in_app_iff in Hg. destruct Hg as [Hg|[<-|[]]].
      * destruct (In_nth_error _ _ Hg) as [k Hk].
        destruct (Ht2 k g Hk) as [-> ->]. rewrite !length_app. cbn [length].
        destruct (Hal g Hg) as [-> ->]. lia.
      * rewrite (Ht1 group Hnin). lia.
    + intros k g Hk. destruct (Hrows g) as [-> ->]. exact (Ht2 k g Hk).
    + destruct (Hrows group) as [-> ->]. now rewrite (Ht1 group Hnin).
  - cbv zeta.
    destruct (removeGroup_tables group w Hnd) as [Hg Ht]. cbv zeta in *.
    assert (Hlen : length (groups (removeGroup group w)) = (length (groups w) - 1)%nat).
    { rewrite Hg. apply splice1_length. intros k Hk.
      now apply findIndex_Some in Hk. }
    split; [split|].
    + rewrite Hg. now apply splice1_NoDup.
    + intros g Hin. destruct (Ht g Hin) as [-> ->].
      assert (Hin' : In g (groups w)).
      { rewrite Hg in Hin. eapply splice1_incl; eauto. }
      destruct (Hal g Hin') as [Hf Hr]. rewrite Hlen.
      rewrite !splice1_length.
      * lia.
      * intros k Hk. rewrite Hr. now apply findIndex_Some in Hk.
      * intros k Hk. rewrite Hf. now apply findIndex_Some in Hk.
    + intros i Hi.
      assert (Hlt : i < length (groups w)) by (apply nth_error_Some; congruence).
      rewrite (findIndex_NoDup group (groups w) i Hnd Hi) in Hg, Ht.
      split; [lia|]. split.
      * intros k. rewrite Hg. now apply nth_error_splice1.
      * intros g Hin. destruct (Ht g Hin) as [-> ->].
        assert (Hin' : In g (groups w)).
        { rewrite Hg in Hin. eapply (splice1_incl (Some i)); eauto. }
        destruct (Hal g Hin') as [Hf Hr].
        split; intros k; apply nth_error_splice1; lia.
Qed.

Lemma alignment_preserved_witness :
  registry_ok (world_of (addGroup env0 3%nat two_groups)) /\
  registry_ok (removeGroup 1%nat three_groups) /\
  nth_error (groups (removeGroup 1%nat three_groups)) 1 = Some 2%nat /\
  nth_error (forces (objs (removeGroup 1%nat three_groups) 0%nat)) 1
  = nth_error (forces (objs three_groups 0%nat)) 2.
Proof.
  split.
  - destruct (alignment_preserved env0 3%nat two_groups) as [Hadd _].
    + split.
      * repeat constructor; cbn; intuition discriminate.
      * intros g [<-|[<-|[]]]; split; reflexivity.
    + destruct Hadd as [Hok _]; [reflexivity|reflexivity|reflexivity|exact Hok].
  - destruct (alignment_preserved env0 1%nat three_groups) as [_ Hrem].
    + split.
      * repeat constructor; cbn; intuition discriminate.
      * intros g [<-|[<-|[<-|[]]]]; split; reflexivity.
    + cbv zeta in Hrem. destruct Hrem as [Hok Hrem].
      destruct (Hrem 1%nat eq_refl) as (_ & Hgs & Hrows).
      split; [exact Hok|]. split.
      * exact (Hgs 1%nat).
      * destruct (Hrows 0%nat) as [Hf _]; [now left|]. exact (Hf 1%nat).
Defined.

(** C9.  Removing the group at index 1 of an aligned registry of three
    distinct groups leaves the registry of the groups formerly at indices 0
    and 2; each of them has force and range tables of length 2, whose entry
    at index 0 is the former entry at index 0 and whose entry at index 1 is
    the former entry at index 2. *)
Theorem remove_middle_of_three (w : World) (g0 g1 g2 : ref) :
  groups w = [g0; g1; g2] ->
  NoDup [g0; g1; g2] ->
  aligned w ->
  let w' := removeGroup g1 w in
  groups w' = [g0; g2] /\
  forall g, In g [g0; g2] ->
    length (forces (objs w' g)) = 2%nat /\
    length (ranges (objs w' g)) = 2%nat /\
    nth_error (forces (objs w' g)) 0 = nth_error (forces (objs w g)) 0 /\
    nth_error (forces (objs w' g)) 1 = nth_error (forces (objs w g)) 2 /\
    nth_error (ranges (objs w' g)) 0 = nth_error (ranges (objs w g)) 0 /\
    nth_error (ranges (objs w' g)) 1 = nth_error (ranges (objs w g)) 2.
Proof.
  intros Hgs Hnd Hal. cbv zeta.
  assert (Hnd' : NoDup (groups w)) by now rewrite Hgs.
  destruct (removeGroup_tables g1 w Hnd') as [Hg Ht]. cbv zeta in *.
  assert (Hi : findIndex g1 (groups w) = Some 1%nat).
  { rewrite Hgs. cbn. 
    assert (Hne : g0 <> g1).
    { inversion Hnd as [|? ? H0 _]; subst. intros ->. apply H0. now left. }
    apply Nat.eqb_neq in Hne. now rewrite Hne, Nat.eqb_refl. }
  rewrite Hi, Hgs in Hg. cbn [splice1 firstn skipn app] in Hg. split; [exact Hg|].
  intros g Hin. rewrite Hg in Ht. destruct (Ht g Hin) as [-> ->]. rewrite Hi.
  assert (Hin' : In g (groups w)).
  { rewrite Hgs. destruct Hin as [<-|[<-|[]]]; cbn; auto. }
  destruct (Hal g Hin') as [Hf Hr]. rewrite Hgs in Hf, Hr. cbn in Hf, Hr.
  destruct (forces (objs w g)) as [|f0 [|f1 [|f2 [|]]]]; try discriminate.
  destruct (ranges (objs w g)) as [|r0 [|r1 [|r2 [|]]]]; try discriminate.
  cbn. auto 10.
Qed.

Lemma remove_middle_of_three_witness :
  let w' := removeGroup 1%nat three_groups in
  groups w' = [0; 2]%nat /\
  forall g, In g [0; 2]%nat ->
    length (forces (objs w' g)) = 2%nat /\
    length (ranges (objs w' g)) = 2%nat /\
    nth_error (forces (objs w' g)) 0 = nth_error (forces (objs three_groups g)) 0 /\
    nth_error (forces (objs w' g)) 1 = nth_error (forces (objs three_groups g)) 2 /\
    nth_error (ranges (objs w' g)) 0 = nth_error (ranges (objs three_groups g)) 0 /\
    nth_error (ranges (objs w' g)) 1 = nth_error (ranges (objs three_groups g)) 2.
Proof.
  apply (remove_middle_of_three three_groups 0%nat 1%nat 2%nat).
  - reflexivity.
  - repeat constructor; cbn; intuition discriminate.
  - intros g [<-|[<-|[<-|[]]]]; split; reflexivity.
Defined.

(** * The group sweep *)

Lemma same_shape_refl (h : heap) : same_shape h h.
Proof. intros g. auto. Qed.

Lemma same_shape_trans (h1 h2 h3 : heap) :
  same_shape h1 h2 -> same_shape h2 h3 -> same_shape h1 h3.
Proof.
  intros H12 H23 g.
  destruct (H12 g) as (A1 & A2 & A3 & A4 & A5).
  destruct (H23 g) as (B1 & B2 & B3 & B4 & B5).
  repeat split; congruence.
Qed.

Lemma set_item_shape (h : heap) (g : ref) (k : nat) (a : Particle) :
  k < length (items (h g)) -> same_shape h (set_item h g k a).
Proof.
  intros Hk g'. unfold set_item, set_items.
  destruct (Nat.eq_dec g' g) as [->|Hne].
  - rewrite upd_same. cbn [forces ranges isRunning particleRadius items]. repeat split.
    rewrite length_app. cbn [length]. rewrite length_firstn, length_skipn. lia.
  - rewrite upd_other by assumption. auto.
Qed.

Lemma sweep_particle_spec (g1 g2 : ref) (f md dt wd ht damp : float) (st : sim) (i : nat) :
  i < length (items (fst st g1)) ->
  let st' := sweep_particle g1 g2 f md dt wd ht damp st i in
  same_shape (fst st) (fst st') /\
  snd st' = snd st ++ [AccelReset g1 i; Integrated g1 i].
Proof.
  destruct st as [h log]. cbn [fst snd]. intros Hi. cbv zeta. unfold sweep_particle.
  destruct (nth_error (items (h g1)) i) as [a|] eqn:E.
  - cbn [fst snd]. split; [|reflexivity].
    pose proof (set_item_shape h g1 i (set_acc a 0 0) Hi) as S1.
    eapply same_shape_trans; [exact S1|].
    apply set_item_shape. destruct (S1 g1) as (_ & _ & _ & _ & ->). exact Hi.
  - apply nth_error_None in E. lia.
Qed.

Lemma interactGroup_fold (g1 g2 : ref) (f md dt wd ht damp : float) (l : list nat) :
  forall st : sim,
    (forall i, In i l -> i < length (items (fst st g1))) ->
    let st' := fold_left (sweep_particle g1 g2 f md dt wd ht damp) l st in
    same_shape (fst st) (fst st') /\
    snd st' = snd st ++ flat_map (fun k => [AccelReset g1 k; Integrated g1 k]) l.
Proof.
  induction l as [|i l IH]; intros st Hl; cbv zeta.
  - cbn. split; [apply same_shape_refl | now rewrite app_nil_r].
  - cbn [fold_left flat_map].
    destruct (sweep_particle_spec g1 g2 f md dt wd ht damp st i) as [S1 L1];
      [apply Hl; now left|].
    destruct (IH (sweep_particle g1 g2 f md dt wd ht damp st i)) as [S2 L2].
    { intros k Hk. destruct (S1 g1) as (_ & _ & _ & _ & ->). apply Hl. now right. }
    split.
    + eapply same_shape_trans; eauto.
    + rewrite L2, L1, <- app_assoc. reflexivity.
Qed.

Lemma interactGroup_spec (g1 g2 : ref) (f md dt wd ht damp : float) (st : sim) :
  let st' := interactGroup g1 g2 f md dt wd ht damp st in
  same_shape (fst st) (fst st') /\
  snd st' = snd st ++ sweep_events g1 (length (items (fst st g1))).
Proof.
  cbv zeta. unfold interactGroup, sweep_events.
  apply interactGroup_fold. intros i Hi. apply in_seq in Hi. lia.
Qed.

(** ** A sweep forgets the accelerations it finds *)






Lemma nth_error_replace_same {A : Type} (l : list A) (i : nat) (a : A) :
  i < length l -> nth_error (firstn i l ++ a :: skipn (S i) l) i = Some a.
Proof.
  intros Hi. rewrite nth_error_app2 by (rewrite length_firstn; lia).
  rewrite length_firstn. replace (i - Nat.min i (length l))%nat with O by lia.
  reflexivity.
Qed.

Lemma nth_error_replace_other {A : Type} (l : list A) (i j : nat) (a : A) :
  i < length l -> j <> i ->
  nth_error (firstn i l ++ a :: skipn (S i) l) j = nth_error l j.
Proof.
  revert i j. induction l as [|b l IH]; intros i j Hi Hj; [cbn in Hi; lia|].
  destruct i as [|i], j as [|j]; cbn [firstn skipn app nth_error]; try reflexivity.
  - contradiction.
  - apply IH; cbn in Hi; lia.
Qed.

Lemma items_set_item (h : heap) (g : ref) (i : nat) (a : Particle) :
  items (set_item h g i a g) = firstn i (items (h g)) ++ a :: skipn (S i) (items (h g)).
Proof. unfold set_item, set_items, upd. now rewrite Nat.eqb_refl. Qed.

Lemma set_item_other (h : heap) (g g' : ref) (i : nat) (a : Particle) :
  g' <> g -> set_item h g i a g' = h g'.
Proof.
  intros Hne. unfold set_item, set_items, upd. apply Nat.eqb_neq in Hne. now rewrite Hne.
Qed.

Lemma set_item_fields (h : heap) (g g' : ref) (i : nat) (a : Particle) :
  forces (set_item h g i a g') = forces (h g') /\
  ranges (set_item h g i a g') = ranges (h g') /\
  isRunning (set_item h g i a g') = isRunning (h g') /\
  particleRadius (set_item h g i a g') = particleRadius (h g').
Proof.
  unfold set_item, set_items, upd. destruct (Nat.eqb_spec g' g) as [->|Hne]; cbn; auto.
Qed.


Section Sweep.

Variables (g1 g2 : ref) (f md dt wd ht damp : float).

Let sweep := sweep_particle g1 g2 f md dt wd ht damp.


Lemma sweep_particle_other_slot (st : sim) (i j : nat) :
  j <> i ->
  nth_error (items (fst (sweep st i) g1)) j = nth_error (items (fst st g1)) j.
Proof.
  destruct st as [h log]. cbn [fst]. intros Hj. unfold sweep, sweep_particle.
  destruct (nth_error (items (h g1)) i) as [a|] eqn:Ea; [|reflexivity].
  cbn [fst]. assert (i < length (items (h g1))) by (apply nth_error_Some; congruence).
  rewrite !items_set_item.
  rewrite nth_error_replace_other; [now apply nth_error_replace_other| |assumption].
  rewrite length_app. cbn [length]. rewrite length_firstn, length_skipn. lia.
Qed.


End Sweep.


(** * Loops

    A loop that skips some of its iterations is the loop over the others,
    as long as what the body does has no influence on the test. *)

Lemma fold_left_skip {S A : Type} (R : S -> S -> Prop) (f : S -> A -> S)
  (p : S -> A -> bool) :
  (forall s, R s s) ->
  (forall s1 s2 s3, R s1 s2 -> R s2 s3 -> R s1 s3) ->
  (forall s a, R s (f s a)) ->
  (forall s s' a, R s s' -> p s' a = p s a) ->
  forall (l : list A) (s0 s : S),
    R s0 s ->
    fold_left (fun s a => if p s a then f s a else s) l s
    = fold_left f (filter (p s0) l) s.
Proof.
  intros Hrefl Htrans Hf Hp. induction l as [|a l IH]; intros s0 s HR; [reflexivity|].
  cbn [fold_left filter]. rewrite (Hp s0 s a HR).
  destruct (p s0 a).
  - cbn [fold_left]. apply IH. eapply Htrans; [exact HR|apply Hf].
  - now apply IH.
Qed.

Lemma filter_nil_all {A : Type} (p : A -> bool) (l : list A) :
  (forall a, In a l -> p a = false) -> filter p l = [].
Proof.
  induction l as [|a l IH]; intros H; [reflexivity|].
  cbn. rewrite (H a) by now left. apply IH. intros b Hb. apply H. now right.
Qed.

Lemma list_prod_cons {A B : Type} (a : A) (l : list A) (l' : list B) :
  list_prod (a :: l) l' = map (pair a) l' ++ list_prod l l'.
Proof. reflexivity. Qed.









Lemma fold_left_add_skip {A : Type} (skip : A -> bool) (v : A -> nat) (l : list A) :
  forall k : nat,
    fold_left (fun k a => if skip a then k else (k + v a)%nat) l k
    = (k + list_sum (map v (filter (fun a => negb (skip a)) l)))%nat.
Proof.
  induction l as [|a l IH]; intros k; cbn [fold_left filter].
  - cbn. lia.
  - rewrite IH. destruct (skip a); simpl; lia.
Qed.

Lemma fold_left_add_rows {A : Type} (row : A -> nat) (l : list A) :
  forall (f : nat -> A -> nat) (k : nat),
    (forall k a, f k a = (k + row a)%nat) ->
    fold_left f l k = (k + list_sum (map row l))%nat.
Proof.
  induction l as [|a l IH]; intros f k Hf; simpl; [lia|].
  rewrite (IH f _ Hf), Hf. lia.
Qed.

Lemma sum_over_pairs (v : nat -> nat -> nat) (P : nat -> nat -> bool)
  (rows cols : list nat) :
  list_sum (map (fun i => list_sum (map (v i) (filter (P i) cols))) rows)
  = list_sum (map (fun p => v (fst p) (snd p))
                  (filter (fun p => P (fst p) (snd p)) (list_prod rows cols))).
Proof.
  induction rows as [|i rows IH]; [reflexivity|].
  rewrite list_prod_cons, filter_app, map_app, list_sum_app.
  simpl. rewrite IH. f_equal.
  rewrite filter_map_swap, map_map. reflexivity.
Qed.

(** * The simulation step *)

Section Step.

Variable env : Env.
Variable gs : list ref.
Variable dt : float.

Lemma interact_pair_spec (st : sim) (p : nat * nat) :
  let st' := interact_pair env gs dt st p in
  same_shape (fst st) (fst st') /\
  snd st' = snd st ++ sweep_events (nth (fst p) gs O)
                        (length (items (fst st (nth (fst p) gs O)))).
Proof. cbv zeta. unfold interact_pair. apply interactGroup_spec. Qed.

Lemma step_row_pairs (i : nat) (st0 st : sim) :
  shape_rel st0 st ->
  step_row env gs dt i st =
  fold_left (interact_pair env gs dt)
    (filter (fun p => negb (num_at (forces (fst st0 (nth (fst p) gs O))) (snd p) =? 0))
            (map (pair i) (seq 0 (length gs)))) st.
Proof.
  intros HR. unfold step_row.
  rewrite <- (fold_left_skip shape_rel (interact_pair env gs dt)
               (fun st p => negb (num_at (forces (fst st (nth (fst p) gs O))) (snd p) =? 0)))
    with (s0 := st0).
  - generalize (seq 0 (length gs)) as l. intros l. revert st HR.
    induction l as [|j l IH]; intros st HR; [reflexivity|].
    cbn [map fold_left fst snd]. cbv beta zeta. cbn [fst snd].
    unfold sim, heap in *.
    destruct (num_at (forces (fst st (nth i gs O))) j =? 0) eqn:E; cbn [negb].
    + now apply IH.
    + unfold interact_pair at 2. cbn [fst snd]. apply IH.
      eapply same_shape_trans; [exact HR|]. apply interactGroup_spec.
  - intros s. apply same_shape_refl.
  - intros s1 s2 s3. apply same_shape_trans.
  - intros s a. apply interact_pair_spec.
  - intros s s' a Hs. destruct (Hs (nth (fst a) gs O)) as (-> & _). reflexivity.
  - exact HR.
Qed.

Lemma fold_pairs_spec (pairs : list (nat * nat)) :
  forall st0 st : sim,
    shape_rel st0 st ->
    let st' := fold_left (interact_pair env gs dt) pairs st in
    shape_rel st0 st' /\
    snd st' = snd st ++
      flat_map (fun p => sweep_events (nth (fst p) gs O)
                           (length (items (fst st0 (nth (fst p) gs O))))) pairs.
Proof.
  induction pairs as [|p pairs IH]; intros st0 st HR; cbv zeta.
  - cbn. split; [exact HR | now rewrite app_nil_r].
  - cbn [fold_left flat_map].
    destruct (interact_pair_spec st p) as [S1 L1].
    assert (HR1 : shape_rel st0 (interact_pair env gs dt st p)).
    { eapply same_shape_trans; eauto. }
    destruct (IH st0 _ HR1) as [S2 L2]. split; [exact S2|].
    rewrite L2, L1, <- app_assoc.
    destruct (HR (nth (fst p) gs O)) as (_ & _ & _ & _ & ->). reflexivity.
Qed.

Lemma step_rows_pairs (rows : list nat) :
  forall st0 st : sim,
    shape_rel st0 st ->
    fold_left (fun st i =>
                 if negb (isRunning (fst st (nth i gs O))) then st
                 else step_row env gs dt i st) rows st
    = fold_left (interact_pair env gs dt)
        (filter (fun p => interacts (fst st0) gs (fst p) (snd p))
                (list_prod rows (seq 0 (length gs)))) st.
Proof.
  induction rows as [|i rows IH]; intros st0 st HR; [reflexivity|].
  cbn [fold_left]. rewrite list_prod_cons, filter_app, fold_left_app.
  destruct (HR (nth i gs O)) as (_ & _ & Hrun & _).
  cbv beta. unfold sim, heap in *.
  destruct (isRunning (fst st (nth i gs O))) eqn:E; cbn [negb].
  - rewrite (step_row_pairs i st0 st HR).
    assert (Hf : filter (fun p => interacts (fst st0) gs (fst p) (snd p))
                        (map (pair i) (seq 0 (length gs)))
                 = filter (fun p => negb (num_at (forces (fst st0 (nth (fst p) gs O)))
                                            (snd p) =? 0))
                          (map (pair i) (seq 0 (length gs)))).
    { apply filter_ext_in. intros [i' j] Hin. apply in_map_iff in Hin.
      destruct Hin as (j' & [= <- <-] & _). unfold interacts. cbn [fst snd].
      now rewrite <- Hrun. }
    rewrite Hf. apply IH.
    apply (fold_pairs_spec _ st0 st HR).
  - rewrite (filter_nil_all _ (map (pair i) (seq 0 (length gs)))).
    + cbn [fold_left]. now apply IH.
    + intros [i' j] Hin. apply in_map_iff in Hin.
      destruct Hin as (j' & [= <- <-] & _). unfold interacts. cbn [fst snd].
      now rewrite <- Hrun.
Qed.

Lemma step_sim_pairs (st : sim) :
  step_sim env gs dt st
  = fold_left (interact_pair env gs dt) (interacting_pairs (fst st) gs) st.
Proof.
  unfold step_sim, interacting_pairs. apply step_rows_pairs. apply same_shape_refl.
Qed.

(** C3, amended.  [step] skips a pair whose force entry is [0] and such a
    pair changes no particle at all: the store after [step] is the one
    obtained by running the group interaction, in the order of the loops,
    for exactly the pairs whose target is running and whose force entry is
    not [0]; when every force entry of every running group is [0] the store
    is left as it is.  (The variant that runs the interaction with [f = 0]
    instead of skipping is a different function: see the counterexample.) *)
Theorem step_skips_zero_force_pairs (h : heap) :
  step env gs dt h
  = fst (fold_left (interact_pair env gs dt) (interacting_pairs h gs) (h, [])) /\
  ((forall i j, i < length gs -> j < length gs ->
      isRunning (h (nth i gs O)) = true ->
      (num_at (forces (h (nth i gs O))) j =? 0) = true) ->
   step env gs dt h = h).
Proof.
  unfold step. rewrite step_sim_pairs. cbn [fst]. split; [reflexivity|].
  intros Hz. unfold interacting_pairs. rewrite filter_nil_all; [reflexivity|].
  intros [i j] Hin. apply in_prod_iff in Hin. destruct Hin as [Hi Hj].
  apply in_seq in Hi. apply in_seq in Hj. unfold interacts. cbn [fst snd].
  destruct (isRunning (h (nth i gs O))) eqn:E; [|reflexivity].
  rewrite Hz by (auto; lia). reflexivity.
Qed.







End Step.

Lemma step_skips_zero_force_pairs_witness :
  step env_box [O] 0.125 drifting_store = drifting_store.
Proof.
  apply (step_skips_zero_force_pairs env_box [O] 0.125 drifting_store).
  intros i j Hi Hj _. cbn in Hi, Hj.
  assert (i = O) by lia. assert (j = O) by lia. subst. reflexivity.
Defined.

(** The claim C3 as it is worded fails: one group that does not interact
    with itself, with one particle moving at [vx = 1]; [step] leaves the
    particle at [x = 10], the variant that runs the interaction with
    [f = 0] moves it to [x = 11]. *)
Lemma skip_matches_noskip_counterexample :
  ~ skip_matches_noskip env_box [O] 0.125 drifting_store.
Proof.
  intros H. specialize (H O).
  apply (f_equal (fun l => match l with p :: _ => x p <? 10.5 | [] => false end)) in H.
  vm_compute in H. discriminate H.
Qed.



(** * The sum of the products of the interacting pairs, row by row *)

Lemma sum_of_pair_products_rows (w : World) :
  sum_of_pair_products w
  = list_sum
      (map (fun i =>
              list_sum
                (map (fun j => (length (items (objs w (nth i (groups w) O))) *
                                length (items (objs w (nth j (groups w) O))))%nat)
                     (filter (interacts (objs w) (groups w) i)
                             (seq 0 (length (groups w))))))
           (seq 0 (length (groups w)))).
Proof.
  unfold sum_of_pair_products, interacting_pairs. symmetry.
  apply (sum_over_pairs
           (fun i j => (length (items (objs w (nth i (groups w) O))) *
                        length (items (objs w (nth j (groups w) O))))%nat)
           (interacts (objs w) (groups w))).
Qed.

(** * The distance, the force kernel and the boundary once more *)

Lemma SFmul_opp_r (u v : spec_float) : SF64mul u (SFopp v) = SFopp (SF64mul u v).
Proof.
  destruct u as [su|su| |su mu eu], v as [sv|sv| |sv mv ev]; cbn -[binary_round_aux];
    try reflexivity; try (now destruct su, sv).
  replace (xorb su (negb sv)) with (negb (xorb su sv)) by now destruct su, sv.
  apply binary_round_aux_opp.
Qed.

Lemma mul_opp_r (u v : float) : u * (- v) = - (u * v).
Proof.
  apply Prim2SF_inj. rewrite mul_spec, !opp_spec, mul_spec. apply SFmul_opp_r.
Qed.

Lemma opp_involutive (v : float) : - (- v) = v.
Proof.
  apply Prim2SF_inj. rewrite !opp_spec.
  destruct (Prim2SF v) as [s|s| |s m e]; cbn; now rewrite ?negb_involutive.
Qed.

Lemma pow2_opp (v : float) : pow2 (- v) = pow2 v.
Proof. unfold pow2. now rewrite mul_opp_l, mul_opp_r, opp_involutive. Qed.

Lemma binary_normalize_opp (m e : Z) :
  m <> 0%Z ->
  binary_normalize prec emax (- m) e false
  = SFopp (binary_normalize prec emax m e false).
Proof.
  intros Hm. destruct m as [|p|p]; [contradiction| |]; cbn [Z.opp binary_normalize];
    unfold binary_round; destruct (shl_align p e _) as [mz ez].
  - apply (binary_round_aux_opp false).
  - rewrite <- (binary_round_aux_opp true). reflexivity.
Qed.

(** Subtraction the other way round gives the opposite number, or [+0]
    both ways. *)
Lemma SFsub_swap (u v : spec_float) :
  SF64sub v u = SFopp (SF64sub u v) \/
  (SF64sub v u = S754_zero false /\ SF64sub u v = S754_zero false).
Proof.
  destruct u as [su|su| |su mu eu], v as [sv|sv| |sv mv ev]; cbn -[binary_normalize];
    try (left; reflexivity); try (destruct su, sv; cbn; auto; fail);
    try (left; now rewrite negb_involutive).
  rewrite (Z.min_comm ev eu).
  set (a := cond_Zopp su (Z.pos (fst (shl_align mu eu (Z.min eu ev))))).
  set (b := cond_Zopp sv (Z.pos (fst (shl_align mv ev (Z.min eu ev))))).
  destruct (Z.eq_dec (a - b) 0) as [Hz|Hnz].
  - right. replace (b - a)%Z with 0%Z by lia. rewrite Hz. split; reflexivity.
  - left. replace (b - a)%Z with (- (a - b))%Z by lia.
    now apply binary_normalize_opp.
Qed.

Lemma sub_swap (u v : float) :
  v - u = - (u - v) \/ (v - u = 0 /\ u - v = 0).
Proof.
  destruct (SFsub_swap (Prim2SF u) (Prim2SF v)) as [H|[H1 H2]].
  - left. apply Prim2SF_inj. now rewrite opp_spec, !sub_spec.
  - right. split; apply Prim2SF_inj; now rewrite sub_spec.
Qed.

Lemma delta_x_swap (a b : Particle) :
  pow2 (delta_x b a) = pow2 (delta_x a b) /\
  same_number (delta_x b a) (- delta_x a b).
Proof.
  unfold delta_x. destruct (sub_swap (x a) (x b)) as [->|[-> ->]].
  - split; [apply pow2_opp | now left].
  - split; [reflexivity | now right].
Qed.

Lemma delta_y_swap (a b : Particle) :
  pow2 (delta_y b a) = pow2 (delta_y a b) /\
  same_number (delta_y b a) (- delta_y a b).
Proof.
  unfold delta_y. destruct (sub_swap (y a) (y b)) as [->|[-> ->]].
  - split; [apply pow2_opp | now left].
  - split; [reflexivity | now right].
Qed.

Lemma distance_sym (a b : Particle) : distance b a = distance a b.
Proof.
  unfold distance.
  now rewrite (proj1 (delta_x_swap a b)), (proj1 (delta_y_swap a b)).
Qed.

Lemma binary_round_positive (p : positive) (e : Z) :
  (-1074 <= e)%Z -> is_positive (binary_round prec emax false p e).
Proof.
  intros He. unfold binary_round, shl_align.
  set (e' := fexp prec emax (Z.pos (digits2_pos p) + e)).
  assert (He' : (-1074 <= e')%Z).
  { unfold e', fexp, SpecFloat.emin, prec, emax. lia. }
  destruct (e' - e)%Z; apply binary_round_aux_positive; lia.
Qed.

Lemma SFadd_positive (u : spec_float) (m : positive) (e : Z) :
  valid_binary u = true -> not_negative u -> (-1074 <= e)%Z ->
  positive_or_nan (SF64add u (S754_finite false m e)).
Proof.
  intros Hv Hu He. destruct u as [s|s| |s mu eu]; cbn in Hu; subst; try exact I.
  cbn in Hv. unfold bounded, canonical_mantissa in Hv.
  apply andb_prop in Hv. destruct Hv as [Hc _]. apply Z.eqb_eq in Hc.
  assert (Heu : (-1074 <= eu)%Z).
  { unfold fexp, SpecFloat.emin, prec, emax in Hc. lia. }
  unfold SF64add, SFadd. cbn [cond_Zopp].
  set (M := (Z.pos (fst (shl_align mu eu (Z.min eu e))) +
             Z.pos (fst (shl_align m e (Z.min eu e))))%Z).
  assert (HM : exists p, M = Z.pos p) by (unfold M; eexists; reflexivity).
  destruct HM as [p ->]. cbn [binary_normalize].
  pose proof (binary_round_positive p (Z.min eu e)) as H.
  destruct (binary_round prec emax false p (Z.min eu e)) as [?|[]| |[] ? ?];
    cbn in *; try exact I; apply H; lia.
Qed.

Lemma distance_positive (a b : Particle) : positive_or_nan (Prim2SF (distance a b)).
Proof.
  unfold distance. rewrite add_spec.
  change (Prim2SF EPSILON) with (S754_finite false 4503599627370496 (-104)).
  apply SFadd_positive.
  - apply Prim2SF_valid.
  - unfold pow_half. rewrite sqrt_spec. apply SFsqrt_signed.
  - lia.
Qed.

(** X1.  The distance that the kernel divides by is never zero and never
    negative: whatever the positions of the two particles are, it is a
    positive number, [+infinity] or [NaN].  (This is what the two additions of
    [Number.EPSILON] are for: [F = f / distance] never divides by zero.) *)
Theorem distance_never_zero (a b : Particle) :
  (distance a b <=? 0) = false /\ (distance a b =? 0) = false.
Proof.
  pose proof (distance_positive a b) as H.
  rewrite leb_spec, FloatAxioms.eqb_spec. unfold SFleb, SFeqb.
  change (Prim2SF 0) with (S754_zero false).
  destruct (Prim2SF (distance a b)) as [s|[]| |[] m e]; cbn in H; try contradiction;
    split; reflexivity.
Qed.

(** X2.  The kernel treats the two particles of a pair alike.  The
    distance computed for [(b, a)] is the number computed for [(a, b)]; the
    offsets are opposite numbers (or [+0] both ways); and with the same force
    coefficient, cutoff and radius the two calls take the same branch with the
    same coefficient [F]: either neither particle is touched, or [a] receives
    [- F * (a - b)] and [b] receives [- F * (b - a)], equal and opposite. *)
Theorem kernel_equal_and_opposite (a b : Particle) (f maxDistance particleRadius : float) :
  distance b a = distance a b /\
  same_number (delta_x b a) (- delta_x a b) /\
  same_number (delta_y b a) (- delta_y a b) /\
  exists F : float,
    (interactParticle a b f maxDistance particleRadius = a /\
     interactParticle b a f maxDistance particleRadius = b) \/
    (interactParticle a b f maxDistance particleRadius
       = set_acc a (ax a - F * delta_x a b) (ay a - F * delta_y a b) /\
     interactParticle b a f maxDistance particleRadius
       = set_acc b (ax b - F * delta_x b a) (ay b - F * delta_y b a)).
Proof.
  split; [apply distance_sym|]. split; [apply delta_x_swap|]. split; [apply delta_y_swap|].
  unfold interactParticle. rewrite (distance_sym a b).
  destruct (distance a b <? particleRadius).
  - exists ((-6) / distance a b). now right.
  - destruct (distance a b <? maxDistance).
    + exists (f / distance a b). now right.
    + exists 0. now left.
Qed.

Lemma SFsub_diag (v : spec_float) :
  match v with S754_zero _ | S754_finite _ _ _ => True | _ => False end ->
  SF64sub v v = S754_zero false.
Proof.
  destruct v as [s|s| |s m e]; intros H; try contradiction.
  - now destruct s.
  - unfold SF64sub, SFsub. now rewrite Z.sub_diag.
Qed.

Lemma is_finite_cases (v : float) :
  is_finite v = true ->
  match Prim2SF v with S754_zero _ | S754_finite _ _ _ => True | _ => False end.
Proof.
  unfold is_finite, is_nan, is_infinity.
  rewrite !FloatAxioms.eqb_spec, abs_spec. unfold SFeqb.
  change (Prim2SF infinity) with (S754_infinity false).
  destruct (Prim2SF v) as [s|s| |s m e]; try (intros _; exact I).
  - destruct s; cbn; discriminate.
  - cbn. discriminate.
Qed.

Lemma sub_diag (v : float) : is_finite v = true -> v - v = 0.
Proof.
  intros H. apply Prim2SF_inj. rewrite sub_spec.
  now apply SFsub_diag, is_finite_cases.
Qed.

Lemma add_zero_same (v : float) : same_number (v + 0) v.
Proof.
  unfold same_number.
  destruct (Prim2SF v) as [s|s| |s m e] eqn:E.
  - right. rewrite FloatAxioms.eqb_spec, add_spec, E.
    change (Prim2SF 0) with (S754_zero false). now destruct s.
  - left. apply Prim2SF_inj. rewrite add_spec, E. reflexivity.
  - left. apply Prim2SF_inj. rewrite add_spec, E. reflexivity.
  - left. apply Prim2SF_inj. rewrite add_spec, E. reflexivity.
Qed.

(** X3.  A particle does not push itself.  For a particle at a finite
    position the distance to itself is [EPSILON ** .5 + EPSILON] (about
    1.5e-8); under any radius above that, the kernel called with [a] for both
    arguments takes the hard-core branch and adds [+0] to both components of
    the acceleration, which leaves them the same numbers. *)
Theorem self_pair_adds_nothing (a : Particle) (f maxDistance particleRadius : float) :
  is_finite (x a) = true -> is_finite (y a) = true ->
  distance a a = pow_half EPSILON + EPSILON /\
  ((pow_half EPSILON + EPSILON <? particleRadius) = true ->
   interactParticle a a f maxDistance particleRadius
     = set_acc a (ax a + 0) (ay a + 0)) /\
  same_number (ax a + 0) (ax a) /\ same_number (ay a + 0) (ay a).
Proof.
  intros Hx Hy.
  assert (Hdx : delta_x a a = 0) by (unfold delta_x; now apply sub_diag).
  assert (Hdy : delta_y a a = 0) by (unfold delta_y; now apply sub_diag).
  assert (Hd : distance a a = pow_half EPSILON + EPSILON).
  { unfold distance. rewrite Hdx, Hdy. reflexivity. }
  split; [exact Hd|]. split; [|split; apply add_zero_same].
  intros Hr. unfold interactParticle. rewrite Hd, Hr, Hdx, Hdy.
  change ((-6) / (pow_half EPSILON + EPSILON) * 0) with (- 0).
  now rewrite !sub_opp_r.
Qed.

Lemma self_pair_adds_nothing_witness :
  distance kernel_a kernel_a = pow_half EPSILON + EPSILON /\
  ((pow_half EPSILON + EPSILON <? 5) = true ->
   interactParticle kernel_a kernel_a 1 50 5
     = set_acc kernel_a (ax kernel_a + 0) (ay kernel_a + 0)) /\
  same_number (ax kernel_a + 0) (ax kernel_a) /\
  same_number (ay kernel_a + 0) (ay kernel_a).
Proof. apply (self_pair_adds_nothing kernel_a 1 50 5); reflexivity. Defined.

Lemma constraint_x_inside (p : Particle) (r width : float) :
  (width - r <? r) = false ->
  let q := constraint_x p r width in
  (x q <? r) = false /\ (width - r <? x q) = false.
Proof.
  intros Hw. cbv zeta. unfold constraint_x.
  destruct (x p <? r) eqn:E1; [|destruct (width - r <? x p) eqn:E2]; cbn [x].
  - split; [apply ltb_irrefl | exact Hw].
  - split; [exact Hw | apply ltb_irrefl].
  - now split.
Qed.

Lemma constraint_y_inside (p : Particle) (r height : float) :
  (height - r <? r) = false ->
  let q := constraint_y p r height in
  (y q <? r) = false /\ (height - r <? y q) = false.
Proof.
  intros Hw. cbv zeta. unfold constraint_y.
  destruct (y p <? r) eqn:E1; [|destruct (height - r <? y p) eqn:E2]; cbn [y].
  - split; [apply ltb_irrefl | exact Hw].
  - split; [exact Hw | apply ltb_irrefl].
  - now split.
Qed.

Lemma constraint_in_box (p : Particle) (r width height : float) :
  (width - r <? r) = false -> (height - r <? r) = false ->
  in_box (constraint p r width height) r width height.
Proof.
  intros Hw Hh. unfold in_box, constraint.
  destruct (constraint_x_inside p r width Hw) as [X1 X2].
  destruct (constraint_y_inside (constraint_x p r width) r height Hh) as [Y1 Y2].
  destruct (constraint_y_frame (constraint_x p r width) r height) as (-> & _).
  auto.
Qed.

Lemma constraint_fixes_in_box (p : Particle) (r width height : float) :
  in_box p r width height -> constraint p r width height = p.
Proof.
  intros (X1 & X2 & Y1 & Y2). unfold constraint, constraint_x, constraint_y.
  rewrite X1, X2, Y1, Y2. reflexivity.
Qed.

(** X4.  In a world whose far walls are not before the near ones
    ([width - r] is not below [r], nor [height - r]), [constraint] leaves the
    particle beyond none of the four walls, and a second [constraint] changes
    nothing. *)
Theorem constraint_idempotent (p : Particle) (r width height : float) :
  (width - r <? r) = false -> (height - r <? r) = false ->
  in_box (constraint p r width height) r width height /\
  constraint (constraint p r width height) r width height
    = constraint p r width height.
Proof.
  intros Hw Hh. pose proof (constraint_in_box p r width height Hw Hh) as H.
  split; [exact H | now apply constraint_fixes_in_box].
Qed.

Lemma constraint_idempotent_witness :
  in_box (constraint wall_p 5 100 100) 5 100 100 /\
  constraint (constraint wall_p 5 100 100) 5 100 100 = constraint wall_p 5 100 100.
Proof. apply (constraint_idempotent wall_p 5 100 100); reflexivity. Defined.

(** * The step once more *)

Lemma sweep_particle_other_group (g1 g2 : ref) (f md dt wd ht damp : float)
  (st : sim) (i : nat) (g : ref) :
  g <> g1 -> fst (sweep_particle g1 g2 f md dt wd ht damp st i) g = fst st g.
Proof.
  intros Hne. destruct st as [h log]. unfold sweep_particle. cbn [fst].
  destruct (nth_error (items (h g1)) i) as [a|]; [|reflexivity].
  cbn [fst]. now rewrite !set_item_other.
Qed.

Lemma sweep_particle_radius (g1 g2 : ref) (f md dt wd ht damp : float)
  (st : sim) (i : nat) (g : ref) :
  particleRadius (fst (sweep_particle g1 g2 f md dt wd ht damp st i) g)
  = particleRadius (fst st g).
Proof.
  destruct st as [h log]. unfold sweep_particle. cbn [fst].
  destruct (nth_error (items (h g1)) i) as [a|]; [|reflexivity].
  cbn [fst].
  destruct (set_item_fields (set_item h g1 i (set_acc a 0 0)) g1 g i
              (constraint
                 (integrate
                    (fold_left
                       (fun a0 b => interactParticle a0 b f md
                          (particleRadius (set_item h g1 i (set_acc a 0 0) g1)))
                       (items (set_item h g1 i (set_acc a 0 0) g2)) (set_acc a 0 0))
                    dt damp)
                 (particleRadius (set_item h g1 i (set_acc a 0 0) g1)) wd ht))
    as (_ & _ & _ & ->).
  apply set_item_fields.
Qed.

Lemma interactGroup_other_group (g1 g2 : ref) (f md dt wd ht damp : float)
  (st : sim) (g : ref) :
  g <> g1 -> fst (interactGroup g1 g2 f md dt wd ht damp st) g = fst st g.
Proof.
  intros Hne. unfold interactGroup.
  generalize (seq 0 (length (items (fst st g1)))) as l. intros l. revert st.
  induction l as [|i l IH]; intros st; [reflexivity|].
  cbn [fold_left]. rewrite IH. now apply sweep_particle_other_group.
Qed.

Section SweepBox.

Variables (g1 g2 : ref) (f md dt wd ht damp r : float).
Hypothesis Hw : (wd - r <? r) = false.
Hypothesis Hh : (ht - r <? r) = false.

Let sweep := sweep_particle g1 g2 f md dt wd ht damp.

Let slot_in_box (st : sim) (j : nat) : Prop :=
  match nth_error (items (fst st g1)) j with
  | Some q => in_box q r wd ht
  | None => True
  end.

Lemma sweep_particle_slot_in_box (st : sim) (i : nat) :
  particleRadius (fst st g1) = r -> slot_in_box (sweep st i) i.
Proof.
  destruct st as [h log]. cbn [fst]. intros Hr. unfold slot_in_box, sweep, sweep_particle.
  destruct (nth_error (items (h g1)) i) as [a|] eqn:Ea.
  - cbn [fst]. assert (Hi : i < length (items (h g1))) by (apply nth_error_Some; congruence).
    rewrite items_set_item, nth_error_replace_same.
    + destruct (set_item_fields h g1 g1 i (set_acc a 0 0)) as (_ & _ & _ & ->).
      rewrite Hr. now apply constraint_in_box.
    + rewrite items_set_item, length_app. cbn [length].
      rewrite length_firstn, length_skipn. lia.
  - cbn [fst]. now rewrite Ea.
Qed.

Lemma sweep_fold_in_box (l : list nat) :
  forall (st : sim) (done : nat -> Prop),
    particleRadius (fst st g1) = r ->
    (forall j, done j -> slot_in_box st j) ->
    forall j, done j \/ In j l -> slot_in_box (fold_left sweep l st) j.
Proof.
  induction l as [|i l IH]; intros st done Hr Hd j Hj.
  - destruct Hj as [Hj|[]]. now apply Hd.
  - cbn [fold_left].
    apply (IH (sweep st i) (fun j => done j \/ j = i)).
    + unfold sweep. now rewrite sweep_particle_radius.
    + intros k [Hk| ->]; [|now apply sweep_particle_slot_in_box].
      destruct (Nat.eq_dec k i) as [->|Hne]; [now apply sweep_particle_slot_in_box|].
      unfold slot_in_box, sweep. rewrite sweep_particle_other_slot by assumption.
      now apply Hd.
    + destruct Hj as [Hj|[<-|Hj]]; auto.
Qed.

Lemma interactGroup_in_box (st : sim) :
  particleRadius (fst st g1) = r ->
  Forall (fun p => in_box p r wd ht)
         (items (fst (interactGroup g1 g2 f md dt wd ht damp st) g1)).
Proof.
  intros Hr. apply Forall_forall. intros q Hq.
  destruct (In_nth_error _ _ Hq) as [j Hj].
  assert (Hlen : j < length (items (fst st g1))).
  { destruct (interactGroup_spec g1 g2 f md dt wd ht damp st) as [S _].
    destruct (S g1) as (_ & _ & _ & _ & <-). apply nth_error_Some. congruence. }
  pose proof (sweep_fold_in_box (seq 0 (length (items (fst st g1)))) st
                (fun _ => False) Hr (fun _ F => match F with end) j) as H.
  unfold slot_in_box in H. unfold interactGroup. fold sweep.
  unfold interactGroup in Hj. fold sweep in Hj. rewrite Hj in H.
  apply H. right. apply in_seq. lia.
Qed.

End SweepBox.

Section StepFrame.

Variable env : Env.
Variable gs : list ref.
Variable dt : float.

Lemma interact_pair_other_group (st : sim) (p : nat * nat) (g : ref) :
  nth (fst p) gs O <> g -> fst (interact_pair env gs dt st p) g = fst st g.
Proof.
  intros Hne. unfold interact_pair. apply interactGroup_other_group. congruence.
Qed.

Lemma fold_pairs_other_group (pairs : list (nat * nat)) (g : ref) :
  (forall p, In p pairs -> nth (fst p) gs O <> g) ->
  forall st, fst (fold_left (interact_pair env gs dt) pairs st) g = fst st g.
Proof.
  induction pairs as [|p pairs IH]; intros Hp st; [reflexivity|].
  cbn [fold_left]. rewrite IH by (intros q Hq; apply Hp; now right).
  apply interact_pair_other_group. apply Hp. now left.
Qed.

Lemma interacting_pairs_In (h : heap) (i j : nat) :
  In (i, j) (interacting_pairs h gs) <->
  i < length gs /\ j < length gs /\ interacts h gs i j = true.
Proof.
  unfold interacting_pairs. rewrite filter_In, in_prod_iff, !in_seq. cbn [fst snd].
  intuition lia.
Qed.

(** X5.  [step] moves particles and nothing else: the force and range
    rows, the radius, the running flag and the number of particles of every
    group object are as before the call.  And a group object that is not
    registered, or not running, or whose force entries at the indices of the
    registry are all [0], is left exactly as it is, particles included, also
    when other groups use it as a source. *)
Theorem step_keeps_shape (h : heap) :
  same_shape h (step env gs dt h) /\
  forall g,
    (~ In g gs \/ isRunning (h g) = false \/
     forall j, j < length gs -> (num_at (forces (h g)) j =? 0) = true) ->
    step env gs dt h g = h g.
Proof.
  unfold step. rewrite step_sim_pairs. cbn [fst]. split.
  - apply (fold_pairs_spec env gs dt (interacting_pairs h gs) (h, []) (h, [])).
    apply same_shape_refl.
  - intros g Hg. rewrite fold_pairs_other_group; [reflexivity|].
    intros [i j] Hin Heq. apply interacting_pairs_In in Hin.
    destruct Hin as (Hi & Hj & Hint). cbn [fst] in Heq. unfold interacts in Hint.
    rewrite Heq in Hint. apply andb_prop in Hint. destruct Hint as [Hrun Hf].
    destruct Hg as [Hg|[Hg|Hg]].
    + apply Hg. rewrite <- Heq. now apply nth_In.
    + congruence.
    + rewrite (Hg j Hj) in Hf. discriminate.
Qed.

Lemma fold_pairs_in_box (g : ref) (r : float) :
  (innerWidth env - r <? r) = false -> (innerHeight env - r <? r) = false ->
  forall (pairs : list (nat * nat)) (st : sim),
    particleRadius (fst st g) = r ->
    (Forall (fun p => in_box p r (innerWidth env) (innerHeight env)) (items (fst st g)) \/
     exists p, In p pairs /\ nth (fst p) gs O = g) ->
    Forall (fun p => in_box p r (innerWidth env) (innerHeight env))
           (items (fst (fold_left (interact_pair env gs dt) pairs st) g)).
Proof.
  intros Hw Hh. induction pairs as [|p pairs IH]; intros st Hr H.
  - destruct H as [H|(p & [] & _)]. exact H.
  - cbn [fold_left]. apply IH.
    + destruct (interact_pair_spec env gs dt st p) as [S _].
      destruct (S g) as (_ & _ & _ & -> & _). exact Hr.
    + destruct (Nat.eq_dec (nth (fst p) gs O) g) as [Heq|Hne].
      * left. unfold interact_pair. rewrite Heq.
        now apply interactGroup_in_box.
      * destruct H as [H|(q & [<-|Hq] & Hg)].
        -- left. now rewrite interact_pair_other_group.
        -- contradiction.
        -- right. now exists q.
Qed.

(** X6.  After [step], no particle of a group is beyond a wall of the
    window (the walls at [r], [innerWidth - r] and [innerHeight - r], with
    [r] the radius of the group, the far walls not before the near ones) as
    soon as the group was swept in that step (it is registered and running
    and one of its force entries is not [0]), and also when it was not swept
    but its particles were within the walls before. *)
Theorem step_keeps_particles_in_box (h : heap) (g : ref) :
  (innerWidth env - particleRadius (h g) <? particleRadius (h g)) = false ->
  (innerHeight env - particleRadius (h g) <? particleRadius (h g)) = false ->
  group_in_box env h g \/ swept h gs g ->
  group_in_box env (step env gs dt h) g.
Proof.
  intros Hw Hh H. unfold group_in_box, step. rewrite step_sim_pairs. cbn [fst].
  assert (Hr : particleRadius
                 (fst (fold_left (interact_pair env gs dt) (interacting_pairs h gs) (h, [])) g)
               = particleRadius (h g)).
  { destruct (fold_pairs_spec env gs dt (interacting_pairs h gs) (h, []) (h, [])
                (same_shape_refl h)) as [S _].
    now destruct (S g) as (_ & _ & _ & -> & _). }
  rewrite Hr. apply fold_pairs_in_box; auto.
  destruct H as [H|(Hin & Hrun & j & Hj & Hf)]; [now left|right].
  destruct (In_nth _ _ O Hin) as (i & Hi & Hg).
  exists (i, j). split; [|exact Hg].
  apply interacting_pairs_In. split; [exact Hi|]. split; [exact Hj|].
  unfold interacts. unfold ref in *. now rewrite Hg, Hrun, Hf.
Qed.

End StepFrame.

Lemma step_keeps_shape_witness :
  step env_box [O] 0.125 drifting_store O = drifting_store O.
Proof.
  apply (proj2 (step_keeps_shape env_box [O] 0.125 drifting_store)).
  right. right. intros j Hj. cbn in Hj. assert (j = O) by lia. subst. reflexivity.
Defined.

Lemma step_keeps_particles_in_box_witness :
  group_in_box env_box (step env_box [0; 1]%nat 0.125 pair_store) O.
Proof.
  apply (step_keeps_particles_in_box env_box [0; 1]%nat 0.125 pair_store O).
  - reflexivity.
  - reflexivity.
  - right. split; [now left|]. split; [reflexivity|].
    exists O. split; [cbn; lia|reflexivity].
Defined.

(** ** The calls of the force kernel in one step *)

Lemma list_sum_cons (a : nat) (l : list nat) :
  list_sum (a :: l) = (a + list_sum l)%nat.
Proof. reflexivity. Qed.

(** The inner loop of [interactGroup] with the counter: the particle is the
    one of the loop without it, and the counter has gone up by the number of
    particles of the source. *)
Lemma kernel_fold_counted (f md r : float) (l : list Particle) :
  forall (a : Particle) (n : nat),
    fold_left (fun ac b => (interactParticle (fst ac) b f md r, S (snd ac))) l (a, n)
    = (fold_left (fun a b => interactParticle a b f md r) l a, (n + length l)%nat).
Proof.
  induction l as [|b l IH]; intros a n; cbn [fold_left length fst snd].
  - f_equal. lia.
  - rewrite IH. f_equal. lia.
Qed.

Lemma set_item_length (h : heap) (g g' : ref) (i : nat) (a : Particle) :
  i < length (items (h g)) ->
  length (items (set_item h g i a g')) = length (items (h g')).
Proof. intros Hi. now apply set_item_shape. Qed.

Lemma sweep_particle_counted_spec (g1 g2 : ref) (f md dt wd ht damp : float)
  (st : sim) (n : nat) (i : nat) :
  i < length (items (fst st g1)) ->
  sweep_particle_counted g1 g2 f md dt wd ht damp (st, n) i
  = (sweep_particle g1 g2 f md dt wd ht damp st i,
     (n + length (items (fst st g2)))%nat).
Proof.
  intros Hi. unfold sweep_particle_counted, sweep_particle.
  destruct st as [h log]. cbn [fst snd] in *.
  destruct (nth_error (items (h g1)) i) as [a|] eqn:E;
    [|apply nth_error_None in E; lia].
  rewrite kernel_fold_counted. cbn [fst snd].
  now rewrite (set_item_length h g1 g2 i (set_acc a 0 0) Hi).
Qed.

Lemma sweep_fold_counted (g1 g2 : ref) (f md dt wd ht damp : float) (l : list nat) :
  forall (st0 st : sim) (n : nat),
    shape_rel st0 st ->
    (forall i, In i l -> i < length (items (fst st0 g1))) ->
    fold_left (sweep_particle_counted g1 g2 f md dt wd ht damp) l (st, n)
    = (fold_left (sweep_particle g1 g2 f md dt wd ht damp) l st,
       (n + length l * length (items (fst st0 g2)))%nat).
Proof.
  induction l as [|i l IH]; intros st0 st n HR Hl.
  - cbn. f_equal. lia.
  - cbn [fold_left length].
    assert (Hi : i < length (items (fst st g1))).
    { destruct (HR g1) as (_ & _ & _ & _ & ->). apply Hl. now left. }
    rewrite (sweep_particle_counted_spec g1 g2 f md dt wd ht damp st n i Hi).
    rewrite (IH st0).
    + f_equal. destruct (HR g2) as (_ & _ & _ & _ & ->). lia.
    + eapply same_shape_trans; [exact HR|]. now apply sweep_particle_spec.
    + intros k Hk. apply Hl. now right.
Qed.

Lemma interactGroup_counted_spec (g1 g2 : ref) (f md dt wd ht damp : float)
  (st : sim) (n : nat) :
  interactGroup_counted g1 g2 f md dt wd ht damp (st, n)
  = (interactGroup g1 g2 f md dt wd ht damp st,
     (n + length (items (fst st g1)) * length (items (fst st g2)))%nat).
Proof.
  unfold interactGroup_counted, interactGroup. cbn [fst].
  rewrite (sweep_fold_counted g1 g2 f md dt wd ht damp _ st st n).
  - now rewrite length_seq.
  - apply same_shape_refl.
  - intros i Hi. apply in_seq in Hi. lia.
Qed.

Section Counted.

Variable env : Env.
Variable gs : list ref.
Variable dt : float.

(** The calls of one group interaction, read off a store. *)
Let pair_calls (h : heap) (i j : nat) : nat :=
  (length (items (h (nth i gs O))) * length (items (h (nth j gs O))))%nat.

Let nonzero (h : heap) (i j : nat) : bool :=
  negb (num_at (forces (h (nth i gs O))) j =? 0).

Lemma step_row_counted_fold (i : nat) (h0 : heap) (l : list nat) :
  forall (st : sim) (n : nat),
    same_shape h0 (fst st) ->
    fold_left (fun sc j =>
      let gi := nth i gs O in
      if num_at (forces (fst (fst sc) gi)) j =? 0 then sc
      else interactGroup_counted gi (nth j gs O)
             (num_at (forces (fst (fst sc) gi)) j) (num_at (ranges (fst (fst sc) gi)) j)
             dt (innerWidth env) (innerHeight env) (dampening env) sc) l (st, n)
    = (fold_left (fun st j =>
         let gi := nth i gs O in
         if num_at (forces (fst st gi)) j =? 0 then st
         else interactGroup gi (nth j gs O)
                (num_at (forces (fst st gi)) j) (num_at (ranges (fst st gi)) j)
                dt (innerWidth env) (innerHeight env) (dampening env) st) l st,
       (n + list_sum (map (pair_calls h0 i) (filter (nonzero h0 i) l)))%nat).
Proof.
  induction l as [|j l IH]; intros st n HR.
  - cbn. f_equal. lia.
  - cbn [fold_left filter fst snd]. cbv zeta.
    unfold nonzero at 1.
    destruct (HR (nth i gs O)) as (Hf & _ & _ & _ & Hli).
    destruct (HR (nth j gs O)) as (_ & _ & _ & _ & Hlj).
    rewrite <- Hf. unfold sim, heap in *.
    destruct (num_at (forces (fst st (nth i gs O))) j =? 0) eqn:E; cbn [negb].
    + now apply IH.
    + rewrite interactGroup_counted_spec. rewrite IH.
      * f_equal. cbn [map].
        rewrite list_sum_cons.
        set (T := list_sum (map (pair_calls h0 i) (filter (nonzero h0 i) l))).
        unfold pair_calls. unfold sim, heap, ref in *. rewrite Hli, Hlj. lia.
      * eapply same_shape_trans; [exact HR|]. apply interactGroup_spec.
Qed.

Lemma step_row_counted_spec (i : nat) (h0 : heap) (st : sim) (n : nat) :
  same_shape h0 (fst st) ->
  step_row_counted env gs dt i (st, n)
  = (step_row env gs dt i st,
     (n + list_sum (map (pair_calls h0 i) (filter (nonzero h0 i) (seq 0 (length gs)))))%nat).
Proof. intros HR. unfold step_row_counted, step_row. now apply step_row_counted_fold. Qed.

Lemma step_row_shape (i : nat) (st : sim) : same_shape (fst st) (fst (step_row env gs dt i st)).
Proof.
  rewrite (step_row_pairs env gs dt i st st (same_shape_refl _)).
  apply (fold_pairs_spec env gs dt _ st st (same_shape_refl _)).
Qed.

Lemma step_counted_fold (h0 : heap) (l : list nat) :
  forall (st : sim) (n : nat),
    same_shape h0 (fst st) ->
    fold_left (fun sc i =>
      if negb (isRunning (fst (fst sc) (nth i gs O))) then sc
      else step_row_counted env gs dt i sc) l (st, n)
    = (fold_left (fun st i =>
         if negb (isRunning (fst st (nth i gs O))) then st
         else step_row env gs dt i st) l st,
       (n + list_sum (map (fun i =>
                 if isRunning (h0 (nth i gs O))
                 then list_sum (map (pair_calls h0 i)
                                    (filter (nonzero h0 i) (seq 0 (length gs))))
                 else O) l))%nat).
Proof.
  induction l as [|i l IH]; intros st n HR.
  - cbn. f_equal. lia.
  - cbn [fold_left map list_sum fst snd].
    destruct (HR (nth i gs O)) as (_ & _ & Hrun & _).
    rewrite <- Hrun.
    pose proof (step_row_counted_spec i h0 st n HR) as Hrow.
    pose proof (step_row_shape i st) as Hshape.
    pose proof (IH st n HR) as IH0.
    pose proof (IH (step_row env gs dt i st)
                  (n + list_sum (map (pair_calls h0 i)
                                     (filter (nonzero h0 i) (seq 0 (length gs)))))%nat
                  (same_shape_trans _ _ _ HR Hshape)) as IH1.
    unfold sim, heap in *.
    destruct (isRunning (fst st (nth i gs O))) eqn:E; cbn [negb].
    + rewrite Hrow, IH1. f_equal. rewrite list_sum_cons. lia.
    + rewrite IH0. f_equal.
Qed.

Lemma sum_of_pair_products_counted (h : heap) :
  sum_of_pair_products (mkWorld h gs)
  = list_sum (map (fun i =>
        if isRunning (h (nth i gs O))
        then list_sum (map (pair_calls h i) (filter (nonzero h i) (seq 0 (length gs))))
        else O) (seq 0 (length gs))).
Proof.
  rewrite sum_of_pair_products_rows. cbn [groups objs].
  f_equal. apply map_ext. intros i. unfold interacts.
  destruct (isRunning (h (nth i gs O))); cbn [andb].
  - reflexivity.
  - now rewrite filter_false.
Qed.

End Counted.

(** The number of kernel calls of one step is the sum of the products of
    the interacting pairs. *)
Lemma step_kernel_calls_sum (env : Env) (dt : float) (w : World) :
  fst (step_counted env (groups w) dt ((objs w, []), O))
    = step_sim env (groups w) dt (objs w, []) /\
  step_kernel_calls env (groups w) dt (objs w) = sum_of_pair_products w.
Proof.
  unfold step_kernel_calls, step_counted.
  rewrite (step_counted_fold env (groups w) dt (objs w) _ (objs w, []) O
             (same_shape_refl _)).
  cbn [fst snd]. split; [reflexivity|].
  destruct w as [h gs]. cbn [groups objs].
  now rewrite sum_of_pair_products_counted.
Qed.

(** * pause, clear, and removeGroup at a missing group *)

Lemma fold_left_id {S A : Type} (f : S -> A -> S) (l : list A) :
  (forall a, In a l -> forall s, f s a = s) -> forall s, fold_left f l s = s.
Proof.
  induction l as [|a l IH]; intros H s; [reflexivity|].
  cbn [fold_left]. rewrite (H a) by now left. apply IH. intros b Hb. apply H. now right.
Qed.

(** A loop that overwrites some fields of each object of a list. *)
Lemma fold_upd_each (F : Group -> Group) (l : list ref) :
  (forall v, F (F v) = F v) ->
  forall (h : heap) (g : ref),
    (In g l -> fold_left (fun h g => upd h g (F (h g))) l h g = F (h g)) /\
    (~ In g l -> fold_left (fun h g => upd h g (F (h g))) l h g = h g).
Proof.
  intros HF. induction l as [|a l IH]; intros h g.
  - cbn. split; [contradiction|reflexivity].
  - cbn [fold_left]. destruct (IH (upd h a (F (h a))) g) as [IH1 IH2]. split.
    + intros Hin. destruct (in_dec Nat.eq_dec g l) as [Hl|Hl].
      * rewrite (IH1 Hl). destruct (Nat.eq_dec g a) as [->|Hne].
        -- now rewrite upd_same.
        -- now rewrite upd_other.
      * rewrite (IH2 Hl). destruct Hin as [->|Hin]; [|contradiction].
        apply upd_same.
    + intros Hnin. rewrite IH2 by (intros H; apply Hnin; now right).
      apply upd_other. intros ->. apply Hnin. now left.
Qed.

Lemma step_no_pairs (env : Env) (gs : list ref) (dt : float) (h : heap) :
  (forall g, In g gs -> isRunning (h g) = false) -> step env gs dt h = h.
Proof.
  intros H. unfold step. rewrite step_sim_pairs. cbn [fst].
  unfold interacting_pairs. rewrite filter_nil_all; [reflexivity|].
  intros [i j] Hin. apply in_prod_iff in Hin. destruct Hin as [Hi _].
  apply in_seq in Hi. unfold interacts. cbn [fst snd].
  rewrite H; [reflexivity|]. apply nth_In. lia.
Qed.

Lemma computationsPerFrame_idle (w : World) :
  (forall g, In g (groups w) -> isRunning (objs w g) = false) ->
  computationsPerFrame w = 0.
Proof.
  intros H. unfold computationsPerFrame.
  apply fold_left_id. intros i Hi k. apply in_seq in Hi.
  apply fold_left_id. intros j _ k'.
  rewrite H; [reflexivity|]. apply nth_In. lia.
Qed.

Lemma pause_objs (running : bool) (w : World) (g : ref) :
  (In g (groups w) ->
     objs (snd (pause running w)) g
     = mkGroup (items (objs w g)) (count (objs w g)) (forces (objs w g))
               (ranges (objs w g)) (particleRadius (objs w g)) (negb running)) /\
  (~ In g (groups w) -> objs (snd (pause running w)) g = objs w g).
Proof.
  unfold pause. cbn [snd objs].
  apply (fold_upd_each
           (fun v => mkGroup (items v) (count v) (forces v) (ranges v)
                             (particleRadius v) (negb running))).
  reflexivity.
Qed.

(** X8.  [pause()] on a running instance stops the simulation: the flag
    of the instance and the flags of all registered groups are [false]
    afterwards, whatever the flags of the groups were; a [step] then leaves
    the store as it is, and [computationsPerFrame] is [0]. *)
Theorem pause_stops_step (env : Env) (dt : float) (w : World) :
  let w' := snd (pause true w) in
  fst (pause true w) = false /\
  groups w' = groups w /\
  (forall g, In g (groups w) -> isRunning (objs w' g) = false) /\
  step env (groups w') dt (objs w') = objs w' /\
  computationsPerFrame w' = 0.
Proof.
  cbv zeta.
  assert (Hrun : forall g, In g (groups w) -> isRunning (objs (snd (pause true w)) g) = false).
  { intros g Hg. now rewrite (proj1 (pause_objs true w g) Hg). }
  split; [reflexivity|]. split; [reflexivity|]. split; [exact Hrun|]. split.
  - apply step_no_pairs. exact Hrun.
  - apply computationsPerFrame_idle. exact Hrun.
Qed.

(** X9.  Two calls of [pause()] restore the flag of the instance, and
    leave every registered group with that flag and otherwise unchanged: the
    store is the one before the two calls exactly when the flag of every
    registered group agreed with the flag of the instance.  A group whose flag
    differed (a group restored from a saved state into a running instance,
    say) is overwritten. *)
Theorem pause_twice (running : bool) (w : World) :
  let p1 := pause running w in
  let p2 := pause (fst p1) (snd p1) in
  fst p2 = running /\
  groups (snd p2) = groups w /\
  (forall g, In g (groups w) ->
     objs (snd p2) g
     = mkGroup (items (objs w g)) (count (objs w g)) (forces (objs w g))
               (ranges (objs w g)) (particleRadius (objs w g)) running) /\
  (forall g, ~ In g (groups w) -> objs (snd p2) g = objs w g) /\
  ((forall g, In g (groups w) -> isRunning (objs w g) = running) ->
   forall g, objs (snd p2) g = objs w g).
Proof.
  cbv zeta.
  assert (H1 : fst (pause running w) = negb running) by reflexivity.
  assert (Hg : groups (snd (pause running w)) = groups w) by reflexivity.
  assert (Hin : forall g, In g (groups w) ->
            objs (snd (pause (fst (pause running w)) (snd (pause running w)))) g
            = mkGroup (items (objs w g)) (count (objs w g)) (forces (objs w g))
                (ranges (objs w g)) (particleRadius (objs w g)) running).
  { intros g Hin.
    rewrite (proj1 (pause_objs _ (snd (pause running w)) g)) by (now rewrite Hg).
    rewrite (proj1 (pause_objs running w g) Hin), H1. cbn.
    now rewrite negb_involutive. }
  assert (Hout : forall g, ~ In g (groups w) ->
            objs (snd (pause (fst (pause running w)) (snd (pause running w)))) g
            = objs w g).
  { intros g Hnin.
    rewrite (proj2 (pause_objs _ (snd (pause running w)) g)) by (now rewrite Hg).
    now apply pause_objs. }
  split; [cbn; apply negb_involutive|]. split; [reflexivity|].
  split; [exact Hin|]. split; [exact Hout|].
  intros Hsame g. destruct (in_dec Nat.eq_dec g (groups w)) as [Hi|Hn].
  - rewrite (Hin g Hi), <- (Hsame g Hi). now destruct (objs w g).
  - now apply Hout.
Qed.

Lemma pause_twice_witness :
  objs (snd (pause (fst (pause true two_groups)) (snd (pause true two_groups)))) 1%nat
  = objs two_groups 1%nat.
Proof.
  pose proof (pause_twice true two_groups) as H. cbv zeta in H.
  destruct H as (_ & _ & _ & _ & H). apply H.
  intros g [<-|[<-|[]]]; reflexivity.
Defined.

Lemma clear_objs (w : World) (g : ref) :
  (In g (groups w) ->
     objs (clear w) g
     = mkGroup [] (count (objs w g)) (forces (objs w g)) (ranges (objs w g))
               (particleRadius (objs w g)) (isRunning (objs w g))) /\
  (~ In g (groups w) -> objs (clear w) g = objs w g).
Proof.
  unfold clear. cbn [objs].
  apply (fold_upd_each
           (fun v => mkGroup [] (count v) (forces v) (ranges v)
                             (particleRadius v) (isRunning v))).
  reflexivity.
Qed.

Lemma addGroup_empty_registry (env : Env) (group : ref) (w : World) :
  groups w = [] ->
  validation_error (addGroup env group w) = false /\
  groups (world_of (addGroup env group w)) = [group] /\
  forall g, forces (objs (world_of (addGroup env group w)) g) = forces (objs w g) /\
            ranges (objs (world_of (addGroup env group w)) g) = ranges (objs w g).
Proof.
  intros Hg.
  assert (Hv : validation_error (addGroup env group w) = false).
  { rewrite addGroup_validation_loop, Hg. reflexivity. }
  destruct (addGroup_unfold env group w Hv) as (w1 & Hloop & Hw).
  rewrite Hg in Hloop. cbn in Hloop. injection Hloop as <-.
  split; [exact Hv|]. split.
  - rewrite (addGroup_accepted_groups env group w Hv), Hg. reflexivity.
  - intros g. rewrite Hw.
    apply (updateParticleCount_tables env group g
             (mkWorld (objs w) (groups w ++ [group]))).
Qed.

(** X10.  [clear()] empties the registry and the particle array of every
    group that was registered, and nothing else: the force and range rows of
    these objects keep the entries they had, objects that were not registered
    are not touched, and [computationsPerFrame] is [0] afterwards. *)
Theorem clear_empties_registry (w : World) :
  groups (clear w) = [] /\
  (forall g, In g (groups w) ->
     objs (clear w) g
     = mkGroup [] (count (objs w g)) (forces (objs w g)) (ranges (objs w g))
               (particleRadius (objs w g)) (isRunning (objs w g))) /\
  (forall g, ~ In g (groups w) -> objs (clear w) g = objs w g) /\
  computationsPerFrame (clear w) = 0.
Proof.
  split; [reflexivity|]. split; [intros g; apply clear_objs|].
  split; [intros g; apply clear_objs|reflexivity].
Qed.

Lemma clear_empties_registry_witness :
  objs (clear two_groups) 1%nat = mkGroup [] 0 [1; 1] [50; 50] 5 true.
Proof.
  apply (proj1 (proj2 (clear_empties_registry two_groups)) 1%nat). cbn. auto.
Defined.

(** X11.  After [clear()], [addGroup] accepts any group: with no group
    registered the loop of [addGroup] tests nothing, no validation error is
    raised whatever the ranges and the radius are, the group becomes the only
    one of the registry, and its rows are registered as they are.  The
    registry is aligned afterwards exactly when the rows of the group had one
    entry each. *)
Theorem clear_then_addGroup (env : Env) (group : ref) (w : World) :
  let w' := world_of (addGroup env group (clear w)) in
  validation_error (addGroup env group (clear w)) = false /\
  groups w' = [group] /\
  forces (objs w' group) = forces (objs w group) /\
  ranges (objs w' group) = ranges (objs w group) /\
  (aligned w' <->
   length (forces (objs w group)) = 1%nat /\ length (ranges (objs w group)) = 1%nat).
Proof.
  cbv zeta.
  assert (Ht : forall g, forces (objs (clear w) g) = forces (objs w g) /\
                         ranges (objs (clear w) g) = ranges (objs w g)).
  { intros g. destruct (in_dec Nat.eq_dec g (groups w)) as [Hi|Hn].
    - rewrite (proj1 (clear_objs w g) Hi). now split.
    - rewrite (proj2 (clear_objs w g) Hn). now split. }
  destruct (addGroup_empty_registry env group (clear w) eq_refl) as (Hv & Hgs & Htab).
  destruct (Htab group) as [Hf Hr]. destruct (Ht group) as [Hf' Hr'].
  rewrite Hf' in Hf. rewrite Hr' in Hr.
  split; [exact Hv|]. split; [exact Hgs|]. split; [exact Hf|]. split; [exact Hr|].
  unfold aligned. rewrite Hgs. cbn [length]. split.
  - intros H. rewrite <- Hf, <- Hr. apply H. now left.
  - intros [Lf Lr] g [<-|[]]. now rewrite Hf, Hr.
Qed.

Lemma findIndex_None (group : ref) (l : list ref) :
  ~ In group l -> findIndex group l = None.
Proof.
  induction l as [|g rest IH]; intros Hnin; [reflexivity|]. cbn.
  destruct (Nat.eqb_spec g group) as [->|Hne].
  - exfalso. apply Hnin. now left.
  - rewrite IH; [reflexivity|]. intros H. apply Hnin. now right.
Qed.

Lemma set_items_same (h : heap) (g : ref) (its : list Particle) :
  items (set_items h g its g) = its.
Proof. unfold set_items. now rewrite upd_same. Qed.

Lemma fold_splice_tables_items (i : option nat) (l : list ref) :
  forall (h : heap) (g : ref),
    items (fold_left (splice_tables i) l h g) = items (h g).
Proof.
  induction l as [|a l IH]; intros h g; [reflexivity|].
  cbn [fold_left]. rewrite IH. unfold splice_tables, set_tables.
  destruct (Nat.eq_dec g a) as [->|Hne].
  - now rewrite upd_same.
  - now rewrite upd_other.
Qed.

(** X12.  In a registry in which no group object occurs twice,
    [removeGroup] of a group that is not registered removes the last group
    of the registry: [findIndex] yields [-1] and [splice(-1, 1)] counts from
    the end.  The remaining groups lose the last entry of their rows and keep
    their particles; the particles of the argument are deleted; and the
    group that left the registry keeps its rows and its particles. *)
Theorem removeGroup_unregistered (group : ref) (w : World) :
  NoDup (groups w) -> ~ In group (groups w) ->
  let w' := removeGroup group w in
  groups w' = removelast (groups w) /\
  (forall g, In g (groups w') ->
     forces (objs w' g) = removelast (forces (objs w g)) /\
     ranges (objs w' g) = removelast (ranges (objs w g)) /\
     items (objs w' g) = items (objs w g)) /\
  items (objs w' group) = [] /\
  (forall g, In g (groups w) -> ~ In g (groups w') ->
     objs w' g = objs w g).
Proof.
  intros Hnd Hnin. cbv zeta.
  destruct (removeGroup_tables group w Hnd) as [Hg Ht]. cbv zeta in Hg, Ht.
  rewrite (findIndex_None group (groups w) Hnin) in Hg, Ht.
  change (splice1 None (groups w)) with (removelast (groups w)) in Hg.
  split; [exact Hg|]. split; [|split].
  - intros g Hin. destruct (Ht g Hin) as [Hf Hr]. split; [exact Hf|]. split; [exact Hr|].
    unfold removeGroup. cbn [objs]. rewrite fold_splice_tables_items.
    unfold set_items. rewrite upd_other; [reflexivity|].
    intros ->. apply Hnin. rewrite Hg in Hin. eapply (splice1_incl None); exact Hin.
  - unfold removeGroup. cbn [objs]. rewrite fold_splice_tables_items.
    apply set_items_same.
  - intros g Hin Hout. unfold removeGroup in *. cbn [objs groups] in *.
    destruct (fold_splice_tables (findIndex group (groups w))
                (splice1 (findIndex group (groups w)) (groups w))
                (set_items (objs w) group [])
                (splice1_NoDup _ _ Hnd)) as [H _].
    rewrite (H g Hout). unfold set_items. apply upd_other.
    intros ->. contradiction.
Qed.

Lemma removeGroup_unregistered_witness :
  let w' := removeGroup 7%nat three_groups in
  groups w' = removelast (groups three_groups) /\
  (forall g, In g (groups w') ->
     forces (objs w' g) = removelast (forces (objs three_groups g)) /\
     ranges (objs w' g) = removelast (ranges (objs three_groups g)) /\
     items (objs w' g) = items (objs three_groups g)) /\
  items (objs w' 7%nat) = [] /\
  (forall g, In g (groups three_groups) -> ~ In g (groups w') ->
     objs w' g = objs three_groups g).
Proof.
  apply (removeGroup_unregistered 7%nat three_groups).
  - repeat constructor; cbn; intuition discriminate.
  - cbn. intuition discriminate.
Defined.

(** * Removing and adding, and the default group *)

(** [updateParticleCount] writes nothing but the [items] of its group. *)
Lemma updateParticleCount_frame (env : Env) (g g' : ref) (w : World) :
  let w' := world_of (updateParticleCount env g w) in
  forces (objs w' g') = forces (objs w g') /\
  ranges (objs w' g') = ranges (objs w g') /\
  particleRadius (objs w' g') = particleRadius (objs w g') /\
  isRunning (objs w' g') = isRunning (objs w g') /\
  count (objs w' g') = count (objs w g') /\
  (g' <> g -> objs w' g' = objs w g').
Proof.
  cbv zeta. unfold updateParticleCount.
  assert (Hset : forall its,
            forces (set_items (objs w) g its g') = forces (objs w g') /\
            ranges (set_items (objs w) g its g') = ranges (objs w g') /\
            particleRadius (set_items (objs w) g its g') = particleRadius (objs w g') /\
            isRunning (set_items (objs w) g its g') = isRunning (objs w g') /\
            count (set_items (objs w) g its g') = count (objs w g') /\
            (g' <> g -> set_items (objs w) g its g' = objs w g')).
  { intros its. destruct (set_items_tables (objs w) g g' its) as (A & B & C & D & E).
    repeat split; auto. intros Hne. unfold set_items. now apply upd_other. }
  destruct (_ =? 0); [cbn [world_of]; tauto|].
  destruct (_ <? 0).
  - destruct (to_array_length _); cbn [world_of objs]; [apply Hset|tauto].
  - destruct (0 <? _); [|cbn [world_of]; tauto].
    destruct (loop_bound _) as [k|]; [destruct (k <=? _)%Z|];
      cbn [world_of objs]; apply Hset.
Qed.

Lemma addGroup_loop_running (group : ref) (todo : list ref) :
  forall (i : nat) (w : World) (g : ref),
    isRunning (objs (world_of (addGroup_loop group todo i w)) g) = isRunning (objs w g) /\
    particleRadius (objs (world_of (addGroup_loop group todo i w)) g)
      = particleRadius (objs w g) /\
    items (objs (world_of (addGroup_loop group todo i w)) g) = items (objs w g).
Proof.
  induction todo as [|g0 rest IH]; intros i w g; [cbn; auto|].
  cbn [addGroup_loop]. destruct (_ <? _); [cbn; auto|].
  destruct (IH (S i) (mkWorld (push_entry (objs w) g0
                                 (num_at (forces (objs w group)) i)
                                 (num_at (ranges (objs w group)) i)) (groups w)) g)
    as (-> & -> & ->).
  cbn [objs]. unfold push_entry, set_tables.
  destruct (Nat.eq_dec g g0) as [->|Hne].
  - rewrite upd_same. cbn. auto.
  - rewrite upd_other by assumption. auto.
Qed.

(** What a call of [addGroup] that raises no validation error does to the
    registry and to the tables, when the candidate is not registered yet and
    no object is registered twice. *)
Lemma addGroup_registers (env : Env) (group : ref) (w : World) :
  NoDup (groups w) -> ~ In group (groups w) ->
  validation_error (addGroup env group w) = false ->
  let w' := world_of (addGroup env group w) in
  groups w' = groups w ++ [group] /\
  NoDup (groups w') /\
  (forall k g, nth_error (groups w) k = Some g ->
     forces (objs w' g) = forces (objs w g) ++ [num_at (forces (objs w group)) k] /\
     ranges (objs w' g) = ranges (objs w g) ++ [num_at (ranges (objs w group)) k]) /\
  forces (objs w' group) = forces (objs w group) /\
  ranges (objs w' group) = ranges (objs w group) /\
  (forall g, isRunning (objs w' g) = isRunning (objs w g) /\
             particleRadius (objs w' g) = particleRadius (objs w g)) /\
  (forall g, g <> group -> items (objs w' g) = items (objs w g)).
Proof.
  intros Hnd Hnin Hv. cbv zeta.
  destruct (addGroup_unfold env group w Hv) as (w1 & Hloop & Hw).
  pose proof (addGroup_loop_tables group (groups w) 0 w Hnin Hnd) as Ht.
  rewrite <- (addGroup_validation_loop env) in Ht. specialize (Ht Hv).
  pose proof (addGroup_loop_running group (groups w) 0 w) as Hrun.
  rewrite Hloop in Ht, Hrun. cbn [world_of] in Ht, Hrun. destruct Ht as [Ht1 Ht2].
  rewrite Hw.
  assert (Hf : forall g, let w' := world_of (updateParticleCount env group
                                       (mkWorld (objs w1) (groups w ++ [group]))) in
             forces (objs w' g) = forces (objs w1 g) /\
             ranges (objs w' g) = ranges (objs w1 g) /\
             particleRadius (objs w' g) = particleRadius (objs w1 g) /\
             isRunning (objs w' g) = isRunning (objs w1 g) /\
             count (objs w' g) = count (objs w1 g) /\
             (g <> group -> objs w' g = objs w1 g)).
  { intros g. apply (updateParticleCount_frame env group g
                       (mkWorld (objs w1) (groups w ++ [group]))). }
  cbv zeta in Hf.
  split; [|split; [|split; [|split; [|split; [|split]]]]].
  - now rewrite updateParticleCount_groups.
  - rewrite updateParticleCount_groups. cbn [groups].
    apply NoDup_app; [assumption|repeat constructor; intros []|].
    intros a Ha [<-|[]]. contradiction.
  - intros k g Hk. destruct (Hf g) as (-> & -> & _). exact (Ht2 k g Hk).
  - destruct (Hf group) as (-> & _). now rewrite (Ht1 group Hnin).
  - destruct (Hf group) as (_ & -> & _). now rewrite (Ht1 group Hnin).
  - intros g. destruct (Hf g) as (_ & _ & -> & -> & _).
    destruct (Hrun g) as (-> & -> & _). auto.
  - intros g Hne. destruct (Hf g) as (_ & _ & _ & _ & _ & Hsame).
    rewrite (Hsame Hne). apply Hrun.
Qed.

Lemma num_at_repeat_app (v z : float) (n k : nat) :
  k < n -> num_at (repeat v n ++ [z]) k = v.
Proof.
  intros Hk. unfold num_at. rewrite app_nth1 by (rewrite repeat_length; lia).
  apply nth_repeat_lt. exact Hk.
Qed.

Lemma num_at_repeat_last (v z : float) (n : nat) :
  num_at (repeat v n ++ [z]) n = z.
Proof.
  unfold num_at. rewrite app_nth2 by (rewrite repeat_length; lia).
  rewrite repeat_length, Nat.sub_diag. reflexivity.
Qed.

Lemma nth_error_repeat_app (v z : float) (n k : nat) (r : float) :
  k < n -> nth_error (repeat v n ++ [z]) k = Some r -> r = v.
Proof.
  intros Hk H. rewrite nth_error_app1 in H by (rewrite repeat_length; lia).
  apply nth_error_In in H. now apply repeat_spec in H.
Qed.

Lemma splice1_found_out (group : ref) (l : list ref) (i : nat) :
  NoDup l -> findIndex group l = Some i -> ~ In group (splice1 (Some i) l).
Proof.
  intros Hnd Hi. destruct (findIndex_Some group l i Hi) as [Hn _].
  unfold splice1. rewrite <- (firstn_skipn_middle _ _ Hn) in Hnd.
  now apply NoDup_remove_2 in Hnd.
Qed.

Lemma removeGroup_registry_ok (group : ref) (w : World) :
  registry_ok w -> registry_ok (removeGroup group w).
Proof.
  intros [Hnd Hal].
  destruct (removeGroup_tables group w Hnd) as [Hg Ht]. cbv zeta in *.
  assert (Hlen : length (groups (removeGroup group w)) = (length (groups w) - 1)%nat).
  { rewrite Hg. apply splice1_length. intros k Hk. now apply findIndex_Some in Hk. }
  split.
  - rewrite Hg. now apply splice1_NoDup.
  - intros g Hin. destruct (Ht g Hin) as [-> ->].
    assert (Hin' : In g (groups w)).
    { rewrite Hg in Hin. eapply splice1_incl; eauto. }
    destruct (Hal g Hin') as [Hf Hr]. rewrite Hlen.
    rewrite !splice1_length.
    + lia.
    + intros k Hk. rewrite Hr. now apply findIndex_Some in Hk.
    + intros k Hk. rewrite Hf. now apply findIndex_Some in Hk.
Qed.

Lemma removeGroup_removed_row (group : ref) (w : World) :
  NoDup (groups w) -> In group (groups w) ->
  ~ In group (groups (removeGroup group w)) /\
  forces (objs (removeGroup group w) group) = forces (objs w group) /\
  ranges (objs (removeGroup group w) group) = ranges (objs w group) /\
  items (objs (removeGroup group w) group) = [].
Proof.
  intros Hnd Hin. destruct (findIndex_In group (groups w) Hin) as [i Hi].
  assert (Hout : ~ In group (groups (removeGroup group w))).
  { unfold removeGroup. cbn [groups]. rewrite Hi. now apply splice1_found_out. }
  split; [exact Hout|].
  unfold removeGroup in *. cbn [objs groups] in *.
  destruct (fold_splice_tables (findIndex group (groups w))
              (splice1 (findIndex group (groups w)) (groups w))
              (set_items (objs w) group [])
              (splice1_NoDup _ _ Hnd)) as [H _].
  rewrite (H group Hout).
  destruct (set_items_tables (objs w) group group []) as (-> & -> & _).
  repeat split. apply set_items_same.
Qed.

(** X13.  A group that is removed and added again.  [removeGroup] takes
    the group out of the registry and out of the rows of the others, but
    leaves the rows of the removed object as they are; when [addGroup] then
    accepts the object, it goes to the end of the registry with the rows it
    had, which have the right length: the registry is again one of distinct
    groups with aligned rows.  The entries of the re-added row keep their
    positions, so that they now stand for other groups than before. *)
Theorem removeGroup_then_addGroup (env : Env) (group : ref) (w : World) :
  registry_ok w -> In group (groups w) ->
  let w1 := removeGroup group w in
  let o := addGroup env group w1 in
  validation_error o = false ->
  groups (world_of o) = splice1 (findIndex group (groups w)) (groups w) ++ [group] /\
  registry_ok (world_of o) /\
  forces (objs (world_of o) group) = forces (objs w group) /\
  ranges (objs (world_of o) group) = ranges (objs w group).
Proof.
  intros Hok Hin. cbv zeta. intros Hv.
  pose proof (removeGroup_registry_ok group w Hok) as [Hnd1 Hal1].
  destruct Hok as [Hnd Hal].
  destruct (removeGroup_removed_row group w Hnd Hin) as (Hout & Hf1 & Hr1 & _).
  destruct (addGroup_registers env group (removeGroup group w) Hnd1 Hout Hv)
    as (Hgs & Hnd' & Htab & Hff & Hfr & _).
  cbv zeta in *.
  assert (Hlen : S (length (groups (removeGroup group w))) = length (groups w)).
  { unfold removeGroup. cbn [groups]. rewrite splice1_length.
    - destruct (groups w); [contradiction|cbn; lia].
    - intros k Hk. now apply findIndex_Some in Hk. }
  split; [exact Hgs|]. split; [split; [exact Hnd'|]|].
  - intros g Hg. rewrite Hgs, length_app in *. cbn [length].
    apply in_app_iff in Hg. destruct Hg as [Hg|[<-|[]]].
    + destruct (In_nth_error _ _ Hg) as [k Hk].
      destruct (Htab k g Hk) as [-> ->]. rewrite !length_app. cbn [length].
      destruct (Hal1 g Hg) as [-> ->]. lia.
    + rewrite Hff, Hfr, Hf1, Hr1. destruct (Hal group Hin) as [-> ->]. lia.
  - rewrite Hff, Hfr. auto.
Qed.

Lemma removeGroup_then_addGroup_witness :
  let o := addGroup env0 1%nat (removeGroup 1%nat three_groups) in
  groups (world_of o) = [0; 2; 1]%nat /\
  registry_ok (world_of o) /\
  forces (objs (world_of o) 1%nat) = [4; 5; 6] /\
  ranges (objs (world_of o) 1%nat) = [40; 50; 60].
Proof.
  apply (removeGroup_then_addGroup env0 1%nat three_groups).
  - split.
    + repeat constructor; cbn; intuition discriminate.
    + intros g [<-|[<-|[<-|[]]]]; split; reflexivity.
  - cbn. auto.
  - reflexivity.
Defined.

(** X14.  [addDefaultGroup()] on a registry of distinct groups with
    aligned rows raises no validation error and keeps the registry aligned;
    the new group has radius 25 and interacts with itself alone (force [-1],
    range 25): its force entries for the groups that were registered, and
    their entries for it, are [0], so that [step] skips these pairs; the
    interactions between the groups that were registered are as before. *)
Theorem addDefaultGroup_inert (env : Env) (running : bool) (fresh : ref) (w : World) :
  registry_ok w -> ~ In fresh (groups w) ->
  let o := addDefaultGroup env running fresh w in
  let w' := world_of o in
  let n := length (groups w) in
  validation_error o = false /\
  groups w' = groups w ++ [fresh] /\
  registry_ok w' /\
  (forall i j, i < n -> j < n ->
     interacts (objs w') (groups w') i j = interacts (objs w) (groups w) i j) /\
  (forall i, i < n ->
     interacts (objs w') (groups w') i n = false /\
     interacts (objs w') (groups w') n i = false) /\
  num_at (forces (objs w' fresh)) n = -1 /\
  num_at (ranges (objs w' fresh)) n = 25 /\
  particleRadius (objs w' fresh) = 25.
Proof.
  intros [Hnd Hal] Hnin. cbv zeta. unfold addDefaultGroup.
  set (n := length (groups w)).
  set (G := mkGroup [] _ _ _ _ _).
  set (w0 := mkWorld (upd (objs w) fresh G) (groups w)).
  assert (Hc : objs w0 fresh = G) by (unfold w0; cbn; apply upd_same).
  assert (Ho : forall g, In g (groups w) -> objs w0 g = objs w g).
  { intros g Hg. unfold w0. cbn. apply upd_other. intros ->. contradiction. }
  assert (Hv : validation_error (addGroup env fresh w0) = false).
  { destruct (validation_error (addGroup env fresh w0)) eqn:E; [|reflexivity].
    rewrite addGroup_validation_loop in E.
    apply (addGroup_loop_validation fresh (ranges G) (particleRadius G)
             (groups w0) 0 w0 []) in E;
      [|now rewrite app_nil_r, Hc | constructor | now rewrite Hc].
    destruct E as (k & r & Hk & Hn & Hlt). cbn [Nat.add] in Hn.
    apply nth_error_repeat_app in Hn; [|exact Hk]. subst r. discriminate Hlt. }
  destruct (addGroup_registers env fresh w0 Hnd Hnin Hv)
    as (Hgs & Hnd' & Htab & Hff & Hfr & Hrun & _).
  cbv zeta in *. change (groups w0) with (groups w) in Hgs, Htab.
  rewrite Hc in Hff, Hfr, Htab.
  unfold G in Hff, Hfr, Htab.
  cbn [forces ranges] in Hff, Hfr, Htab. fold n in Hff, Hfr, Htab.
  set (w' := world_of (addGroup env fresh w0)) in *.
  assert (Hold : forall k g, nth_error (groups w) k = Some g ->
            forces (objs w' g) = forces (objs w g) ++ [0] /\
            ranges (objs w' g) = ranges (objs w g) ++ [25] /\
            isRunning (objs w' g) = isRunning (objs w g) /\
            length (forces (objs w g)) = n /\ length (ranges (objs w g)) = n).
  { intros k g Hk.
    assert (Hin : In g (groups w)) by (eapply nth_error_In; eauto).
    assert (Hkn : k < n) by (apply nth_error_Some; congruence).
    destruct (Htab k g Hk) as [Hf Hr]. rewrite (Ho g Hin) in Hf, Hr.
    rewrite !num_at_repeat_app in Hf, Hr by assumption.
    destruct (Hrun g) as [Hrg _]. rewrite (Ho g Hin) in Hrg.
    destruct (Hal g Hin) as [Lf Lr]. auto. }
  assert (Hnth_old : forall i, i < n -> nth i (groups w') O = nth i (groups w) O).
  { intros i Hi. rewrite Hgs. now apply app_nth1. }
  assert (Hnth_new : nth n (groups w') O = fresh).
  { rewrite Hgs. rewrite app_nth2 by (unfold n; lia).
    unfold n. now rewrite Nat.sub_diag. }
  split; [exact Hv|]. split; [exact Hgs|]. split; [split; [exact Hnd'|]|].
  { intros g Hg. rewrite Hgs, length_app in *. cbn [length]. fold n.
    apply in_app_iff in Hg. destruct Hg as [Hg|[<-|[]]].
    - destruct (In_nth_error _ _ Hg) as [k Hk].
      destruct (Hold k g Hk) as (-> & -> & _ & Lf & Lr).
      rewrite !length_app, Lf, Lr. cbn [length]. lia.
    - rewrite Hff, Hfr, !length_app, !repeat_length. cbn [length]. lia. }
  split; [|split; [|split; [|split]]].
  - intros i j Hi Hj. unfold interacts. rewrite (Hnth_old i Hi).
    destruct (nth_error (groups w) i) as [g|] eqn:Hk;
      [|apply nth_error_None in Hk; unfold n in Hi; lia].
    unfold ref in *. rewrite (nth_error_nth _ _ O Hk).
    destruct (Hold i g Hk) as (-> & _ & -> & Lf & _).
    unfold num_at. now rewrite app_nth1 by lia.
  - intros i Hi. unfold interacts. rewrite (Hnth_old i Hi), Hnth_new. split.
    + destruct (nth_error (groups w) i) as [g|] eqn:Hk;
        [|apply nth_error_None in Hk; unfold n in Hi; lia].
      unfold ref in *. rewrite (nth_error_nth _ _ O Hk).
      destruct (Hold i g Hk) as (-> & _ & _ & Lf & _).
      unfold num_at. rewrite app_nth2 by lia. rewrite Lf, Nat.sub_diag. cbn.
      apply andb_false_r.
    + rewrite Hff, num_at_repeat_app by assumption. cbn. apply andb_false_r.
  - rewrite Hff. apply num_at_repeat_last.
  - rewrite Hfr. apply num_at_repeat_last.
  - destruct (Hrun fresh) as [_ ->]. now rewrite Hc.
Qed.

Lemma addDefaultGroup_inert_witness :
  let o := addDefaultGroup env0 true 5%nat two_groups in
  validation_error o = false /\
  groups (world_of o) = [0; 1; 5]%nat /\
  registry_ok (world_of o).
Proof.
  destruct (addDefaultGroup_inert env0 true 5%nat two_groups) as (H1 & H2 & H3 & _).
  - split.
    + repeat constructor; cbn; intuition discriminate.
    + intros g [<-|[<-|[]]]; split; reflexivity.
  - cbn. intuition discriminate.
  - split; [exact H1|]. split; [exact H2|exact H3].
Defined.

(** * Counts that are integers

    Integers of at most 53 binary digits are numbers of binary64, and sums
    and differences of such integers are computed exactly as long as the
    result has at most 53 digits. *)

Section IntegerFloats.

Local Open Scope Z_scope.

Lemma digits2_pos_unique (m : positive) (d : Z) :
  2 ^ (d - 1) <= Z.pos m < 2 ^ d -> Z.pos (digits2_pos m) = d.
Proof.
  intros [Hlo Hhi]. pose proof (digits2_pos_bounds m) as [Dlo Dhi].
  set (D := Z.pos (digits2_pos m)) in *.
  assert (HD : 1 <= D) by (unfold D; lia).
  assert (Hd : 1 <= d).
  { destruct (Z.lt_ge_cases d 1) as [H|H]; [|exact H]. exfalso.
    assert (2 ^ d <= 2 ^ 0) by (apply Z.pow_le_mono_r; lia).
    change (2 ^ 0) with 1 in *. lia. }
  destruct (Z.lt_trichotomy D d) as [H|[H|H]]; [|exact H|]; exfalso.
  - assert (2 ^ D <= 2 ^ (d - 1)) by (apply Z.pow_le_mono_r; lia). lia.
  - assert (2 ^ d <= 2 ^ (D - 1)) by (apply Z.pow_le_mono_r; lia). lia.
Qed.

Lemma digits_shift (q m : positive) (k : Z) :
  0 <= k -> Z.pos m = Z.pos q * 2 ^ k ->
  Z.pos (digits2_pos m) = Z.pos (digits2_pos q) + k.
Proof.
  intros Hk Hm. apply digits2_pos_unique.
  pose proof (digits2_pos_bounds q) as [Dlo Dhi].
  assert (Hp : 0 < 2 ^ k) by (apply Z.pow_pos_nonneg; lia).
  replace (Z.pos (digits2_pos q) + k - 1) with ((Z.pos (digits2_pos q) - 1) + k) by lia.
  rewrite !Z.pow_add_r by lia. rewrite Hm. nia.
Qed.

Lemma shr_1_double (c : Z) :
  0 <= c ->
  shr_1 {| shr_m := 2 * c; shr_r := false; shr_s := false |}
  = {| shr_m := c; shr_r := false; shr_s := false |}.
Proof. destruct c as [|p|p]; intros H; [reflexivity|reflexivity|lia]. Qed.

Lemma iter_shr_1_exact (n : positive) :
  forall c : Z, 0 <= c ->
    SpecFloat.iter_pos shr_1 n {| shr_m := c * 2 ^ Z.pos n; shr_r := false; shr_s := false |}
    = {| shr_m := c; shr_r := false; shr_s := false |}.
Proof.
  assert (Hp : forall k : positive, 0 < 2 ^ Z.pos k) by (intros; apply Z.pow_pos_nonneg; lia).
  induction n as [n IH|n IH|]; intros c Hc; cbn [SpecFloat.iter_pos].
  - rewrite pow2_xI.
    replace (c * (2 * (2 ^ Z.pos n * 2 ^ Z.pos n)))
      with (2 * (c * 2 ^ Z.pos n * 2 ^ Z.pos n)) by lia.
    pose proof (Hp n).
    rewrite shr_1_double by nia. rewrite IH by nia. now apply IH.
  - rewrite pow2_xO.
    replace (c * (2 ^ Z.pos n * 2 ^ Z.pos n)) with (c * 2 ^ Z.pos n * 2 ^ Z.pos n) by lia.
    pose proof (Hp n). rewrite IH by nia. now apply IH.
  - replace (c * 2 ^ 1) with (2 * c) by lia. now apply shr_1_double.
Qed.

Lemma shl_align_fst (m : positive) (e ez : Z) :
  ez <= e ->
  Z.pos (fst (shl_align m e ez)) = Z.pos m * 2 ^ (e - ez) /\
  snd (shl_align m e ez) = ez.
Proof.
  intros He. unfold shl_align. destruct (ez - e) as [|p|p] eqn:E; cbn [fst snd].
  - replace (e - ez) with 0 by lia. split; lia.
  - lia.
  - change (Pos.iter xO m p) with (shift_pos p m).
    rewrite shift_pos_correct, Z.pow_pos_fold.
    replace (e - ez) with (Z.pos p) by lia. split; lia.
Qed.

(** Rounding a number that is an integer of at most 53 digits yields that
    integer, with the mantissa of 53 digits. *)
Lemma round_aux_exact (s : bool) (m q : positive) (e : Z) :
  e <= Z.pos (digits2_pos q) - 53 -> Z.pos (digits2_pos q) <= 53 ->
  Z.pos m = Z.pos q * 2 ^ (- e) ->
  exists m', binary_round_aux prec emax s (Z.pos m) e loc_Exact
             = S754_finite s m' (Z.pos (digits2_pos q) - 53) /\
             Z.pos m' = Z.pos q * 2 ^ (53 - Z.pos (digits2_pos q)).
Proof.
  intros He Hq Hm. set (dq := Z.pos (digits2_pos q)) in *.
  assert (Hdq : 1 <= dq) by (unfold dq; lia).
  assert (HM : 0 < Z.pos q * 2 ^ (53 - dq)).
  { assert (0 < 2 ^ (53 - dq)) by (apply Z.pow_pos_nonneg; lia). lia. }
  destruct (Z.pos q * 2 ^ (53 - dq)) as [|m'|m'] eqn:Em'; try lia.
  exists m'. split; [|reflexivity].
  assert (Hd : Z.pos (digits2_pos m) = dq + (- e)) by (apply digits_shift; [lia|exact Hm]).
  assert (Hd' : Z.pos (digits2_pos m') = 53).
  { rewrite (digits_shift q m' (53 - dq)); [unfold dq; lia|lia|lia]. }
  assert (H1 : shr_fexp prec emax (Z.pos m) e loc_Exact
               = ({| shr_m := Z.pos m'; shr_r := false; shr_s := false |}, dq - 53)).
  { unfold shr_fexp. cbn [Zdigits2 shr_record_of_loc]. rewrite Hd.
    unfold fexp, SpecFloat.emin, prec, emax.
    replace (Z.max (dq + - e + e - 53) (3 - 1024 - 53) - e) with (dq - 53 - e) by lia.
    unfold shr. destruct (dq - 53 - e) as [|p|p] eqn:En; [| |lia].
    - assert (e = dq - 53) by lia. subst e.
      replace (- (dq - 53)) with (53 - dq) in Hm by lia.
      f_equal. f_equal. lia.
    - f_equal; [|lia].
      replace (Z.pos m) with (Z.pos m' * 2 ^ Z.pos p).
      + apply iter_shr_1_exact. lia.
      + rewrite Hm, <- Em', <- Z.mul_assoc, <- Z.pow_add_r by lia.
        f_equal. f_equal. lia. }
  assert (H2 : shr_fexp prec emax (Z.pos m') (dq - 53) loc_Exact
               = ({| shr_m := Z.pos m'; shr_r := false; shr_s := false |}, dq - 53)).
  { unfold shr_fexp. cbn [Zdigits2 shr_record_of_loc]. rewrite Hd'.
    unfold fexp, SpecFloat.emin, prec, emax.
    replace (Z.max (53 + (dq - 53) - 53) (3 - 1024 - 53) - (dq - 53)) with 0 by lia.
    reflexivity. }
  unfold binary_round_aux. rewrite H1.
  cbn [shr_m loc_of_shr_record round_nearest_even]. rewrite H2. cbn [shr_m].
  unfold prec, emax.
  replace (dq - 53 <=? 1024 - 53) with true by (symmetry; apply Z.leb_le; lia).
  reflexivity.
Qed.

Lemma round_exact (s : bool) (m q : positive) (e : Z) :
  e <= 0 -> Z.pos (digits2_pos q) <= 53 ->
  Z.pos m = Z.pos q * 2 ^ (- e) ->
  exists m', binary_round prec emax s m e
             = S754_finite s m' (Z.pos (digits2_pos q) - 53) /\
             Z.pos m' = Z.pos q * 2 ^ (53 - Z.pos (digits2_pos q)).
Proof.
  intros He Hq Hm. set (dq := Z.pos (digits2_pos q)) in *.
  assert (Hdq : 1 <= dq) by (unfold dq; lia).
  assert (Hd : Z.pos (digits2_pos m) = dq + (- e)) by (apply digits_shift; [lia|exact Hm]).
  unfold binary_round. rewrite Hd.
  unfold fexp, SpecFloat.emin, prec, emax.
  replace (Z.max (dq + - e + e - 53) (3 - 1024 - 53)) with (dq - 53) by lia.
  destruct (Z.le_gt_cases (dq - 53) e) as [Hle|Hgt].
  - destruct (shl_align_fst m e (dq - 53) Hle) as [Hf Hs].
    destruct (shl_align m e (dq - 53)) as [mz ez]. cbn [fst snd] in Hf, Hs. subst ez.
    apply round_aux_exact; [lia|exact Hq|].
    rewrite Hf, Hm, <- Z.mul_assoc, <- Z.pow_add_r by lia. f_equal. f_equal. lia.
  - unfold shl_align. destruct (dq - 53 - e) as [|p|p] eqn:E; try lia;
      apply round_aux_exact; auto; lia.
Qed.

Lemma int_float_opp (v : spec_float) (z : Z) :
  z <> 0 -> int_float v z -> int_float (SFopp v) (- z).
Proof.
  destruct z as [|q|q]; intros Hz H; [contradiction| |];
    destruct H as (m & -> & Hm & Hq); exists m; auto.
Qed.

Lemma int_float_finite (v : spec_float) (z : Z) :
  z <> 0 -> int_float v z ->
  exists s m e, v = S754_finite s m e /\ e <= 0 /\ cond_Zopp s (Z.pos m) = z * 2 ^ (- e).
Proof.
  destruct z as [|q|q]; intros Hz H; [contradiction| |];
    destruct H as (m & -> & Hm & Hq).
  - exists false, m, (Z.pos (digits2_pos q) - 53). repeat split; [lia|].
    cbn [cond_Zopp]. rewrite Hm. f_equal. f_equal. lia.
  - exists true, m, (Z.pos (digits2_pos q) - 53). repeat split; [lia|].
    cbn [cond_Zopp]. rewrite Hm.
    replace (- (Z.pos (digits2_pos q) - 53)) with (53 - Z.pos (digits2_pos q)) by lia.
    change (Z.neg q) with (- Z.pos q). lia.
Qed.

Lemma digits_le_53 (q : positive) : Z.pos q < 2 ^ 53 -> Z.pos (digits2_pos q) <= 53.
Proof.
  intros H. pose proof (digits2_pos_bounds q) as [Dlo _].
  destruct (Z.le_gt_cases (Z.pos (digits2_pos q)) 53) as [Hle|Hgt]; [exact Hle|].
  assert (2 ^ 53 <= 2 ^ (Z.pos (digits2_pos q) - 1)) by (apply Z.pow_le_mono_r; lia).
  lia.
Qed.

Lemma normalize_exact (M e z : Z) :
  e <= 0 -> M = z * 2 ^ (- e) -> Z.abs z < 2 ^ 53 ->
  int_float (binary_normalize prec emax M e false) z.
Proof.
  intros He HM Hz.
  assert (Hp : 0 < 2 ^ (- e)) by (apply Z.pow_pos_nonneg; lia).
  destruct z as [|q|q].
  - subst M. reflexivity.
  - destruct M as [|m|m]; try nia. cbn [binary_normalize int_float].
    destruct (round_exact false m q e He) as (m' & Hr & Hm'); [apply digits_le_53; lia|exact HM|].
    exists m'. repeat split; auto. apply digits_le_53. lia.
  - destruct M as [|m|m]; try nia. cbn [binary_normalize int_float].
    destruct (round_exact true m q e He) as (m' & Hr & Hm'); [apply digits_le_53; lia|nia|].
    exists m'. repeat split; auto. apply digits_le_53. lia.
Qed.

Lemma int_float_unique (v v' : spec_float) (z : Z) :
  int_float v z -> int_float v' z -> v = v'.
Proof.
  destruct z as [|q|q]; cbn; [congruence| |];
    intros (m & -> & Hm & _) (m' & -> & Hm' & _); f_equal; congruence.
Qed.

Lemma SFsub_int (u v : spec_float) (a b : Z) :
  int_float u a -> int_float v b -> Z.abs (a - b) < 2 ^ 53 ->
  int_float (SF64sub u v) (a - b).
Proof.
  intros Hu Hv Hab.
  destruct (Z.eq_dec a 0) as [->|Ha]; [|destruct (Z.eq_dec b 0) as [->|Hb]].
  - cbn in Hu. subst u. destruct (Z.eq_dec b 0) as [->|Hb].
    + cbn in Hv. subst v. reflexivity.
    + replace (0 - b) with (- b) by lia.
      pose proof (int_float_opp v b Hb Hv) as H.
      destruct (int_float_finite v b Hb Hv) as (s & m & e & -> & _). exact H.
  - cbn in Hv. subst v. replace (a - 0) with a by lia.
    destruct (int_float_finite u a Ha Hu) as (s & m & e & -> & _). exact Hu.
  - destruct (int_float_finite u a Ha Hu) as (sa & ma & ea & -> & Hea & Hma).
    destruct (int_float_finite v b Hb Hv) as (sb & mb & eb & -> & Heb & Hmb).
    unfold SF64sub, SFsub.
    destruct (shl_align_fst ma ea (Z.min ea eb)) as [Fa _]; [lia|].
    destruct (shl_align_fst mb eb (Z.min ea eb)) as [Fb _]; [lia|].
    apply normalize_exact; [lia| |exact Hab].
    rewrite Fa, Fb.
    assert (Ea : cond_Zopp sa (Z.pos ma * 2 ^ (ea - Z.min ea eb))
                 = a * 2 ^ (- Z.min ea eb)).
    { replace (- Z.min ea eb) with (- ea + (ea - Z.min ea eb)) by lia.
      rewrite Z.pow_add_r by lia. rewrite Z.mul_assoc, <- Hma. destruct sa; cbn [cond_Zopp]; lia. }
    assert (Eb : cond_Zopp sb (Z.pos mb * 2 ^ (eb - Z.min ea eb))
                 = b * 2 ^ (- Z.min ea eb)).
    { replace (- Z.min ea eb) with (- eb + (eb - Z.min ea eb)) by lia.
      rewrite Z.pow_add_r by lia. rewrite Z.mul_assoc, <- Hmb. destruct sb; cbn [cond_Zopp]; lia. }
    rewrite Ea, Eb. lia.
Qed.

Lemma SFadd_int (u v : spec_float) (a b : Z) :
  int_float u a -> int_float v b -> Z.abs (a + b) < 2 ^ 53 ->
  int_float (SF64add u v) (a + b).
Proof.
  intros Hu Hv Hab.
  destruct (Z.eq_dec a 0) as [->|Ha]; [|destruct (Z.eq_dec b 0) as [->|Hb]].
  - cbn in Hu. subst u. destruct (Z.eq_dec b 0) as [->|Hb].
    + cbn in Hv. subst v. reflexivity.
    + replace (0 + b) with b by lia.
      destruct (int_float_finite v b Hb Hv) as (s & m & e & -> & _). exact Hv.
  - cbn in Hv. subst v. replace (a + 0) with a by lia.
    destruct (int_float_finite u a Ha Hu) as (s & m & e & -> & _). exact Hu.
  - destruct (int_float_finite u a Ha Hu) as (sa & ma & ea & -> & Hea & Hma).
    destruct (int_float_finite v b Hb Hv) as (sb & mb & eb & -> & Heb & Hmb).
    unfold SF64add, SFadd.
    destruct (shl_align_fst ma ea (Z.min ea eb)) as [Fa _]; [lia|].
    destruct (shl_align_fst mb eb (Z.min ea eb)) as [Fb _]; [lia|].
    apply normalize_exact; [lia| |exact Hab].
    rewrite Fa, Fb.
    assert (Ea : cond_Zopp sa (Z.pos ma * 2 ^ (ea - Z.min ea eb))
                 = a * 2 ^ (- Z.min ea eb)).
    { replace (- Z.min ea eb) with (- ea + (ea - Z.min ea eb)) by lia.
      rewrite Z.pow_add_r by lia. rewrite Z.mul_assoc, <- Hma. destruct sa; cbn [cond_Zopp]; lia. }
    assert (Eb : cond_Zopp sb (Z.pos mb * 2 ^ (eb - Z.min ea eb))
                 = b * 2 ^ (- Z.min ea eb)).
    { replace (- Z.min ea eb) with (- eb + (eb - Z.min ea eb)) by lia.
      rewrite Z.pow_add_r by lia. rewrite Z.mul_assoc, <- Hmb. destruct sb; cbn [cond_Zopp]; lia. }
    rewrite Ea, Eb. lia.
Qed.

Lemma digits_ge (m : positive) (d : Z) :
  2 ^ (d - 1) <= Z.pos m -> d <= Z.pos (digits2_pos m).
Proof.
  intros H. pose proof (digits2_pos_bounds m) as [_ Dhi].
  destruct (Z.le_gt_cases d (Z.pos (digits2_pos m))) as [Hle|Hgt]; [exact Hle|].
  assert (2 ^ Z.pos (digits2_pos m) <= 2 ^ (d - 1)) by (apply Z.pow_le_mono_r; lia).
  lia.
Qed.

(** The product of two integers that are not negative is exact as long as
    it has at most 53 digits. *)
Lemma SFmul_int (u v : spec_float) (a b : Z) :
  0 <= a -> 0 <= b ->
  int_float u a -> int_float v b -> a * b < 2 ^ 53 ->
  int_float (SF64mul u v) (a * b).
Proof.
  intros Ha Hb Hu Hv Hab.
  destruct a as [|qa|qa]; [|destruct b as [|qb|qb]|]; try lia.
  - cbn in Hu. subst u. rewrite Z.mul_0_l.
    destruct b as [|qb|qb]; [| |lia]; cbn in Hv.
    + subst v. reflexivity.
    + destruct Hv as (m & -> & _). reflexivity.
  - cbn in Hv. subst v. rewrite Z.mul_0_r.
    cbn in Hu. destruct Hu as (m & -> & _). reflexivity.
  - cbn [int_float] in Hu, Hv.
    destruct Hu as (ma & -> & Hma & Hda). destruct Hv as (mb & -> & Hmb & Hdb).
    change (Z.pos qa * Z.pos qb) with (Z.pos (qa * qb)) in *.
    set (da := Z.pos (digits2_pos qa)) in *. set (db := Z.pos (digits2_pos qb)) in *.
    assert (H1a : 1 <= da) by (unfold da; lia).
    assert (H1b : 1 <= db) by (unfold db; lia).
    pose proof (digits2_pos_bounds qa) as [Alo _].
    pose proof (digits2_pos_bounds qb) as [Blo _].
    fold da in Alo. fold db in Blo.
    assert (Hd : da + db - 1 <= Z.pos (digits2_pos (qa * qb))).
    { apply digits_ge. rewrite Pos2Z.inj_mul.
      replace (da + db - 1 - 1) with ((da - 1) + (db - 1)) by lia.
      rewrite Z.pow_add_r by lia.
      assert (0 < 2 ^ (da - 1)) by (apply Z.pow_pos_nonneg; lia).
      assert (0 < 2 ^ (db - 1)) by (apply Z.pow_pos_nonneg; lia).
      nia. }
    assert (Hq : Z.pos (digits2_pos (qa * qb)) <= 53) by (apply digits_le_53; lia).
    unfold SF64mul, SFmul. cbn [xorb].
    destruct (round_aux_exact false (ma * mb) (qa * qb) ((da - 53) + (db - 53)))
      as (m' & Hr & Hm'); [lia|exact Hq| |].
    + rewrite !Pos2Z.inj_mul, Hma, Hmb.
      replace (- (da - 53 + (db - 53))) with ((53 - da) + (53 - db)) by lia.
      rewrite Z.pow_add_r by lia. lia.
    + cbn [int_float]. exists m'. repeat split; auto.
Qed.

(** The number of an integer below 2^63 is a zero or a positive number. *)
Lemma binary_normalize_finite (M : Z) :
  0 <= M < 2 ^ 63 ->
  match binary_normalize prec emax M 0 false with
  | S754_zero false | S754_finite false _ _ => True
  | _ => False
  end.
Proof.
  intros HM. destruct M as [|p|p]; try lia; [exact I|].
  cbn [binary_normalize]. unfold binary_round.
  pose proof (digits2_pos_bounds p) as [Dlo Dhi].
  set (d := Z.pos (digits2_pos p)) in *.
  assert (Hd1 : 1 <= d) by (unfold d; lia).
  assert (Hfexp : fexp prec emax (d + 0) = d - 53)
    by (unfold fexp, SpecFloat.emin, prec, emax; lia).
  rewrite Hfexp.
  destruct (Z.le_gt_cases (d - 53) 0) as [Hle|Hgt].
  - destruct (shl_align_fst p 0 (d - 53) Hle) as [Hf Hs].
    destruct (shl_align p 0 (d - 53)) as [mz ez]. cbn [fst snd] in Hf, Hs. subst ez.
    destruct (binary_round_aux_finite false (Z.pos mz) (d - 53) loc_Exact)
      as (m' & e' & ->); [|lia|exact I].
    rewrite Hf. split; [lia|].
    assert (2 ^ d * 2 ^ (0 - (d - 53)) = 2 ^ 53).
    { rewrite <- Z.pow_add_r by lia. f_equal. lia. }
    assert (0 < 2 ^ (0 - (d - 53))) by (apply Z.pow_pos_nonneg; lia).
    assert (2 ^ 53 < 2 ^ 63) by reflexivity. nia.
  - unfold shl_align. destruct (d - 53 - 0) as [|k|k] eqn:E; try lia.
    destruct (binary_round_aux_finite false (Z.pos p) 0 loc_Exact)
      as (m' & e' & ->); [lia|lia|exact I].
Qed.

Lemma SFcompare_int (u v : spec_float) (a b : Z) :
  int_float u a -> b = 0 -> v = S754_zero false ->
  SFcompare u v = Some (a ?= 0) /\ SFcompare v u = Some (0 ?= a).
Proof.
  intros Hu -> ->. destruct a as [|q|q]; cbn in Hu.
  - subst u. split; reflexivity.
  - destruct Hu as (m & -> & _). split; reflexivity.
  - destruct Hu as (m & -> & _). split; reflexivity.
Qed.

End IntegerFloats.

Example Math_round_examples :
  Math_round 2.5 = 3 /\ Math_round (-2.5) = -2 /\ Math_round 0.5 = 1 /\
  Math_round 0.25 = 0 /\ Math_round (-0.5) = neg_zero /\ Math_round (-0.75) = -1 /\
  Math_round 0x1.fffffffffffffp-2 = 0 /\ Math_round 7 = 7 /\
  Math_round infinity = infinity /\ Math_round nan = nan.
Proof. repeat split; reflexivity. Qed.

Lemma wB_value : Uint63Axioms.wB = 9223372036854775808%Z.
Proof. reflexivity. Qed.

Lemma of_len_int (n : nat) :
  (Z.of_nat n < 2 ^ 53)%Z -> int_float (Prim2SF (of_len n)) (Z.of_nat n).
Proof.
  intros Hn. unfold of_len. rewrite of_uint63_spec, Uint63.of_Z_spec, wB_value.
  rewrite Z.mod_small by lia.
  apply normalize_exact; [lia|cbn; lia|lia].
Qed.

Lemma of_int_int (z : Z) :
  (Z.abs z < 2 ^ 53)%Z -> int_float (Prim2SF (of_int z)) z.
Proof.
  intros Hz. unfold of_int. destruct (Z.ltb_spec z 0) as [Hneg|Hpos].
  - rewrite opp_spec. replace z with (- Z.of_nat (Z.to_nat (- z)))%Z at 2 by lia.
    apply int_float_opp; [lia|]. apply of_len_int. lia.
  - replace z with (Z.of_nat (Z.to_nat z)) at 2 by lia. apply of_len_int. lia.
Qed.

Lemma int_float_eq (v : spec_float) (a b : Z) :
  a = b -> int_float v a -> int_float v b.
Proof. now intros ->. Qed.

Lemma sub_int (u v : float) (a b : Z) :
  int_float (Prim2SF u) a -> int_float (Prim2SF v) b -> (Z.abs (a - b) < 2 ^ 53)%Z ->
  int_float (Prim2SF (u - v)) (a - b).
Proof. rewrite sub_spec. apply SFsub_int. Qed.

Lemma add_int (u v : float) (a b : Z) :
  int_float (Prim2SF u) a -> int_float (Prim2SF v) b -> (Z.abs (a + b) < 2 ^ 53)%Z ->
  int_float (Prim2SF (u + v)) (a + b).
Proof. rewrite add_spec. apply SFadd_int. Qed.

(** The comparisons of an integer with [0]. *)
Lemma mul_int (u v : float) (a b : Z) :
  (0 <= a)%Z -> (0 <= b)%Z ->
  int_float (Prim2SF u) a -> int_float (Prim2SF v) b -> (a * b < 2 ^ 53)%Z ->
  int_float (Prim2SF (u * v)) (a * b).
Proof. intros. rewrite mul_spec. now apply SFmul_int. Qed.

Lemma int_compare_zero (d : float) (z : Z) :
  int_float (Prim2SF d) z ->
  (d =? 0) = (z =? 0)%Z /\ (d <? 0) = (z <? 0)%Z /\ (0 <? d) = (0 <? z)%Z.
Proof.
  intros H. rewrite FloatAxioms.eqb_spec, !ltb_spec. unfold SFeqb, SFltb.
  change (Prim2SF 0) with (S754_zero false).
  destruct z as [|q|q]; cbn [int_float] in H;
    [rewrite H | destruct H as (m & -> & _) | destruct H as (m & -> & _)];
    repeat split; reflexivity.
Qed.

Lemma integer_value_int (v : float) (z : Z) :
  int_float (Prim2SF v) z -> integer_value v = Some z.
Proof.
  unfold integer_value. intros H.
  destruct z as [|q|q]; cbn [int_float] in H.
  - now rewrite H.
  - destruct H as (m & -> & Hm & Hq).
    set (dq := Z.pos (digits2_pos q)) in *.
    destruct (Z.leb_spec 0 (dq - 53)) as [H0|H0].
    + assert (dq = 53%Z) by lia. replace (dq - 53)%Z with 0%Z by lia.
      cbn [cond_Zopp]. f_equal. rewrite Hm.
      replace (53 - dq)%Z with 0%Z by lia. lia.
    + replace (- (dq - 53))%Z with (53 - dq)%Z by lia.
      assert (Hp : (0 < 2 ^ (53 - dq))%Z) by (apply Z.pow_pos_nonneg; lia).
      rewrite Hm, Z.mod_mul by lia. cbn [Z.eqb cond_Zopp].
      now rewrite Z.div_mul by lia.
  - destruct H as (m & -> & Hm & Hq).
    set (dq := Z.pos (digits2_pos q)) in *.
    destruct (Z.leb_spec 0 (dq - 53)) as [H0|H0].
    + assert (dq = 53%Z) by lia. replace (dq - 53)%Z with 0%Z by lia.
      cbn [cond_Zopp]. f_equal. rewrite Hm.
      replace (53 - dq)%Z with 0%Z by lia. lia.
    + replace (- (dq - 53))%Z with (53 - dq)%Z by lia.
      assert (Hp : (0 < 2 ^ (53 - dq))%Z) by (apply Z.pow_pos_nonneg; lia).
      rewrite Hm, Z.mod_mul by lia. cbn [Z.eqb cond_Zopp].
      rewrite Z.div_mul by lia. reflexivity.
Qed.

Lemma loop_bound_int (d : float) (z : Z) :
  (0 < z)%Z -> int_float (Prim2SF d) z -> loop_bound d = Some z.
Proof.
  unfold loop_bound. intros Hz H.
  destruct z as [|q|q]; try lia. cbn [int_float] in H.
  destruct H as (m & -> & Hm & Hq).
  set (dq := Z.pos (digits2_pos q)) in *.
  destruct (Z.leb_spec 0 (dq - 53)) as [H0|H0].
  - assert (dq = 53%Z) by lia. replace (dq - 53)%Z with 0%Z by lia.
    f_equal. rewrite Hm. replace (53 - dq)%Z with 0%Z by lia. lia.
  - replace (- (dq - 53))%Z with (53 - dq)%Z by lia.
    assert (Hp : (0 < 2 ^ (53 - dq))%Z) by (apply Z.pow_pos_nonneg; lia).
    f_equal. rewrite Hm.
    replace (Z.pos q * 2 ^ (53 - dq) + 2 ^ (53 - dq) - 1)%Z
      with ((2 ^ (53 - dq) - 1) + Z.pos q * 2 ^ (53 - dq))%Z by lia.
    rewrite Z.div_add by lia. rewrite Z.div_small by lia. lia.
Qed.

Lemma new_particles_length (env : Env) (k : nat) :
  forall i, length (new_particles env i k) = k.
Proof. induction k as [|k IH]; intros i; cbn [new_particles length]; auto. Qed.

(** The three ways of [updateParticleCount] to return. *)
Lemma updateParticleCount_same (env : Env) (g : ref) (w : World) :
  (count (objs w g) - of_len (length (items (objs w g))) =? 0) = true ->
  updateParticleCount env g w = Return tt w.
Proof. intros H. unfold updateParticleCount. cbv zeta. now rewrite H. Qed.

Lemma updateParticleCount_shrink (env : Env) (g : ref) (w : World) (k : nat) :
  let its := items (objs w g) in
  let d := count (objs w g) - of_len (length its) in
  (d =? 0) = false -> (d <? 0) = true ->
  to_array_length (of_len (length its) + d) = Some k ->
  updateParticleCount env g w
  = Return tt (mkWorld (set_items (objs w) g (firstn k its)) (groups w)).
Proof.
  cbv zeta. intros H1 H2 H3. unfold updateParticleCount. cbv zeta.
  now rewrite H1, H2, H3.
Qed.

Lemma updateParticleCount_invalid (env : Env) (g : ref) (w : World) :
  let its := items (objs w g) in
  let d := count (objs w g) - of_len (length its) in
  (d =? 0) = false -> (d <? 0) = true ->
  to_array_length (of_len (length its) + d) = None ->
  updateParticleCount env g w = Throw InvalidArrayLength w.
Proof.
  cbv zeta. intros H1 H2 H3. unfold updateParticleCount. cbv zeta.
  now rewrite H1, H2, H3.
Qed.

Lemma updateParticleCount_grow (env : Env) (g : ref) (w : World) (k : Z) :
  let its := items (objs w g) in
  let d := count (objs w g) - of_len (length its) in
  (d =? 0) = false -> (d <? 0) = false -> (0 <? d) = true ->
  loop_bound d = Some k ->
  (k <=? MAX_ARRAY_LENGTH - Z.of_nat (length its))%Z = true ->
  updateParticleCount env g w
  = Return tt (mkWorld (set_items (objs w) g (its ++ new_particles env 0 (Z.to_nat k)))
                       (groups w)).
Proof.
  cbv zeta. intros H1 H2 H3 H4 H5. unfold updateParticleCount. cbv zeta.
  now rewrite H1, H2, H3, H4, H5.
Qed.

Lemma MAX_ARRAY_LENGTH_small : (MAX_ARRAY_LENGTH < 2 ^ 52)%Z.
Proof. reflexivity. Qed.

Lemma set_items_count (h : heap) (g : ref) (its : list Particle) :
  count (set_items h g its g) = count (h g).
Proof. apply set_items_tables. Qed.

(** The reconciliation for a count that is an integer in the range of
    array lengths. *)
Lemma updateParticleCount_integer (env : Env) (group : ref) (w : World) (n : nat) :
  int_float (Prim2SF (count (objs w group))) (Z.of_nat n) ->
  (Z.of_nat n <= MAX_ARRAY_LENGTH)%Z ->
  (Z.of_nat (length (items (objs w group))) <= MAX_ARRAY_LENGTH)%Z ->
  let its := items (objs w group) in
  let w' := world_of (updateParticleCount env group w) in
  updateParticleCount env group w = Return tt w' /\
  items (objs w' group)
    = (if (n <=? length its)%nat then firstn n its
       else its ++ new_particles env 0 (n - length its)) /\
  length (items (objs w' group)) = n /\
  updateParticleCount env group w' = Return tt w'.
Proof.
  intros Hc Hn Hl. cbv zeta.
  pose proof MAX_ARRAY_LENGTH_small as HM.
  set (its := items (objs w group)) in *.
  assert (Hd : int_float (Prim2SF (count (objs w group) - of_len (length its)))
                 (Z.of_nat n - Z.of_nat (length its))).
  { apply sub_int; [exact Hc|apply of_len_int; lia|lia]. }
  destruct (int_compare_zero _ _ Hd) as (E0 & E1 & E2).
  assert (Hresult : exists w1,
            updateParticleCount env group w = Return tt w1 /\
            count (objs w1 group) = count (objs w group) /\
            items (objs w1 group)
              = (if (n <=? length its)%nat then firstn n its
                 else its ++ new_particles env 0 (n - length its)) /\
            length (items (objs w1 group)) = n).
  { destruct (Nat.lt_trichotomy n (length its)) as [Hlt|[Heq|Hgt]].
    - exists (mkWorld (set_items (objs w) group (firstn n its)) (groups w)).
      cbn [objs]. rewrite set_items_same, set_items_count.
      replace (n <=? length its)%nat with true by (symmetry; apply Nat.leb_le; lia).
      split; [|split; [reflexivity|split; [reflexivity|rewrite length_firstn; lia]]].
      apply updateParticleCount_shrink; fold its.
      + rewrite E0. apply Z.eqb_neq. lia.
      + rewrite E1. apply Z.ltb_lt. lia.
      + unfold to_array_length.
        rewrite (integer_value_int _ (Z.of_nat n)).
        * replace ((0 <=? Z.of_nat n) && (Z.of_nat n <=? MAX_ARRAY_LENGTH))%Z with true.
          -- now rewrite Nat2Z.id.
          -- symmetry. apply andb_true_intro. split; apply Z.leb_le; lia.
        * replace (Z.of_nat n) with (Z.of_nat (length its)
                                       + (Z.of_nat n - Z.of_nat (length its)))%Z by lia.
          apply add_int; [apply of_len_int; lia|exact Hd|lia].
    - exists w. fold its.
      replace (n <=? length its)%nat with true by (symmetry; apply Nat.leb_le; lia).
      split; [|split; [reflexivity|split; [subst n; now rewrite firstn_all|now symmetry]]].
      apply updateParticleCount_same. fold its. rewrite E0. apply Z.eqb_eq. lia.
    - exists (mkWorld (set_items (objs w) group
                         (its ++ new_particles env 0 (n - length its))) (groups w)).
      cbn [objs]. rewrite set_items_same, set_items_count.
      replace (n <=? length its)%nat with false by (symmetry; apply Nat.leb_gt; lia).
      split; [|split; [reflexivity|split;
                 [reflexivity|rewrite length_app, new_particles_length; lia]]].
      replace (n - length its)%nat
        with (Z.to_nat (Z.of_nat n - Z.of_nat (length its))) by lia.
      apply updateParticleCount_grow; fold its.
      + rewrite E0. apply Z.eqb_neq. lia.
      + rewrite E1. apply Z.ltb_ge. lia.
      + rewrite E2. apply Z.ltb_lt. lia.
      + apply loop_bound_int; [lia|exact Hd].
      + apply Z.leb_le. lia. }
  destruct Hresult as (w1 & Hupd & Hcount & Hits & Hlen).
  rewrite Hupd. cbn [world_of].
  split; [reflexivity|]. split; [exact Hits|]. split; [exact Hlen|].
  apply updateParticleCount_same.
  rewrite Hcount, Hlen.
  assert (H0 : int_float (Prim2SF (count (objs w group) - of_len n))
                 (Z.of_nat n - Z.of_nat n)).
  { apply sub_int; [exact Hc|apply of_len_int; lia|lia]. }
  destruct (int_compare_zero _ _ H0) as (-> & _). apply Z.eqb_eq. lia.
Qed.

(** A count that is a negative integer. *)
Lemma updateParticleCount_negative (env : Env) (group : ref) (w : World) (z : Z) :
  int_float (Prim2SF (count (objs w group))) z ->
  (z < 0)%Z -> (- 2 ^ 52 < z)%Z ->
  (Z.of_nat (length (items (objs w group))) <= MAX_ARRAY_LENGTH)%Z ->
  updateParticleCount env group w = Throw InvalidArrayLength w.
Proof.
  intros Hc Hz Hz' Hl. pose proof MAX_ARRAY_LENGTH_small as HM.
  set (its := items (objs w group)) in *.
  assert (Hd : int_float (Prim2SF (count (objs w group) - of_len (length its)))
                 (z - Z.of_nat (length its))).
  { apply sub_int; [exact Hc|apply of_len_int; lia|lia]. }
  destruct (int_compare_zero _ _ Hd) as (E0 & E1 & E2).
  apply updateParticleCount_invalid; fold its.
  - rewrite E0. apply Z.eqb_neq. lia.
  - rewrite E1. apply Z.ltb_lt. lia.
  - unfold to_array_length. rewrite (integer_value_int _ z).
    + replace (0 <=? z)%Z with false by (symmetry; apply Z.leb_gt; lia). reflexivity.
    + apply (int_float_eq _ (Z.of_nat (length its) + (z - Z.of_nat (length its)))%Z);
        [lia|].
      apply add_int; [apply of_len_int; lia|exact Hd|lia].
Qed.

(** X15.  [updateParticleCount] reconciles an integer count.  When
    [count] is an integer [n] in the range of array lengths, the call returns
    and leaves [n] particles: the first [n] of those it found when there were
    more, else those it found followed by new ones; and a second call changes
    nothing. *)
Theorem updateParticleCount_reconciles (env : Env) (group : ref) (w : World) (n : nat) :
  count (objs w group) = of_len n ->
  (Z.of_nat n <= MAX_ARRAY_LENGTH)%Z ->
  (Z.of_nat (length (items (objs w group))) <= MAX_ARRAY_LENGTH)%Z ->
  let its := items (objs w group) in
  let w' := world_of (updateParticleCount env group w) in
  updateParticleCount env group w = Return tt w' /\
  items (objs w' group)
    = (if (n <=? length its)%nat then firstn n its
       else its ++ new_particles env 0 (n - length its)) /\
  length (items (objs w' group)) = n /\
  updateParticleCount env group w' = Return tt w'.
Proof.
  intros Hc Hn Hl. apply updateParticleCount_integer; auto.
  rewrite Hc. apply of_len_int. pose proof MAX_ARRAY_LENGTH_small. lia.
Qed.

Lemma updateParticleCount_reconciles_witness :
  let w := counted 2 [kernel_a; kernel_b; kernel_far] in
  let w' := world_of (updateParticleCount env0 O w) in
  updateParticleCount env0 O w = Return tt w' /\
  items (objs w' O) = firstn 2 [kernel_a; kernel_b; kernel_far] /\
  length (items (objs w' O)) = 2%nat /\
  updateParticleCount env0 O w' = Return tt w'.
Proof.
  apply (updateParticleCount_reconciles env0 O
           (counted 2 [kernel_a; kernel_b; kernel_far]) 2).
  - reflexivity.
  - unfold MAX_ARRAY_LENGTH. lia.
  - unfold MAX_ARRAY_LENGTH. cbn [counted objs items length]. lia.
Defined.

Lemma nan_sub (v : float) : nan - v = nan.
Proof.
  apply Prim2SF_inj. rewrite sub_spec. change (Prim2SF nan) with S754_nan. reflexivity.
Qed.

(** X16.  Counts that are not lengths.  A [count] that is [NaN] is
    ignored: the call returns and changes nothing.  A [count] that is a
    negative integer makes the call throw the [RangeError] of an invalid array
    length, with nothing changed, however many particles there are. *)
Theorem updateParticleCount_bad_counts (env : Env) (group : ref) (w : World) :
  (count (objs w group) = nan -> updateParticleCount env group w = Return tt w) /\
  (forall z : Z,
     count (objs w group) = of_int z -> (z < 0)%Z -> (- 2 ^ 52 < z)%Z ->
     (Z.of_nat (length (items (objs w group))) <= MAX_ARRAY_LENGTH)%Z ->
     updateParticleCount env group w = Throw InvalidArrayLength w).
Proof.
  split.
  - intros Hc. unfold updateParticleCount. cbv zeta. rewrite Hc, nan_sub. reflexivity.
  - intros z Hc Hz Hz' Hl. apply (updateParticleCount_negative env group w z); auto.
    rewrite Hc. apply of_int_int. lia.
Qed.

Lemma updateParticleCount_bad_counts_witness :
  updateParticleCount env0 O (counted nan [kernel_a]) = Return tt (counted nan [kernel_a]) /\
  updateParticleCount env0 O (counted (-3) [kernel_a])
    = Throw InvalidArrayLength (counted (-3) [kernel_a]).
Proof.
  destruct (updateParticleCount_bad_counts env0 O (counted nan [kernel_a])) as [H1 _].
  destruct (updateParticleCount_bad_counts env0 O (counted (-3) [kernel_a])) as [_ H2].
  split.
  - apply H1. reflexivity.
  - apply (H2 (-3)%Z).
    + reflexivity.
    + lia.
    + lia.
    + unfold MAX_ARRAY_LENGTH. cbn [counted objs items length]. lia.
Defined.

Section RoundInteger.

Local Open Scope Z_scope.

Lemma round_half_pos (q k : Z) : 0 < k -> (q * k * 2 + k) / (2 * k) = q.
Proof.
  intros Hk. symmetry. apply (Z.div_unique_pos _ _ q k); lia.
Qed.

End RoundInteger.

(** [Math.round] leaves an integer as it is. *)
Lemma Math_round_int (v : float) (z : Z) :
  int_float (Prim2SF v) z -> Math_round v = v.
Proof.
  intros H. unfold Math_round.
  destruct z as [|q|q]; cbn [int_float] in H.
  - now rewrite H.
  - pose proof H as H'. destruct H as (m & Hv & Hm & Hq). rewrite Hv.
    set (dq := Z.pos (digits2_pos q)) in *.
    destruct (Z.leb_spec 0 (dq - 53)) as [H0|H0]; [reflexivity|].
    assert (Hp : (0 < 2 ^ (53 - dq))%Z) by (apply Z.pow_pos_nonneg; lia).
    cbn [cond_Zopp].
    replace (- (dq - 53))%Z with (53 - dq)%Z by lia.
    replace (1 - (dq - 53))%Z with (Z.succ (53 - dq)) by lia.
    rewrite Z.pow_succ_r by lia. rewrite Hm, round_half_pos by lia.
    cbn [Z.eqb]. apply Prim2SF_inj.
    apply (int_float_unique _ _ (Z.pos q)); [|exact H']. 
    apply of_int_int. pose proof (digits2_pos_bounds q) as [_ Hhi]. fold dq in Hhi.
    assert (2 ^ dq <= 2 ^ 53)%Z by (apply Z.pow_le_mono_r; lia). lia.
  - pose proof H as H'. destruct H as (m & Hv & Hm & Hq). rewrite Hv.
    set (dq := Z.pos (digits2_pos q)) in *.
    destruct (Z.leb_spec 0 (dq - 53)) as [H0|H0]; [reflexivity|].
    assert (Hp : (0 < 2 ^ (53 - dq))%Z) by (apply Z.pow_pos_nonneg; lia).
    cbn [cond_Zopp].
    replace (- (dq - 53))%Z with (53 - dq)%Z by lia.
    replace (1 - (dq - 53))%Z with (Z.succ (53 - dq)) by lia.
    rewrite Z.pow_succ_r by lia. rewrite Hm.
    replace (- (Z.pos q * 2 ^ (53 - dq)) * 2 + 2 ^ (53 - dq))%Z
      with ((Z.neg q) * 2 ^ (53 - dq) * 2 + 2 ^ (53 - dq))%Z by lia.
    rewrite round_half_pos by lia.
    cbn [Z.eqb]. apply Prim2SF_inj.
    apply (int_float_unique _ _ (Z.neg q)); [|exact H'].
    apply of_int_int. pose proof (digits2_pos_bounds q) as [_ Hhi]. fold dq in Hhi.
    assert (2 ^ dq <= 2 ^ 53)%Z by (apply Z.pow_le_mono_r; lia). lia.
Qed.

Lemma addGroup_loop_count (group : ref) (todo : list ref) :
  forall (i : nat) (w : World) (g : ref),
    count (objs (world_of (addGroup_loop group todo i w)) g) = count (objs w g).
Proof.
  induction todo as [|g0 rest IH]; intros i w g; [reflexivity|].
  cbn [addGroup_loop]. destruct (_ <? _); [reflexivity|].
  rewrite IH. cbn [objs]. unfold push_entry, set_tables.
  destruct (Nat.eq_dec g g0) as [->|Hne].
  - now rewrite upd_same.
  - now rewrite upd_other.
Qed.

(** X17.  [addGroup] populates the group.  When [addGroup] raises no
    validation error and the [count] of the group is an integer [n] in the
    range of array lengths, the call returns the group, registered at the end
    of the registry and holding [n] particles; for a group that came without
    particles these are the [n] new particles of [updateParticleCount]. *)
Theorem addGroup_populates (env : Env) (group : ref) (w : World) (n : nat) :
  validation_error (addGroup env group w) = false ->
  count (objs w group) = of_len n ->
  (Z.of_nat n <= MAX_ARRAY_LENGTH)%Z ->
  (Z.of_nat (length (items (objs w group))) <= MAX_ARRAY_LENGTH)%Z ->
  let w' := world_of (addGroup env group w) in
  addGroup env group w = Return group w' /\
  groups w' = groups w ++ [group] /\
  length (items (objs w' group)) = n /\
  (items (objs w group) = [] -> items (objs w' group) = new_particles env 0 n).
Proof.
  intros Hv Hc Hn Hl. cbv zeta.
  destruct (addGroup_unfold env group w Hv) as (w1 & Hloop & Hw).
  pose proof (addGroup_loop_groups group (groups w) 0 w) as Hg.
  pose proof (addGroup_loop_count group (groups w) 0 w group) as Hc1.
  destruct (addGroup_loop_running group (groups w) 0 w group) as (_ & _ & Hi1).
  rewrite Hloop in Hg, Hc1, Hi1. cbn [world_of] in Hg, Hc1, Hi1.
  set (w2 := mkWorld (objs w1) (groups w ++ [group])) in *.
  destruct (updateParticleCount_integer env group w2 n) as (H1 & H2 & H3 & _).
  - unfold w2. cbn [objs]. rewrite Hc1, Hc. apply of_len_int.
    pose proof MAX_ARRAY_LENGTH_small. lia.
  - exact Hn.
  - unfold w2. cbn [objs]. now rewrite Hi1.
  - rewrite Hw. split; [|split; [|split]].
    + unfold addGroup. rewrite Hloop, Hg. fold w2. now rewrite H1.
    + now rewrite updateParticleCount_groups.
    + exact H3.
    + intros He. rewrite H2. unfold w2. cbn [objs]. rewrite Hi1, He. cbn [length].
      replace (n <=? 0)%nat with (Nat.eqb n 0) by now destruct n.
      destruct n; cbn [Nat.eqb]; [reflexivity|]. now rewrite Nat.sub_0_r.
Qed.

Lemma addGroup_populates_witness :
  let w := mkWorld (upd two_groups_store 3%nat
                        (mkGroup [] 4 [0.5; 0.5; 0.5] [50; 50; 2] 5 true)) [0; 1]%nat in
  let w' := world_of (addGroup env0 3%nat w) in
  addGroup env0 3%nat w = Return 3%nat w' /\
  groups w' = [0; 1]%nat ++ [3%nat] /\
  length (items (objs w' 3%nat)) = 4%nat /\
  (items (objs w 3%nat) = [] -> items (objs w' 3%nat) = new_particles env0 0 4).
Proof.
  apply (addGroup_populates env0 3%nat
           (mkWorld (upd two_groups_store 3%nat
                         (mkGroup [] 4 [0.5; 0.5; 0.5] [50; 50; 2] 5 true)) [0; 1]%nat) 4).
  - reflexivity.
  - reflexivity.
  - unfold MAX_ARRAY_LENGTH. lia.
  - unfold MAX_ARRAY_LENGTH. cbn. lia.
Defined.

Lemma set_count_same (h : heap) (g : ref) (c : float) :
  set_count h g c g =
    mkGroup (items (h g)) c (forces (h g)) (ranges (h g)) (particleRadius (h g))
            (isRunning (h g)).
Proof. unfold set_count. apply upd_same. Qed.

(** X18.  [addParticles(group, step)] on integers: with [count] an
    integer [c] and [step] an integer [s], both within the range of array
    lengths, the count becomes [c - s].  When that is in the range of array
    lengths the call returns and the group holds [c - s] particles.  When it
    is negative ([step] asks for more particles than the count holds) the
    call throws the [RangeError] of an invalid array length: the particles
    are as before and the group is left with the negative count. *)
Theorem addParticles_integers (env : Env) (group : ref) (w : World) (c : nat) (s : Z) :
  count (objs w group) = of_len c ->
  (Z.of_nat c <= MAX_ARRAY_LENGTH)%Z ->
  (Z.of_nat (length (items (objs w group))) <= MAX_ARRAY_LENGTH)%Z ->
  (Z.abs s <= MAX_ARRAY_LENGTH)%Z ->
  let o := addParticles env group (of_int s) w in
  count (objs (world_of o) group) = of_int (Z.of_nat c - s) /\
  ((0 <= Z.of_nat c - s <= MAX_ARRAY_LENGTH)%Z ->
     o = Return tt (world_of o) /\
     length (items (objs (world_of o) group)) = Z.to_nat (Z.of_nat c - s)) /\
  ((Z.of_nat c - s < 0)%Z ->
     o = Throw InvalidArrayLength (world_of o) /\
     items (objs (world_of o) group) = items (objs w group)).
Proof.
  intros Hc Hcn Hl Hs. cbv zeta. pose proof MAX_ARRAY_LENGTH_small as HM.
  unfold addParticles.
  assert (Hsi : int_float (Prim2SF (of_int s)) s) by (apply of_int_int; lia).
  rewrite (Math_round_int (of_int s) s Hsi), Hc.
  assert (Hci : int_float (Prim2SF (of_len c - of_int s)) (Z.of_nat c - s)).
  { apply sub_int; [apply of_len_int; lia|exact Hsi|lia]. }
  assert (Hcount : of_len c - of_int s = of_int (Z.of_nat c - s)).
  { apply Prim2SF_inj. apply (int_float_unique _ _ (Z.of_nat c - s)); [exact Hci|].
    apply of_int_int. lia. }
  set (w1 := mkWorld (set_count (objs w) group (of_len c - of_int s)) (groups w)).
  assert (Hc1 : count (objs w1 group) = of_len c - of_int s).
  { unfold w1. cbn [objs]. now rewrite set_count_same. }
  assert (Hi1 : items (objs w1 group) = items (objs w group)).
  { unfold w1. cbn [objs]. now rewrite set_count_same. }
  split; [|split].
  - destruct (updateParticleCount_frame env group group w1) as (_ & _ & _ & _ & -> & _).
    now rewrite Hc1.
  - intros Hr.
    destruct (updateParticleCount_integer env group w1 (Z.to_nat (Z.of_nat c - s)))
      as (H1 & _ & H3 & _).
    + rewrite Hc1, Z2Nat.id by lia. exact Hci.
    + lia.
    + now rewrite Hi1.
    + split; [exact H1|exact H3].
  - intros Hneg.
    rewrite (updateParticleCount_negative env group w1 (Z.of_nat c - s)).
    + split; [reflexivity|exact Hi1].
    + now rewrite Hc1.
    + exact Hneg.
    + lia.
    + now rewrite Hi1.
Qed.

Lemma addParticles_integers_witness :
  let o := addParticles env0 O (of_int 5) (counted 2 [kernel_a; kernel_b]) in
  count (objs (world_of o) O) = of_int (Z.of_nat 2 - 5) /\
  o = Throw InvalidArrayLength (world_of o) /\
  items (objs (world_of o) O) = [kernel_a; kernel_b].
Proof.
  destruct (addParticles_integers env0 O (counted 2 [kernel_a; kernel_b]) 2 5)
    as (H1 & _ & H3).
  - reflexivity.
  - unfold MAX_ARRAY_LENGTH. lia.
  - unfold MAX_ARRAY_LENGTH. cbn [counted objs items length]. lia.
  - unfold MAX_ARRAY_LENGTH. lia.
  - split; [exact H1|]. apply H3. lia.
Defined.

(** * computationsPerFrame, a counter in binary64 *)

Lemma list_sum_filter {A : Type} (p : A -> bool) (v : A -> nat) (l : list A) :
  list_sum (map (fun a => if p a then v a else O) l) = list_sum (map v (filter p l)).
Proof.
  induction l as [|a l IH]; [reflexivity|].
  cbn [map filter]. rewrite list_sum_cons, IH.
  destruct (p a); cbn [map]; [now rewrite list_sum_cons|reflexivity].
Qed.

(** A loop that adds to a counter, in binary64, amounts that are integers:
    the counter holds the sum as long as the sum has at most 53 digits. *)
Lemma fold_left_int_sum {A : Type} (F : float -> A -> float) (row : A -> nat)
  (l : list A) :
  (forall a k z, In a l ->
     int_float (Prim2SF k) (Z.of_nat z) ->
     (Z.of_nat (z + row a) < 2 ^ 53)%Z ->
     int_float (Prim2SF (F k a)) (Z.of_nat (z + row a))) ->
  forall (k : float) (z : nat),
    int_float (Prim2SF k) (Z.of_nat z) ->
    (Z.of_nat (z + list_sum (map row l)) < 2 ^ 53)%Z ->
    int_float (Prim2SF (fold_left F l k)) (Z.of_nat (z + list_sum (map row l))).
Proof.
  induction l as [|a l IH]; intros HF k z Hk Hb.
  - cbn [map list_sum fold_left]. now rewrite Nat.add_0_r.
  - cbn [map fold_left] in Hb |- *. rewrite list_sum_cons in Hb |- *.
    rewrite Nat.add_assoc in Hb |- *. apply IH.
    + intros b k' z' Hb'. apply HF. now right.
    + apply HF; [now left|exact Hk|lia].
    + exact Hb.
Qed.

(** The number of a length is a zero or a positive number, and the product
    of the numbers of two lengths is the product of the lengths as long as
    that has at most 53 digits. *)
Lemma of_len_finite (n : nat) :
  match Prim2SF (of_len n) with
  | S754_zero false | S754_finite false _ _ => True
  | _ => False
  end.
Proof.
  unfold of_len. rewrite of_uint63_spec. apply binary_normalize_finite.
  pose proof (Uint63.to_Z_bounded (Uint63.of_Z (Z.of_nat n))) as H.
  rewrite wB_value in H. exact H.
Qed.

Lemma of_len_mul (a b : nat) :
  (Z.of_nat (a * b) < 2 ^ 53)%Z ->
  int_float (Prim2SF (of_len a * of_len b)) (Z.of_nat (a * b)).
Proof.
  intros Hab. destruct a as [|a]; [|destruct b as [|b]].
  - rewrite mul_spec. change (Prim2SF (of_len 0)) with (S754_zero false).
    pose proof (of_len_finite b) as Hb.
    destruct (Prim2SF (of_len b)) as [[]|[]| |[] m e]; try contradiction; reflexivity.
  - rewrite mul_spec, Nat.mul_0_r. change (Prim2SF (of_len 0)) with (S754_zero false).
    pose proof (of_len_finite (S a)) as Ha.
    destruct (Prim2SF (of_len (S a))) as [[]|[]| |[] m e]; try contradiction; reflexivity.
  - rewrite Nat2Z.inj_mul in *.
    apply mul_int; try lia; apply of_len_int; nia.
Qed.

Section ExactCounter.

Variable w : World.

Let n_at (i : nat) : nat := length (items (objs w (nth i (groups w) O))).

(** The inner loop of the getter, for the row [i]. *)
Lemma computationsPerFrame_row (i : nat) (k : float) (z : nat) :
  let row := list_sum (map (fun j => (n_at i * n_at j)%nat)
                           (filter (interacts (objs w) (groups w) i)
                                   (seq 0 (length (groups w))))) in
  int_float (Prim2SF k) (Z.of_nat z) ->
  (Z.of_nat (z + row) < 2 ^ 53)%Z ->
  int_float
    (Prim2SF
       (fold_left (fun k j =>
          let gi := objs w (nth i (groups w) O) in
          let gj := objs w (nth j (groups w) O) in
          if negb (isRunning gi) || (num_at (forces gi) j =? 0) then k
          else k + of_len (length (items gi)) * of_len (length (items gj)))
          (seq 0 (length (groups w))) k))
    (Z.of_nat (z + row)).
Proof.
  intros row Hk Hb. unfold row in *.
  rewrite <- list_sum_filter in *.
  apply (fold_left_int_sum _
           (fun j => if interacts (objs w) (groups w) i j
                     then (n_at i * n_at j)%nat else O)); [|exact Hk|exact Hb].
  intros j k' z' Hj Hk' Hb'. cbv zeta. unfold interacts in *.
  destruct (isRunning (objs w (nth i (groups w) O))); cbn [negb orb andb] in *;
    [|now rewrite Nat.add_0_r].
  destruct (num_at (forces (objs w (nth i (groups w) O))) j =? 0); cbn [negb] in *;
    [now rewrite Nat.add_0_r|].
  rewrite Nat2Z.inj_add in *.
  apply add_int; [exact Hk'| |lia].
  apply of_len_mul. lia.
Qed.

Lemma computationsPerFrame_exact :
  (Z.of_nat (sum_of_pair_products w) < 2 ^ 53)%Z ->
  int_float (Prim2SF (computationsPerFrame w)) (Z.of_nat (sum_of_pair_products w)).
Proof.
  intros Hb. rewrite sum_of_pair_products_rows in *.
  unfold computationsPerFrame. cbv zeta.
  apply (fold_left_int_sum _
           (fun i => list_sum (map (fun j => (n_at i * n_at j)%nat)
                                   (filter (interacts (objs w) (groups w) i)
                                           (seq 0 (length (groups w))))))
           (seq 0 (length (groups w))) ) with (z := O); [|reflexivity|exact Hb].
  intros i k z _ Hk Hz.
  apply (computationsPerFrame_row i k z); [exact Hk|exact Hz].
Qed.

End ExactCounter.

Lemma computationsPerFrame_crowd (n : nat) :
  computationsPerFrame (crowd n) = 0 + of_len n * of_len n /\
  sum_of_pair_products (crowd n) = (n * n)%nat.
Proof.
  unfold computationsPerFrame, sum_of_pair_products, interacting_pairs, interacts, crowd.
  cbn [groups objs length seq fold_left nth isRunning forces items negb orb andb num_at
       list_prod map app filter fst snd].
  change (1 =? 0) with false. cbn [negb filter map fst snd]. rewrite list_sum_cons.
  rewrite repeat_length. split; [reflexivity|]. cbn. lia.
Qed.

Lemma crowd_is_rounded (n : nat) :
  Z.of_nat n = 134217729%Z ->
  integer_value (computationsPerFrame (crowd n)) = Some 18014398777917440%Z /\
  Z.of_nat (sum_of_pair_products (crowd n)) = 18014398777917441%Z.
Proof.
  intros Hn. destruct (computationsPerFrame_crowd n) as [-> ->].
  rewrite Nat2Z.inj_mul. unfold of_len. rewrite Hn. split; reflexivity.
Qed.

(** The claim C10 as it is worded fails above 2^53: for one running group
    of 2^27 + 1 particles that interacts with itself, the sum of the products
    is (2^27 + 1)^2 = 18014398777917441, which no number holds; the getter
    returns 18014398777917440. *)
Lemma computationsPerFrame_sum_counterexample :
  ~ computationsPerFrame_as_specified (crowd (Z.to_nat 134217729)) /\
  integer_value (computationsPerFrame (crowd (Z.to_nat 134217729)))
  = Some 18014398777917440%Z /\
  Z.of_nat (sum_of_pair_products (crowd (Z.to_nat 134217729))) = 18014398777917441%Z.
Proof.
  assert (Hn : Z.of_nat (Z.to_nat 134217729) = 134217729%Z) by (apply Z2Nat.id; lia).
  destruct (crowd_is_rounded (Z.to_nat 134217729) Hn) as [H1 H2].
  split; [|split; [exact H1|exact H2]].
  unfold computationsPerFrame_as_specified. rewrite H1, H2. discriminate.
Qed.

(** C10, amended.  As long as the sum is below 2^53,
    [computationsPerFrame] is the sum, over the ordered pairs [(i, j)] of
    indices of the registry such that group [i] is running and its force
    entry for [j] is not [0], of the product of the numbers of particles of
    the two groups. *)
Theorem computationsPerFrame_sum (w : World) :
  (Z.of_nat (sum_of_pair_products w) < 2 ^ 53)%Z ->
  integer_value (computationsPerFrame w) = Some (Z.of_nat (sum_of_pair_products w)) /\
  computationsPerFrame w = of_int (Z.of_nat (sum_of_pair_products w)) /\
  sum_of_pair_products w
  = list_sum
      (map (fun p => (length (items (objs w (nth (fst p) (groups w) O))) *
                      length (items (objs w (nth (snd p) (groups w) O))))%nat)
           (interacting_pairs (objs w) (groups w))).
Proof.
  intros Hb.
  pose proof (computationsPerFrame_exact w Hb) as H.
  split; [now apply integer_value_int|]. split; [|reflexivity].
  apply Prim2SF_inj.
  apply (int_float_unique _ _ (Z.of_nat (sum_of_pair_products w))); [exact H|].
  apply of_int_int. lia.
Qed.

Lemma computationsPerFrame_sum_witness :
  integer_value (computationsPerFrame (mkWorld pair_store [0; 1]%nat)) = Some 4%Z.
Proof.
  apply (computationsPerFrame_sum (mkWorld pair_store [0; 1]%nat)). reflexivity.
Defined.

(** X7.  [computationsPerFrame] is the number of calls of
    [interactParticle] that one [step] over the registry makes.  The loops of
    [step] and [interactGroup], run with a counter that goes up by one at
    each call of the kernel, compute the state that [step] computes, and the
    counter ends at the sum of the products of the interacting pairs, for
    every registry and every store.  The getter returns that number as long
    as it is below 2^53. *)
Theorem computationsPerFrame_counts_kernel_calls (env : Env) (dt : float) (w : World) :
  fst (step_counted env (groups w) dt ((objs w, []), O))
    = step_sim env (groups w) dt (objs w, []) /\
  step_kernel_calls env (groups w) dt (objs w) = sum_of_pair_products w /\
  ((Z.of_nat (step_kernel_calls env (groups w) dt (objs w)) < 2 ^ 53)%Z ->
   integer_value (computationsPerFrame w)
   = Some (Z.of_nat (step_kernel_calls env (groups w) dt (objs w)))).
Proof.
  destruct (step_kernel_calls_sum env dt w) as [Hst Hn].
  split; [exact Hst|]. split; [exact Hn|].
  rewrite Hn. intros Hb.
  apply integer_value_int. now apply computationsPerFrame_exact.
Qed.

Lemma computationsPerFrame_counts_kernel_calls_witness :
  step_kernel_calls env_box [0; 1]%nat 0.125 pair_store = 4%nat /\
  integer_value (computationsPerFrame (mkWorld pair_store [0; 1]%nat)) = Some 4%Z.
Proof.
  destruct (computationsPerFrame_counts_kernel_calls env_box 0.125
              (mkWorld pair_store [0; 1]%nat)) as (_ & _ & H).
  split; [reflexivity|]. apply H. reflexivity.
Defined.

(** * The tuning operations *)


Lemma store_at_Forall (P : float -> Prop) (arr : list float) (i : nat) (v : float) :
  Forall P arr -> P nan -> P v -> Forall P (store_at arr i v).
Proof.
  intros Ha Hn Hv. unfold store_at. destruct (i <? length arr)%nat.
  - apply Forall_app. split.
    + rewrite <- (firstn_skipn i arr) in Ha. now apply Forall_app in Ha.
    + constructor; [exact Hv|].
      rewrite <- (firstn_skipn (S i) arr) in Ha. now apply Forall_app in Ha.
  - apply Forall_app. split; [exact Ha|]. apply Forall_app. split.
    + apply Forall_forall. intros u Hu. apply repeat_spec in Hu. now subst.
    + now constructor.
Qed.


Lemma is_nan_leb (u v : float) : is_nan u = true -> (u <=? v) = false.
Proof.
  unfold is_nan. rewrite FloatAxioms.eqb_spec, leb_spec. unfold SFeqb, SFleb.
  destruct (Prim2SF u) as [s|s| |s m e]; cbn; try reflexivity.
  - discriminate.
  - destruct s; discriminate.
  - rewrite Z.compare_refl, Pos.compare_cont_refl. destruct s; discriminate.
Qed.

Lemma not_leb_not_ltb (u v : float) : (u <=? v) = false -> (u <? v) = false.
Proof.
  intros H. destruct (u <? v) eqn:E; [|reflexivity].
  apply ltb_leb in E. congruence.
Qed.

(** What the two branches of [increaseRadius] mean. *)
Lemma increaseRadius_cases (group : ref) (step : float) (h : heap) :
  let newRadius := particleRadius (h group) - step in
  increaseRadius group step h = h \/
  (increaseRadius group step h = set_radius h group newRadius /\
   (newRadius <? 1) = false /\
   (find (fun range => range <=? newRadius) (ranges (h group)) = None \/
    exists z, find (fun range => range <=? newRadius) (ranges (h group)) = Some z /\
              truthy z = false)).
Proof.
  cbv zeta. unfold increaseRadius.
  destruct (_ <? 1); [now left|]. cbn [orb].
  destruct (find _ _) as [z|] eqn:E.
  - destruct (truthy z) eqn:T; [now left|]. right. repeat split. right. now exists z.
  - right. repeat split. now left.
Qed.

Lemma set_radius_same (h : heap) (g : ref) (r : float) :
  set_radius h g r g =
    mkGroup (items (h g)) (count (h g)) (forces (h g)) (ranges (h g)) r (isRunning (h g)).
Proof. unfold set_radius. apply upd_same. Qed.

Lemma set_tables_same (h : heap) (g : ref) (fs rs : list float) :
  set_tables h g fs rs g =
    mkGroup (items (h g)) (count (h g)) fs rs (particleRadius (h g)) (isRunning (h g)).
Proof. unfold set_tables. apply upd_same. Qed.

(** X19.  The tuning operations keep the ranges valid.  When no range of
    the group is below its radius (the test of [addGroup], on every entry),
    this still holds after [increaseRange] and after [increaseAttitude], and,
    if no range of the group is a zero, after [increaseRadius]; a changed
    radius is moreover not below [1], and no range is at or below it. *)
Theorem tuning_keeps_ranges_valid (group : ref) (i : nat) (step : float) (h : heap) :
  ranges_valid (h group) ->
  ranges_valid (increaseRange group i step h group) /\
  ranges_valid (increaseAttitude group i step h group) /\
  (Forall (fun r => is_zero r = false) (ranges (h group)) ->
   ranges_valid (increaseRadius group step h group) /\
   (increaseRadius group step h <> h ->
    (particleRadius (increaseRadius group step h group) <? 1) = false /\
    Forall (fun r => (r <=? particleRadius (increaseRadius group step h group)) = false)
           (ranges (increaseRadius group step h group)))).
Proof.
  intros Hv. unfold ranges_valid in *. split; [|split].
  - unfold increaseRange.
    destruct (_ <? particleRadius (h group)) eqn:E; [exact Hv|].
    rewrite set_tables_same. cbn [ranges particleRadius].
    apply store_at_Forall; [exact Hv | apply nan_ltb | exact E].
  - unfold increaseAttitude. rewrite set_tables_same. exact Hv.
  - intros Hz.
    destruct (increaseRadius_cases group step h) as [->|(-> & H1 & Hfind)].
    + split; [exact Hv|]. intros Hne. now contradiction Hne.
    + rewrite set_radius_same. cbn [ranges particleRadius].
      assert (Hall : Forall (fun r => (r <=? particleRadius (h group) - step) = false)
                            (ranges (h group))).
      { apply Forall_forall. intros r Hr. destruct Hfind as [Hn|(z & Hs & Ht)].
        - exact (find_none _ _ Hn r Hr).
        - exfalso. apply find_some in Hs. destruct Hs as [Hin Hle].
          unfold truthy in Ht. apply negb_false_iff, orb_true_iff in Ht.
          destruct Ht as [Ht|Ht].
          + rewrite Forall_forall in Hz. rewrite (Hz z Hin) in Ht. discriminate.
          + rewrite (is_nan_leb _ _ Ht) in Hle. discriminate. }
      split; [|intros _; split; assumption].
      eapply Forall_impl; [|exact Hall]. intros r. apply not_leb_not_ltb.
Qed.

Lemma tuning_keeps_ranges_valid_witness :
  ranges_valid (increaseRange O 0 3 two_groups_store O) /\
  ranges_valid (increaseRadius O (-2) two_groups_store O).
Proof.
  destruct (tuning_keeps_ranges_valid O 0 3 two_groups_store) as (H1 & _ & _).
  - repeat constructor.
  - destruct (tuning_keeps_ranges_valid O 0 (-2) two_groups_store) as (_ & _ & H3).
    + repeat constructor.
    + split; [exact H1|]. apply H3. repeat constructor.
Defined.

Lemma zero_leb_not_below_one (z v : float) :
  is_zero z = true -> (z <=? v) = true -> (v <? 1) = false -> (z <? v) = true.
Proof.
  unfold is_zero. rewrite FloatAxioms.eqb_spec, leb_spec, !ltb_spec.
  change (Prim2SF zero) with (S754_zero false).
  change (Prim2SF 1) with (S754_finite false 4503599627370496 (-52)).
  unfold SFeqb, SFleb, SFltb. intros Hz Hle Hlt.
  destruct (Prim2SF z) as [sz|sz| |sz mz ez];
    [|destruct sz; discriminate Hz|discriminate Hz|destruct sz; discriminate Hz].
  clear Hz.
  destruct (Prim2SF v) as [sv|sv| |sv mv ev].
  - discriminate Hlt.
  - destruct sv; [discriminate Hle|reflexivity].
  - discriminate Hle.
  - destruct sv; [discriminate Hle|reflexivity].
Qed.

(** X20.  A zero range does not hold the radius back.  [increaseRadius]
    tests the range that [find] returns for truth, and a zero is not true:
    when the first range that is not above the new radius is a zero (and the
    new radius is not below [1]), the radius is changed, and the group then
    has a range below its radius. *)
Theorem increaseRadius_ignores_zero_range (group : ref) (step : float) (h : heap)
  (z : float) :
  let newRadius := particleRadius (h group) - step in
  (newRadius <? 1) = false ->
  find (fun range => range <=? newRadius) (ranges (h group)) = Some z ->
  is_zero z = true ->
  particleRadius (increaseRadius group step h group) = newRadius /\
  ranges (increaseRadius group step h group) = ranges (h group) /\
  In z (ranges (h group)) /\
  (z <? newRadius) = true /\
  ~ ranges_valid (increaseRadius group step h group).
Proof.
  cbv zeta. intros H1 Hf Hz.
  assert (Hr : increaseRadius group step h
               = set_radius h group (particleRadius (h group) - step)).
  { unfold increaseRadius. rewrite H1, Hf. unfold truthy. now rewrite Hz. }
  destruct (find_some _ _ Hf) as [Hin Hle].
  pose proof (zero_leb_not_below_one _ _ Hz Hle H1) as Hlt.
  rewrite Hr, set_radius_same. cbn [particleRadius ranges].
  repeat split; auto.
  unfold ranges_valid. cbn [particleRadius ranges]. intros Hall.
  rewrite Forall_forall in Hall. rewrite (Hall z Hin) in Hlt. discriminate.
Qed.

Lemma increaseRadius_ignores_zero_range_witness :
  particleRadius (increaseRadius O (-1) (fun _ => zero_range_group) O) = 0 - (-1) /\
  ranges (increaseRadius O (-1) (fun _ => zero_range_group) O) = [0; 30] /\
  In 0 [0; 30] /\
  (0 <? 0 - (-1)) = true /\
  ~ ranges_valid (increaseRadius O (-1) (fun _ => zero_range_group) O).
Proof.
  apply (increaseRadius_ignores_zero_range O (-1) (fun _ => zero_range_group) 0);
    reflexivity.
Defined.




(** * random *)

Lemma addGroup_registry_ok (env : Env) (group : ref) (w : World) :
  registry_ok w -> ~ In group (groups w) ->
  length (forces (objs w group)) = S (length (groups w)) ->
  length (ranges (objs w group)) = S (length (groups w)) ->
  validation_error (addGroup env group w) = false ->
  registry_ok (world_of (addGroup env group w)) /\
  groups (world_of (addGroup env group w)) = groups w ++ [group].
Proof.
  intros [Hnd Hal] Hnin Lf Lr Hv.
  destruct (addGroup_registers env group w Hnd Hnin Hv)
    as (Hgs & Hnd' & Htab & Hff & Hfr & _).
  cbv zeta in *. split; [|exact Hgs]. split; [exact Hnd'|].
  intros g Hg. rewrite Hgs, length_app in *. cbn [length].
  apply in_app_iff in Hg. destruct Hg as [Hg|[<-|[]]].
  - destruct (In_nth_error _ _ Hg) as [k Hk].
    destruct (Htab k g Hk) as [-> ->]. rewrite !length_app. cbn [length].
    destruct (Hal g Hg) as [-> ->]. lia.
  - rewrite Hff, Hfr, Lf, Lr. lia.
Qed.

Lemma registry_ok_new_object (w : World) (g : ref) (v : Group) :
  registry_ok w -> ~ In g (groups w) ->
  registry_ok (mkWorld (upd (objs w) g v) (groups w)).
Proof.
  intros [Hnd Hal] Hnin. split; [exact Hnd|].
  intros g' Hg'. cbn [objs groups] in *.
  rewrite upd_other by (intros ->; contradiction). now apply Hal.
Qed.

Lemma fresh_not_registered (fresh : nat -> ref) (i : nat) :
  (forall a b, fresh a = fresh b -> a = b) ->
  ~ In (fresh i) (map fresh (seq 0 i)).
Proof.
  intros Hinj Hin. apply in_map_iff in Hin. destruct Hin as (j & Hj & Hin).
  apply Hinj in Hj. apply in_seq in Hin. lia.
Qed.

Section Random.

Context {Rng : Type}.
Variable params : RandomSettings Rng.
Variable env_at : nat -> Env.
Variable running : bool.
Variable fresh : nat -> ref.
Variable maxParticlesCount : float.

Hypothesis fresh_inj : forall a b, fresh a = fresh b -> a = b.
Hypothesis ranges_ok : forall min w s,
  Forall (fun r => (r <? min) = false) (fst (getRanges params min w s)) /\
  length (fst (getRanges params min w s)) = S (length (groups w)).
Hypothesis forces_ok : forall w s,
  length (fst (getForces params w s)) = S (length (groups w)).

Lemma random_loop_registry (k : nat) :
  forall (i : nat) (s : Rng) (w : World),
    registry_ok w -> groups w = map fresh (seq 0 i) ->
    let o := random_loop params env_at running fresh maxParticlesCount k i s w in
    validation_error o = false /\
    registry_ok (world_of o) /\
    exists j, i <= j <= i + k /\
              groups (world_of o) = map fresh (seq 0 j) /\
              (forall s' w', o = Return s' w' -> j = (i + k)%nat).
Proof.
  induction k as [|k IH]; intros i s w Hok Hgs; cbv zeta.
  - cbn. split; [reflexivity|]. split; [exact Hok|].
    exists i. repeat split; auto; lia.
  - cbn [random_loop].
    destruct (getSize params w s) as [radius s1].
    destruct (groupParticlesCount params maxParticlesCount w s1) as [cnt s2].
    destruct (getForces params w s2) as [fs s3] eqn:Ef.
    destruct (getRanges params radius w s3) as [rs s4] eqn:Er.
    pose proof (forces_ok w s2) as Lf. rewrite Ef in Lf. cbn [fst] in Lf.
    destruct (ranges_ok radius w s3) as [Hr Lr]. rewrite Er in Hr, Lr. cbn [fst] in Hr, Lr.
    set (G := mkGroup [] cnt fs rs radius running).
    set (w0 := mkWorld (upd (objs w) (fresh i) G) (groups w)).
    assert (Hnin : ~ In (fresh i) (groups w)).
    { rewrite Hgs. now apply fresh_not_registered. }
    assert (Hc : objs w0 (fresh i) = G) by (unfold w0; cbn; apply upd_same).
    assert (Hok0 : registry_ok w0) by now apply registry_ok_new_object.
    assert (Hv : validation_error (addGroup (env_at i) (fresh i) w0) = false).
    { destruct (validation_error (addGroup (env_at i) (fresh i) w0)) eqn:E; [|reflexivity].
      rewrite addGroup_validation_loop in E.
      apply (addGroup_loop_validation (fresh i) (ranges G) (particleRadius G)
               (groups w0) 0 w0 []) in E;
        [|now rewrite app_nil_r, Hc | constructor | now rewrite Hc].
      destruct E as (j & r & _ & Hn & Hlt). cbn [Nat.add ranges G particleRadius] in Hn, Hlt.
      apply nth_error_In in Hn. rewrite Forall_forall in Hr.
      rewrite (Hr r Hn) in Hlt. discriminate. }
    destruct (addGroup_registry_ok (env_at i) (fresh i) w0 Hok0 Hnin) as [Hok1 Hgs1];
      [now rewrite Hc|now rewrite Hc|exact Hv|].
    change (groups w0) with (groups w) in Hgs1.
    assert (Hgs2 : groups (world_of (addGroup (env_at i) (fresh i) w0))
                   = map fresh (seq 0 (S i))).
    { rewrite Hgs1, Hgs, seq_S, map_app. reflexivity. }
    destruct (addGroup (env_at i) (fresh i) w0) as [r w1|e w1] eqn:Ea;
      cbn [world_of] in Hok1, Hgs2.
    + destruct (IH (S i) s4 w1 Hok1 Hgs2) as (V & R & j & Hj & Hg & Hret).
      split; [exact V|]. split; [exact R|]. exists j.
      split; [lia|]. split; [exact Hg|].
      intros s' w' Ho. rewrite (Hret s' w' Ho). lia.
    + split; [exact Hv|]. split; [exact Hok1|]. exists (S i).
      split; [lia|]. split; [exact Hgs2|]. intros s' w'. discriminate.
Qed.

End Random.

Lemma clear_registry_ok (w : World) : registry_ok (clear w).
Proof. split; [constructor|]. intros g []. Qed.

(** X22.  [random] builds a valid registry.  When the settings return,
    for every group, one force and one range per group registered so far plus
    one, and no range below the size they were given, and the loop is one of
    [k] iterations: [random] raises no validation error, and the registry it
    leaves consists of the objects it created, in the order of creation, each
    once, with aligned rows; there are [k] of them when the call returns.
    What was registered before has no influence: [random] starts from
    [clear]. *)
Theorem random_builds_valid_registry {Rng : Type} (params : RandomSettings Rng)
  (env_at : nat -> Env) (running : bool) (fresh : nat -> ref) (s : Rng) (w : World)
  (k : nat) :
  (forall a b, fresh a = fresh b -> a = b) ->
  (forall min w s,
     Forall (fun r => (r <? min) = false) (fst (getRanges params min w s)) /\
     length (fst (getRanges params min w s)) = S (length (groups w))) ->
  (forall w s, length (fst (getForces params w s)) = S (length (groups w))) ->
  loop_count (Math_round (fst (getGroupsCount params (clear w) s))) = Some k ->
  exists o, random_groups params env_at running fresh s w = Some o /\
    validation_error o = false /\
    registry_ok (world_of o) /\
    exists j, j <= k /\
              groups (world_of o) = map fresh (seq 0 j) /\
              (forall s' w', o = Return s' w' -> j = k).
Proof.
  intros Hinj Hr Hf Hk. unfold random_groups.
  destruct (getGroupsCount params (clear w) s) as [n s1]. cbn [fst] in Hk. rewrite Hk.
  eexists. split; [reflexivity|].
  destruct (random_loop_registry params env_at running fresh
              (Math_round (particlesCount params / Math_round n)) Hinj Hr Hf
              k 0 s1 (clear w) (clear_registry_ok w) eq_refl)
    as (V & R & j & Hj & Hg & Hret).
  split; [exact V|]. split; [exact R|]. exists j.
  split; [lia|]. split; [exact Hg|exact Hret].
Qed.

Lemma repeat_Forall {A : Type} (P : A -> Prop) (a : A) (n : nat) :
  P a -> Forall P (repeat a n).
Proof. intros H. induction n; cbn; constructor; auto. Qed.

Lemma random_builds_valid_registry_witness :
  exists o, random_groups fixed_settings (fun _ => env0) true (fun i => i) tt two_groups = Some o /\
    validation_error o = false /\
    registry_ok (world_of o) /\
    exists j, j <= 3 /\
              groups (world_of o) = map (fun i => i) (seq 0 j) /\
              (forall s' w', o = Return s' w' -> j = 3%nat).
Proof.
  apply (random_builds_valid_registry fixed_settings (fun _ => env0) true (fun i => i)
           tt two_groups 3).
  - auto.
  - intros min w s. cbn [fixed_settings getRanges fst]. split.
    + apply repeat_Forall. apply ltb_irrefl.
    + apply repeat_length.
  - intros w s. cbn [fixed_settings getForces fst]. apply repeat_length.
  - reflexivity.
Defined.

Example random_fixed_settings :
  match random_groups fixed_settings (fun _ => env0) true (fun i => (10 + i)%nat) tt two_groups with
  | Some (Return _ w') =>
      groups w' = [10; 11; 12]%nat /\
      map (fun g => length (items (objs w' g))) (groups w') = [200; 200; 200]%nat /\
      items (objs w' 0%nat) = []
  | _ => False
  end.
Proof. vm_compute. repeat split. Qed.

(** * [addGroup] and [removeGroup] once more: a rejected call, a repeated call *)

Lemma firstn_subset {A : Type} (n : nat) (l : list A) (a : A) :
  In a (firstn n l) -> In a l.
Proof.
  intros H. rewrite <- (firstn_skipn n l). apply in_or_app. now left.
Qed.

(** The loop of [addGroup] when the first range below the radius is at the
    index [j] of [todo]: it throws there, after the [j] groups before have
    received their entries. *)
Lemma addGroup_loop_stops (group : ref) (todo : list ref) :
  forall (i0 : nat) (w : World) (j : nat),
    ~ In group todo -> NoDup todo -> j < length todo ->
    (forall k, k < j ->
       (num_at (ranges (objs w group)) (i0 + k) <? particleRadius (objs w group)) = false) ->
    (num_at (ranges (objs w group)) (i0 + j) <? particleRadius (objs w group)) = true ->
    let o := addGroup_loop group todo i0 w in
    o = Throw (ParticleTooBig (num_at (ranges (objs w group)) (i0 + j))
                              (particleRadius (objs w group))) (world_of o) /\
    (forall g, ~ In g (firstn j todo) -> objs (world_of o) g = objs w g) /\
    (forall k g, nth_error todo k = Some g -> k < j ->
       forces (objs (world_of o) g)
         = forces (objs w g) ++ [num_at (forces (objs w group)) (i0 + k)] /\
       ranges (objs (world_of o) g)
         = ranges (objs w g) ++ [num_at (ranges (objs w group)) (i0 + k)]).
Proof.
  induction todo as [|g0 rest IH]; intros i0 w j Hnin Hnd Hj Hpass Hfail; cbv zeta.
  - cbn in Hj. lia.
  - cbn [addGroup_loop]. destruct j as [|j].
    + rewrite Nat.add_0_r in Hfail. rewrite Hfail. cbn [world_of firstn].
      rewrite Nat.add_0_r. split; [reflexivity|]. split; [reflexivity|].
      intros k g _ Hk. lia.
    + pose proof (Hpass O (Nat.lt_0_succ j)) as H0. rewrite Nat.add_0_r in H0. rewrite H0.
      set (w1 := mkWorld _ _).
      assert (Hne : group <> g0) by (intros ->; apply Hnin; now left).
      assert (Hc : objs w1 group = objs w group).
      { unfold w1. cbn. now apply push_entry_other. }
      inversion Hnd as [|? ? Hg0 Hnd']; subst.
      destruct (IH (S i0) w1 j (fun H => Hnin (or_intror H)) Hnd') as (E & Hout & Hin).
      * cbn in Hj. lia.
      * intros k Hk. rewrite Hc. rewrite Nat.add_succ_comm. apply Hpass. lia.
      * rewrite Hc. rewrite Nat.add_succ_comm. exact Hfail.
      * rewrite Hc in E, Hin. rewrite Nat.add_succ_comm in E.
        split; [exact E|]. split.
        -- intros g Hg. cbn [firstn] in Hg.
           rewrite Hout by (intros H; apply Hg; now right).
           unfold w1. cbn. apply push_entry_other. intros ->. apply Hg. now left.
        -- intros [|k] g Hk Hlt; cbn in Hk.
           ++ injection Hk as <-.
              rewrite Hout by (intros H; apply Hg0; eapply firstn_subset; exact H).
              unfold w1. cbn. rewrite push_entry_same, Nat.add_0_r. cbn. auto.
           ++ destruct (Hin k g Hk) as [Hf Hr]; [lia|]. rewrite Hf, Hr.
              assert (Hgg : g <> g0).
              { intros ->. apply Hg0. eapply nth_error_In; eauto. }
              unfold w1. cbn. rewrite (push_entry_other _ _ _ _ _ Hgg).
              now rewrite Nat.add_succ_r.
Qed.

(** X23.  What a rejected [addGroup] leaves behind, in general.  In a
    registry without repeated objects, for a candidate that is not
    registered: when the first range of the candidate below its radius is at
    an index [i] of a registered group, the call throws the error with that
    range and the radius, and the registry is as before; the groups at the
    indices below [i] have each received the candidate's force and range of
    their index, and every other object, the candidate included, is
    untouched. *)
Theorem addGroup_rejected_rows (env : Env) (group : ref) (w : World) (i : nat) :
  NoDup (groups w) -> ~ In group (groups w) -> i < length (groups w) ->
  (forall k, k < i ->
     (num_at (ranges (objs w group)) k <? particleRadius (objs w group)) = false) ->
  (num_at (ranges (objs w group)) i <? particleRadius (objs w group)) = true ->
  let o := addGroup env group w in
  o = Throw (ParticleTooBig (num_at (ranges (objs w group)) i)
                            (particleRadius (objs w group))) (world_of o) /\
  groups (world_of o) = groups w /\
  (forall k g, nth_error (groups w) k = Some g -> k < i ->
     forces (objs (world_of o) g) = forces (objs w g) ++ [num_at (forces (objs w group)) k] /\
     ranges (objs (world_of o) g) = ranges (objs w g) ++ [num_at (ranges (objs w group)) k]) /\
  (forall k g, nth_error (groups w) k = Some g -> i <= k ->
     objs (world_of o) g = objs w g) /\
  objs (world_of o) group = objs w group.
Proof.
  intros Hnd Hnin Hi Hpass Hfail. cbv zeta.
  destruct (addGroup_loop_stops group (groups w) 0 w i Hnin Hnd Hi Hpass Hfail)
    as (E & Hout & Hin).
  pose proof (addGroup_loop_groups group (groups w) 0 w) as Hg.
  cbn [Nat.add] in E, Hin.
  assert (Ew : world_of (addGroup env group w)
               = world_of (addGroup_loop group (groups w) 0 w)).
  { unfold addGroup. rewrite E. reflexivity. }
  rewrite Ew. split.
  - unfold addGroup. rewrite E. reflexivity.
  - split; [exact Hg|]. split; [exact Hin|]. split.
    + intros k g Hk Hle. apply Hout. intros H.
      apply In_nth_error in H. destruct H as (k' & Hk').
      assert (Hlt : k' < i).
      { assert (k' < length (firstn i (groups w))) by (apply nth_error_Some; congruence).
        rewrite length_firstn in H. lia. }
      rewrite nth_error_firstn in Hk'.
      destruct (Nat.ltb_spec k' i); [|lia].
      assert (k' = k).
      { eapply (proj1 (NoDup_nth_error (groups w)) Hnd); [|congruence].
        apply nth_error_Some. congruence. }
      lia.
    + apply Hout. intros H. apply Hnin. eapply firstn_subset; exact H.
Qed.

Lemma addGroup_rejected_rows_witness :
  let o := addGroup env0 2%nat two_groups in
  o = Throw (ParticleTooBig (num_at (ranges (objs two_groups 2%nat)) 1)
                            (particleRadius (objs two_groups 2%nat))) (world_of o) /\
  groups (world_of o) = groups two_groups /\
  (forall k g, nth_error (groups two_groups) k = Some g -> k < 1 ->
     forces (objs (world_of o) g)
       = forces (objs two_groups g) ++ [num_at (forces (objs two_groups 2%nat)) k] /\
     ranges (objs (world_of o) g)
       = ranges (objs two_groups g) ++ [num_at (ranges (objs two_groups 2%nat)) k]) /\
  (forall k g, nth_error (groups two_groups) k = Some g -> 1 <= k ->
     objs (world_of o) g = objs two_groups g) /\
  objs (world_of o) 2%nat = objs two_groups 2%nat.
Proof.
  apply (addGroup_rejected_rows env0 2%nat two_groups 1).
  - repeat constructor; cbn; intuition discriminate.
  - cbn. intuition discriminate.
  - cbn. lia.
  - intros [|k] Hk; [reflexivity|lia].
  - reflexivity.
Defined.

(** The tables after the loop of [addGroup] when the candidate may be one of
    the registered objects: the reads [group.forces[i]] and [group.ranges[i]]
    stay inside the row the candidate had before the call, also after the
    loop has appended to that row. *)
Lemma addGroup_loop_tables_alias (group : ref) (todo : list ref) :
  forall (i : nat) (w : World),
    NoDup todo ->
    i + length todo <= length (forces (objs w group)) ->
    i + length todo <= length (ranges (objs w group)) ->
    validation_error (addGroup_loop group todo i w) = false ->
    let w' := world_of (addGroup_loop group todo i w) in
    (forall g, ~ In g todo -> objs w' g = objs w g) /\
    (forall k g, nth_error todo k = Some g ->
       forces (objs w' g) = forces (objs w g) ++ [num_at (forces (objs w group)) (i + k)] /\
       ranges (objs w' g) = ranges (objs w g) ++ [num_at (ranges (objs w group)) (i + k)]).
Proof.
  induction todo as [|g0 rest IH]; intros i w Hnd Lf Lr Hv; cbv zeta.
  - cbn. split; [reflexivity|]. intros [|k] g; discriminate.
  - cbn [addGroup_loop] in *.
    destruct (_ <? _) eqn:Hlt; [discriminate|].
    set (w1 := mkWorld _ _) in *.
    cbn [length] in Lf, Lr.
    assert (Hrows : forall n, n < i + S (length rest) ->
              num_at (forces (objs w1 group)) n = num_at (forces (objs w group)) n /\
              num_at (ranges (objs w1 group)) n = num_at (ranges (objs w group)) n).
    { intros n Hn. unfold w1. cbn [objs].
      destruct (Nat.eq_dec group g0) as [->|Hne].
      - rewrite push_entry_same. cbn [forces ranges]. unfold num_at.
        rewrite !app_nth1 by lia. auto.
      - rewrite push_entry_other by assumption. auto. }
    assert (Lf1 : S i + length rest <= length (forces (objs w1 group))).
    { unfold w1. cbn [objs]. destruct (Nat.eq_dec group g0) as [->|Hne].
      - rewrite push_entry_same. cbn [forces]. rewrite length_app. cbn. lia.
      - rewrite push_entry_other by assumption. lia. }
    assert (Lr1 : S i + length rest <= length (ranges (objs w1 group))).
    { unfold w1. cbn [objs]. destruct (Nat.eq_dec group g0) as [->|Hne].
      - rewrite push_entry_same. cbn [ranges]. rewrite length_app. cbn. lia.
      - rewrite push_entry_other by assumption. lia. }
    inversion Hnd as [|? ? Hg0 Hnd']; subst.
    destruct (IH (S i) w1 Hnd' Lf1 Lr1 Hv) as [IH1 IH2].
    split.
    + intros g Hg. rewrite IH1 by (intros H; apply Hg; now right).
      unfold w1. cbn. apply push_entry_other. intros ->. apply Hg. now left.
    + intros [|k] g Hk; cbn in Hk.
      * injection Hk as <-. rewrite (IH1 g0 Hg0). unfold w1. cbn.
        rewrite push_entry_same, Nat.add_0_r. cbn. auto.
      * destruct (IH2 k g Hk) as [Hf Hr]. rewrite Hf, Hr.
        assert (Hkl : k < length rest) by (apply nth_error_Some; congruence).
        destruct (Hrows (S i + k)%nat) as [-> ->]; [lia|].
        assert (Hgg : g <> g0).
        { intros ->. apply Hg0. eapply nth_error_In; eauto. }
        unfold w1. cbn. rewrite (push_entry_other _ _ _ _ _ Hgg).
        now rewrite Nat.add_succ_r.
Qed.

(** X24.  [addGroup] does not look whether its argument is registered
    already.  In a registry of distinct groups with aligned rows, a group of
    the registry that is added once more, and raises no validation error, is
    appended a second time.  Every row, its own included, receives the entry
    that the argument had at the index of the row, so the rows stay aligned
    with the longer registry; the entry the group receives for its second
    registration is a copy of its entry for itself.  The registry no longer
    consists of distinct groups. *)
Theorem addGroup_registered_again (env : Env) (group : ref) (w : World) :
  registry_ok w -> In group (groups w) ->
  validation_error (addGroup env group w) = false ->
  let w' := world_of (addGroup env group w) in
  groups w' = groups w ++ [group] /\
  (forall k g, nth_error (groups w) k = Some g ->
     forces (objs w' g) = forces (objs w g) ++ [num_at (forces (objs w group)) k] /\
     ranges (objs w' g) = ranges (objs w g) ++ [num_at (ranges (objs w group)) k]) /\
  aligned w' /\
  ~ NoDup (groups w').
Proof.
  intros [Hnd Hal] Hin Hv. cbv zeta.
  destruct (addGroup_unfold env group w Hv) as (w1 & E & Ew).
  pose proof (addGroup_accepted_groups env group w Hv) as Hgs.
  destruct (Hal group Hin) as [Lf Lr].
  assert (Hv1 : validation_error (addGroup_loop group (groups w) 0 w) = false)
    by now rewrite <- (addGroup_validation_loop env).
  destruct (addGroup_loop_tables_alias group (groups w) 0 w Hnd) as [_ Htab];
    [cbn; lia | cbn; lia | exact Hv1 |].
  rewrite E in Htab. cbn [world_of Nat.add] in Htab.
  assert (Hrows : forall k g, nth_error (groups w) k = Some g ->
    forces (objs (world_of (addGroup env group w)) g)
      = forces (objs w g) ++ [num_at (forces (objs w group)) k] /\
    ranges (objs (world_of (addGroup env group w)) g)
      = ranges (objs w g) ++ [num_at (ranges (objs w group)) k]).
  { intros k g Hk. rewrite Ew.
    destruct (updateParticleCount_tables env group g
                (mkWorld (objs w1) (groups w ++ [group]))) as [-> ->].
    cbn [objs]. now apply Htab. }
  split; [exact Hgs|]. split; [exact Hrows|]. split.
  - intros g Hg. rewrite Hgs in *. rewrite length_app. cbn [length].
    assert (Hg' : In g (groups w)).
    { apply in_app_iff in Hg. destruct Hg as [Hg|[<-|[]]]; assumption. }
    destruct (In_nth_error _ _ Hg') as [k Hk].
    destruct (Hrows k g Hk) as [-> ->]. rewrite !length_app. cbn [length].
    destruct (Hal g Hg') as [-> ->]. lia.
  - rewrite Hgs. intros H. apply NoDup_remove_2 in H.
    rewrite app_nil_r in H. contradiction.
Qed.

Lemma addGroup_registered_again_witness :
  let w' := world_of (addGroup env0 1%nat three_groups) in
  groups w' = [0; 1; 2; 1]%nat /\
  (forall k g, nth_error (groups three_groups) k = Some g ->
     forces (objs w' g)
       = forces (objs three_groups g) ++ [num_at (forces (objs three_groups 1%nat)) k] /\
     ranges (objs w' g)
       = ranges (objs three_groups g) ++ [num_at (ranges (objs three_groups 1%nat)) k]) /\
  aligned w' /\
  ~ NoDup (groups w').
Proof.
  apply (addGroup_registered_again env0 1%nat three_groups).
  - split.
    + repeat constructor; cbn; intuition discriminate.
    + intros g [<-|[<-|[<-|[]]]]; split; reflexivity.
  - cbn. auto.
  - reflexivity.
Defined.

(** X25.  [removeGroup] called twice with the same group removes two
    groups.  In a registry of at least two distinct groups with aligned
    rows, the first call takes the group out; at the second call the group
    is no longer found, and the last group of what is left is removed with
    the last entry of every remaining row.  The registry is two groups
    shorter, and it is still one of distinct groups with aligned rows. *)
Theorem removeGroup_twice (group : ref) (w : World) :
  registry_ok w -> In group (groups w) -> 2 <= length (groups w) ->
  let i := findIndex group (groups w) in
  let w2 := removeGroup group (removeGroup group w) in
  groups w2 = removelast (splice1 i (groups w)) /\
  length (groups w) = S (S (length (groups w2))) /\
  (exists g', g' <> group /\ In g' (groups w) /\ ~ In g' (groups w2)) /\
  (forall g, In g (groups w2) ->
     forces (objs w2 g) = removelast (splice1 i (forces (objs w g))) /\
     ranges (objs w2 g) = removelast (splice1 i (ranges (objs w g)))) /\
  registry_ok w2.
Proof.
  intros Hok Hin Hlen2. cbv zeta.
  pose proof (removeGroup_registry_ok group w Hok) as Hok1.
  pose proof (removeGroup_registry_ok group _ Hok1) as Hok2.
  destruct Hok as [Hnd Hal]. destruct Hok1 as [Hnd1 Hal1].
  destruct (removeGroup_removed_row group w Hnd Hin) as (Hout & _).
  destruct (removeGroup_tables group w Hnd) as [Hg1 Ht1].
  destruct (removeGroup_tables group (removeGroup group w) Hnd1) as [Hg2 Ht2].
  cbv zeta in *.
  rewrite (findIndex_None group _ Hout) in Hg2, Ht2.
  change (splice1 None ?l) with (removelast l) in Hg2, Ht2.
  assert (L1 : length (groups (removeGroup group w)) = (length (groups w) - 1)%nat).
  { rewrite Hg1. apply splice1_length. intros k Hk. now apply findIndex_Some in Hk. }
  assert (L2 : length (groups (removeGroup group (removeGroup group w)))
               = (length (groups (removeGroup group w)) - 1)%nat).
  { rewrite Hg2. apply (splice1_length None). discriminate. }
  split; [now rewrite Hg2, Hg1|]. split; [lia|]. split; [|split; [|exact Hok2]].
  - destruct (groups (removeGroup group w)) as [|a l] eqn:E; [cbn in L1; lia|].
    exists (last (a :: l) a).
    assert (Hlast : In (last (a :: l) a) (a :: l)).
    { rewrite (app_removelast_last a (l:=a :: l)) at 2 by discriminate.
      apply in_or_app. right. now left. }
    split; [|split].
    + intros Heq. apply Hout. now rewrite <- Heq.
    + apply (splice1_incl (findIndex group (groups w))). rewrite <- Hg1. exact Hlast.
    + rewrite Hg2. intros Hin'.
      rewrite (app_removelast_last a (l:=a :: l)) in Hnd1 by discriminate.
      apply NoDup_remove_2 in Hnd1. rewrite app_nil_r in Hnd1. contradiction.
  - intros g Hg. destruct (Ht2 g Hg) as [-> ->].
    assert (Hg' : In g (groups (removeGroup group w))).
    { rewrite Hg2 in Hg. eapply (splice1_incl None); exact Hg. }
    destruct (Ht1 g Hg') as [-> ->]. auto.
Qed.

Lemma removeGroup_twice_witness :
  let w2 := removeGroup 0%nat (removeGroup 0%nat three_groups) in
  groups w2 = [1%nat] /\
  length (groups three_groups) = S (S (length (groups w2))) /\
  (exists g', g' <> 0%nat /\ In g' (groups three_groups) /\ ~ In g' (groups w2)) /\
  (forall g, In g (groups w2) ->
     forces (objs w2 g)
       = removelast (splice1 (Some 0%nat) (forces (objs three_groups g))) /\
     ranges (objs w2 g)
       = removelast (splice1 (Some 0%nat) (ranges (objs three_groups g)))) /\
  registry_ok w2.
Proof.
  apply (removeGroup_twice 0%nat three_groups).
  - split.
    + repeat constructor; cbn; intuition discriminate.
    + intros g [<-|[<-|[<-|[]]]]; split; reflexivity.
  - cbn. auto.
  - cbn. lia.
Defined.
